(** * FastCDC 2020 content-defined chunking (package [fastcdc])

    A shallow embedding of [fastcdc/fastcdc.go] together with the properties
    its specification states about it.

    Conventions of the embedding.
    - Go's [int] is the 64-bit two's-complement integer of the amd64 target;
      it is a [Z] and the arithmetic that can leave the range is wrapped
      with [GoInt.wrap].  [uint64] is a [Z] reduced modulo [2^64].
    - A function returns [None] when the Go code does not return normally:
      an index or slice expression out of range panics, [make] panics on a
      length out of range, and a loop that is given too little fuel does
      not finish.  Every theorem that states a result proves [Some].  An
      allocation of a length in range is taken to succeed.
    - [io.Reader] and [io.ReadFull] belong to Go's standard library; they
      are modelled in module [io] from their documented contract. *)

From Stdlib Require Import ZArith List Lia Bool.
From Stdlib Require Import Strings.Byte Strings.String.
Import ListNotations.
Local Open Scope Z_scope.

Notation "x <- e ;; k" := (match e with Some x => k | None => None end)
  (at level 61, e at next level, right associativity).
Notation "' p <- e ;; k" := (match e with Some p => k | None => None end)
  (at level 61, p pattern, e at next level, right associativity).

(** ** Machine integers *)

Module U64.
Definition modulus : Z := 2 ^ 64.
Definition wrap (x : Z) : Z := x mod modulus.
(** [x + y] on uint64 *)
Definition add (x y : Z) : Z := wrap (x + y).
(** [x << n] on uint64 *)
Definition shl (x n : Z) : Z := wrap (Z.shiftl x n).
End U64.

Module GoInt.
Definition wrap (x : Z) : Z := (x + 2 ^ 63) mod 2 ^ 64 - 2 ^ 63.
Definition add (x y : Z) : Z := wrap (x + y).
Definition sub (x y : Z) : Z := wrap (x - y).
Definition mul (x y : Z) : Z := wrap (x * y).
(** [x / y] truncates toward zero *)
Definition div (x y : Z) : Z := wrap (Z.quot x y).
(** [x &^ y] (bit clear) *)
Definition andnot (x y : Z) : Z := Z.ldiff x y.
(** [uint(x)] *)
Definition to_uint (x : Z) : Z := x mod 2 ^ 64.
End GoInt.

(** [math/bits.TrailingZeros] on a 64-bit unsigned value. *)
Fixpoint ctz (p : positive) : Z :=
  match p with
  | xO q => 1 + ctz q
  | _ => 0
  end.

Definition TrailingZeros (x : Z) : Z :=
  match x with
  | Zpos p => ctz p
  | _ => 64
  end.

(** ** Slices *)

(** [len(b)] *)
Definition len (b : list byte) : Z := Z.of_nat (List.length b).

(** [b[lo:hi]]; panics unless [0 <= lo <= hi <= len(b)]. *)
Definition slice (b : list byte) (lo hi : Z) : option (list byte) :=
  if (0 <=? lo) && (lo <=? hi) && (hi <=? len b)
  then Some (firstn (Z.to_nat (hi - lo)) (skipn (Z.to_nat lo) b))
  else None.

(** [b[i]]; panics unless [0 <= i < len(b)]. *)
Definition index (b : list byte) (i : Z) : option byte :=
  if (0 <=? i) && (i <? len b) then nth_error b (Z.to_nat i) else None.

(** Bytes [lo ..] of [b] overwritten by [src] (as [copy(b[lo:], src)] and a
    read into [b[lo:]] leave the array); the rest of [b] is kept. *)
Definition overwrite (b : list byte) (lo : Z) (src : list byte) : list byte :=
  firstn (Z.to_nat lo) b ++ src ++ skipn (Z.to_nat lo + List.length src) b.

(** [runtime.maxAlloc] of the 64-bit targets with 48 bits of heap address
    (amd64, arm64). *)
Definition maxAlloc : Z := Z.shiftl 1 48.

(** [make([]byte, n)]: [n] zero bytes; panics ([makeslice: len out of
    range]) unless [0 <= n <= maxAlloc]. *)
Definition make (n : Z) : option (list byte) :=
  if (0 <=? n) && (n <=? maxAlloc) then Some (repeat x00 (Z.to_nat n)) else None.

(** [table[b]] for a [[256]uint64] table indexed by a byte. *)
Definition at_byte (table : list Z) (b : byte) : Z :=
  nth (N.to_nat (Byte.to_N b)) table 0.

(** ** Errors and readers (Go's [errors] and [io]) *)

Inductive error : Type :=
| EOF                       (* io.EOF *)
| ErrUnexpectedEOF          (* io.ErrUnexpectedEOF *)
| errors_New (text : string)
| ReadError (code : nat).   (* any other error value of a reader *)

Definition error_eqb (a b : error) : bool :=
  match a, b with
  | EOF, EOF => true
  | ErrUnexpectedEOF, ErrUnexpectedEOF => true
  | errors_New s, errors_New t => String.eqb s t
  | ReadError m, ReadError n => Nat.eqb m n
  | _, _ => false
  end.

Module io.

(** What one call of [Read] does: deliver at most [S n] bytes with a nil
    error, or fail with the error [e] after storing at most [n] bytes
    (a reader may return the bytes it has together with an error; [n] is 0
    for a call that fails with no byte). *)
Inductive ReadStep : Type :=
| Deliver (n : nat)
| Fail (n : nat) (e : error).

(** A reader: the bytes it has not delivered yet and the behaviour of its
    next calls.  Once the script is used up every call delivers all that
    is asked for.  At the end of the bytes a call returns [0, io.EOF]. *)
Record Reader : Type := mkReader {
  pending : list byte;
  script : list ReadStep
}.

(** [r.Read(p)] with [len(p) = k]: the bytes stored in [p[:n]], the error,
    and the reader afterwards. *)
Definition Read (r : Reader) (k : nat) : list byte * option error * Reader :=
  match k with
  | O => ([], None, r)
  | S _ =>
    match script r with
    | Fail n e :: rest =>
      let m := Nat.min k n in
      (firstn m (pending r), Some e, mkReader (skipn m (pending r)) rest)
    | Deliver n :: rest =>
      match pending r with
      | [] => ([], Some EOF, mkReader [] rest)
      | _ :: _ =>
        let m := Nat.min k (S n) in
        (firstn m (pending r), None, mkReader (skipn m (pending r)) rest)
      end
    | [] =>
      match pending r with
      | [] => ([], Some EOF, r)
      | _ :: _ => (firstn k (pending r), None, mkReader (skipn k (pending r)) [])
      end
    end
  end.

(** The loop of [io.ReadAtLeast]:
    [for n < min && err == nil { nn, err = r.Read(buf[n:]); n += nn }]
    with [got] the bytes [buf[:n]] read so far. *)
Fixpoint ReadAtLeast_loop (fuel : nat) (r : Reader) (got : list byte) (min : nat)
  : option (list byte * option error * Reader) :=
  if (List.length got <? min)%nat then
    match fuel with
    | O => None
    | S fuel' =>
      let '(bs, err, r') := Read r (min - List.length got) in
      match err with
      | None => ReadAtLeast_loop fuel' r' (got ++ bs) min
      | Some e => Some (got ++ bs, Some e, r')
      end
    end
  else Some (got, None, r).

(** [io.ReadFull(r, buf)] with [len(buf) = size]: the bytes stored in
    [buf[:n]], the error, the reader afterwards. *)
Definition ReadFull (r : Reader) (size : nat)
  : option (list byte * option error * Reader) :=
  '(got, err, r') <- ReadAtLeast_loop (S size) r [] size ;;
  let n := List.length got in
  let err :=
    if (size <=? n)%nat then None
    else if (0 <? n)%nat && match err with Some EOF => true | _ => false end
         then Some ErrUnexpectedEOF
         else err in
  Some (got, err, r').

End io.

(** ** Tables *)

(** [masks]: the normalized chunking masks, indexed by [log2(chunk_size)]. *)
Definition masks : list Z := [
  0; 0; 0; 0;
  0; 0x0000000001804110; 0x0000000001803110; 0x0000000018035100;
  0x0000001800035300; 0x0000019000353000; 0x0000590003530000; 0x0000d90003530000;
  0x0000d90103530000; 0x0000d90303530000; 0x0000d90313530000; 0x0000d90f03530000;
  0x0000d90303537000; 0x0000d90703537000; 0x0000d90707537000; 0x0000d91707537000;
  0x0000d91747537000; 0x0000d91767537000; 0x0000d93767537000; 0x0000d93777537000;
  0x0000d93777577000; 0x0000db3777577000
]%Z.

(** [gear]: the lookup table of the rolling hash. *)
Definition gear : list Z := [
  0x3b5d3c7d207e37dc; 0x784d68ba91123086; 0xcd52880f882e7298; 0xeacf8e4e19fdcca7;
  0xc31f385dfbd1632b; 0x1d5f27001e25abe6; 0x83130bde3c9ad991; 0xc4b225676e9b7649;
  0xaa329b29e08eb499; 0xb67fcbd21e577d58; 0x0027baaada2acf6b; 0xe3ef2d5ac73c2226;
  0x0890f24d6ed312b7; 0xa809e036851d7c7e; 0xf0a6fe5e0013d81b; 0x1d026304452cec14;
  0x03864632648e248f; 0xcdaacf3dcd92b9b4; 0xf5e012e63c187856; 0x8862f9d3821c00b6;
  0xa82f7338750f6f8a; 0x1e583dc6c1cb0b6f; 0x7a3145b69743a7f1; 0xabb20fee404807eb;
  0xb14b3cfe07b83a5d; 0xb9dc27898adb9a0f; 0x3703f5e91baa62be; 0xcf0bb866815f7d98;
  0x3d9867c41ea9dcd3; 0x1be1fa65442bf22c; 0x14300da4c55631d9; 0xe698e9cbc6545c99;
  0x4763107ec64e92a5; 0xc65821fc65696a24; 0x76196c064822f0b7; 0x485be841f3525e01;
  0xf652bc9c85974ff5; 0xcad8352face9e3e9; 0x2a6ed1dceb35e98e; 0xc6f483badc11680f;
  0x3cfd8c17e9cf12f1; 0x89b83c5e2ea56471; 0xae665cfd24e392a9; 0xec33c4e504cb8915;
  0x3fb9b15fc9fe7451; 0xd7fd1fd1945f2195; 0x31ade0853443efd8; 0x255efc9863e1e2d2;
  0x10eab6008d5642cf; 0x46f04863257ac804; 0xa52dc42a789a27d3; 0xdaaadf9ce77af565;
  0x6b479cd53d87febb; 0x6309e2d3f93db72f; 0xc5738ffbaa1ff9d6; 0x6bd57f3f25af7968;
  0x67605486d90d0a4a; 0xe14d0b9663bfbdae; 0xb7bbd8d816eb0414; 0xdef8a4f16b35a116;
  0xe7932d85aaaffed6; 0x08161cbae90cfd48; 0x855507beb294f08b; 0x91234ea6ffd399b2;
  0xad70cf4b2435f302; 0xd289a97565bc2d27; 0x8e558437ffca99de; 0x96d2704b7115c040;
  0x0889bbcdfc660e41; 0x5e0d4e67dc92128d; 0x72a9f8917063ed97; 0x438b69d409e016e3;
  0xdf4fed8a5d8a4397; 0x00f41dcf41d403f7; 0x4814eb038e52603f; 0x9dafbacc58e2d651;
  0xfe2f458e4be170af; 0x4457ec414df6a940; 0x06e62f1451123314; 0xbd1014d173ba92cc;
  0xdef318e25ed57760; 0x9fea0de9dfca8525; 0x459de1e76c20624b; 0xaeec189617e2d666;
  0x126a2c06ab5a83cb; 0xb1321532360f6132; 0x65421503dbb40123; 0x2d67c287ea089ab3;
  0x6c93bff5a56bd6b6; 0x4ffb2036cab6d98d; 0xce7b785b1be7ad4f; 0xedb42ef6189fd163;
  0xdc905288703988f6; 0x365f9c1d2c691884; 0xc640583680d99bfe; 0x3cd4624c07593ec6;
  0x7f1ea8d85d7c5805; 0x014842d480b57149; 0x0b649bcb5a828688; 0xbcd5708ed79b18f0;
  0xe987c862fbd2f2f0; 0x982731671f0cd82c; 0xbaf13e8b16d8c063; 0x8ea3109cbd951bba;
  0xd141045bfb385cad; 0x2acbc1a0af1f7d30; 0xe6444d89df03bfdf; 0xa18cc771b8188ff9;
  0x9834429db01c39bb; 0x214add07fe086a1f; 0x8f07c19b1f6b3ff9; 0x56a297b1bf4ffe55;
  0x94d558e493c54fc7; 0x40bfc24c764552cb; 0x931a706f8a8520cb; 0x32229d322935bd52;
  0x2560d0f5dc4fefaf; 0x9dbcc48355969bb6; 0x0fd81c3985c0b56a; 0xe03817e1560f2bda;
  0xc1bb4f81d892b2d5; 0xb0c4864f4e28d2d7; 0x3ecc49f9d9d6c263; 0x51307e99b52ba65e;
  0x8af2b688da84a752; 0xf5d72523b91b20b6; 0x6d95ff1ff4634806; 0x562f21555458339a;
  0xc0ce47f889336346; 0x487823e5089b40d8; 0xe4727c7ebc6d9592; 0x5a8f7277e94970ba;
  0xfca2f406b1c8bb50; 0x5b1f8a95f1791070; 0xd304af9fc9028605; 0x5440ab7fc930e748;
  0x312d25fbca2ab5a1; 0x10f4a4b234a4d575; 0x90301d55047e7473; 0x3b6372886c61591e;
  0x293402b77c444e06; 0x451f34a4d3e97dd7; 0x3158d814d81bc57b; 0x034942425b9bda69;
  0xe2032ff9e532d9bb; 0x62ae066b8b2179e5; 0x9545e10c2f8d71d8; 0x7ff7483eb2d23fc0;
  0x00945fcebdc98d86; 0x8764bbbe99b26ca2; 0x1b1ec62284c0bfc3; 0x58e0fcc4f0aa362b;
  0x5f4abefa878d458d; 0xfd74ac2f9607c519; 0xa4e3fb37df8cbfa9; 0xbf697e43cac574e5;
  0x86f14a3f68f4cd53; 0x24a23d076f1ce522; 0xe725cd8048868cc8; 0xbf3c729eb2464362;
  0xd8f6cd57b3cc1ed8; 0x6329e52425541577; 0x62aa688ad5ae1ac0; 0x0a242566269bf845;
  0x168b1a4753aca74b; 0xf789afefff2e7e3c; 0x6c3362093b6fccdb; 0x4ce8f50bd28c09b2;
  0x006a2db95ae8aa93; 0x975b0d623c3d1a8c; 0x18605d3935338c5b; 0x5bb6f6136cad3c71;
  0x0f53a20701f8d8a6; 0xab8c5ad2e7e93c67; 0x40b5ac5127acaa29; 0x8c7bf63c2075895f;
  0x78bd9f7e014a805c; 0xb2c9e9f4f9c8c032; 0xefd6049827eb91f3; 0x2be459f482c16fbd;
  0xd92ce0c5745aaa8c; 0x0aaa8fb298d965b9; 0x2b37f92c6c803b15; 0x8c54a5e94e0f0e78;
  0x95f9b6e90c0a3032; 0xe7939faa436c7874; 0xd16bfe8f6a8a40c9; 0x44982b86263fd2fa;
  0xe285fb39f984e583; 0x779a8df72d7619d3; 0xf2d79a8de8d5dd1e; 0xd1037354d66684e2;
  0x004c82a4e668a8e5; 0x31d40a7668b044e6; 0xd70578538bd02c11; 0xdb45431078c5f482;
  0x977121bb7f6a51ad; 0x73d5ccbd34eff8dd; 0xe437a07d356e17cd; 0x47b2782043c95627;
  0x9fb251413e41d49a; 0xccd70b60652513d3; 0x1c95b31e8a1b49b2; 0xcae73dfd1bcb4c1b;
  0x34d98331b1f5b70f; 0x784e39f22338d92f; 0x18613d4a064df420; 0xf1d8dae25f0bcebe;
  0x33f77c15ae855efc; 0x3c88b3b912eb109c; 0x956a2ec96bafeea5; 0x1aa005b5e0ad0e87;
  0x5500d70527c4bb8e; 0xe36c57196421cc44; 0x13c4d286cc36ee39; 0x5654a23d818b2a81;
  0x77b1dc13d161abdc; 0x734f44de5f8d5eb5; 0x60717e174a6c89a2; 0xd47d9649266a211e;
  0x5b13a4322bb69e90; 0xf7669609f8b5fc3c; 0x21e6ac55bedcdac9; 0x9b56b62b61166dea;
  0xf48f66b939797e9c; 0x35f332f9c0e6ae9a; 0xcc733f6a9a878db0; 0x3da161e41cc108c2;
  0xb7d74ae535914d51; 0x4d493b0b11d36469; 0xce264d1dfba9741a; 0xa9d1f2dc7436dc06;
  0x70738016604c2a27; 0x231d36e96e93f3d5; 0x7666881197838d19; 0x4a2a83090aaad40c;
  0xf1e761591668b35d; 0x7363236497f730a7; 0x301080e37379dd4d; 0x502dea2971827042;
  0xc2c5eb858f32625f; 0x786afb9edfafbdff; 0xdaee0d868490b2a4; 0x617366b3268609f6;
  0xae0e35a0fe46173e; 0xd1a07de93e824f11; 0x079b8b115ea4cca8; 0x93a99274558faebb;
  0xfb1e6e22e08a03b3; 0xea635fdba3698dd0; 0xcf53659328503a5c; 0xcde3b31e6fd5d780;
  0x8e3e4221d3614413; 0xef14d0d86bf1a22c; 0xe1d830d3f16c5ddb; 0xaabd2b2a451504e1
]%Z.

(** [gearShifted], filled by [init()]. *)
Definition gearShifted : list Z := map (fun g => U64.shl g 1) gear.

(** ** Options *)

Definition absoluteMinSize : Z := 64.
Definition absoluteMaxSize : Z := Z.shiftl 1 30.
Definition defaultNormalization : Z := 2.

Module options.

Record t : Type := mk {
  averageSize : Z;
  minSize : Z;
  maxSize : Z;
  normalization : Z;
  disableNormalization : bool;
  seed : Z;
  bufSize : Z
}.

Definition set_minSize (o : t) (v : Z) : t :=
  mk (averageSize o) v (maxSize o) (normalization o) (disableNormalization o) (seed o) (bufSize o).
Definition set_maxSize (o : t) (v : Z) : t :=
  mk (averageSize o) (minSize o) v (normalization o) (disableNormalization o) (seed o) (bufSize o).
Definition set_normalization (o : t) (v : Z) : t :=
  mk (averageSize o) (minSize o) (maxSize o) v (disableNormalization o) (seed o) (bufSize o).
Definition set_disableNormalization (o : t) (v : bool) : t :=
  mk (averageSize o) (minSize o) (maxSize o) (normalization o) v (seed o) (bufSize o).
Definition set_seed (o : t) (v : Z) : t :=
  mk (averageSize o) (minSize o) (maxSize o) (normalization o) (disableNormalization o) v (bufSize o).
Definition set_bufSize (o : t) (v : Z) : t :=
  mk (averageSize o) (minSize o) (maxSize o) (normalization o) (disableNormalization o) (seed o) v.

Definition setDefaults (o : t) : t :=
  let o := if minSize o =? 0 then set_minSize o (GoInt.div (averageSize o) 4) else o in
  let o := if maxSize o =? 0 then set_maxSize o (GoInt.mul (averageSize o) 4) else o in
  let o := if bufSize o =? 0 then set_bufSize o (GoInt.mul (maxSize o) 2) else o in
  if negb (disableNormalization o) && (normalization o =? 0)
  then set_normalization o defaultNormalization
  else o.

Definition validate (o : t) : option error :=
  if (averageSize o <? absoluteMinSize) || (averageSize o >? absoluteMaxSize) then
    Some (errors_New "AverageSize must be in range 64B to 1GiB")
  else if (averageSize o <=? 0)
          || negb (Z.land (averageSize o) (GoInt.sub (averageSize o) 1) =? 0) then
    Some (errors_New "AverageSize must be a power of 2")
  else if (minSize o <? absoluteMinSize) || (minSize o >? absoluteMaxSize) then
    Some (errors_New "MinSize must be in range 64B to 1GiB")
  else if (maxSize o <? absoluteMinSize) || (maxSize o >? absoluteMaxSize) then
    Some (errors_New "MaxSize must be in range 64B to 1GiB")
  else if maxSize o <=? minSize o then
    Some (errors_New "MinSize must be less than MaxSize")
  else if (averageSize o >? maxSize o) || (averageSize o <? minSize o) then
    Some (errors_New "AverageSize must be between MinSize and MaxSize")
  else if negb (disableNormalization o)
          && ((normalization o <? 0) || (normalization o >? 3)) then
    Some (errors_New "Normalization must be 0, 1, 2, or 3")
  else if bufSize o <=? maxSize o then
    Some (errors_New "BufferSize must be greater than MaxSize")
  else None.

End options.

Definition Option : Type := options.t -> options.t.

Definition WithMinSize (size : Z) : Option :=
  fun o => options.set_minSize o size.

Definition WithMaxSize (size : Z) : Option :=
  fun o => options.set_maxSize o size.

Definition WithNormalization (level : Z) : Option :=
  fun o => options.set_disableNormalization (options.set_normalization o level) (level =? 0).

Definition WithSeed (seed : Z) : Option :=
  fun o => options.set_seed o seed.

Definition WithBufferSize (size : Z) : Option :=
  fun o => options.set_bufSize o size.

(** ** Chunks and the chunker *)

Record Chunk : Type := mkChunk {
  Offset : Z;
  Length : Z;
  Data : list byte;   (* the bytes of the view at the time [Next] returns *)
  Fingerprint : Z
}.

(** [Chunk{}] *)
Definition zeroChunk : Chunk := mkChunk 0 0 [] 0.

(** The outcome of a scan loop of [cut]: a [return] from inside the loop,
    or the loop ran to its end. *)
Inductive scan : Type :=
| Returned (length : Z) (fingerprint : Z)
| Finished (fingerprint : Z).

Module Chunker.

Record t : Type := mk {
  minSize : Z;
  maxSize : Z;
  normalizeSize : Z;
  maskSmall : Z;
  maskLarge : Z;
  maskSmallShifted : Z;
  maskLargeShifted : Z;
  gear : list Z;
  gearShifted : list Z;
  reader : io.Reader;
  buf : list byte;
  bufCursor : Z;
  bufEnd : Z;
  streamPos : Z;
  readerEOF : bool
}.

Definition set_reader (c : t) (v : io.Reader) : t :=
  mk (minSize c) (maxSize c) (normalizeSize c) (maskSmall c) (maskLarge c)
     (maskSmallShifted c) (maskLargeShifted c) (gear c) (gearShifted c)
     v (buf c) (bufCursor c) (bufEnd c) (streamPos c) (readerEOF c).
Definition set_buf (c : t) (v : list byte) : t :=
  mk (minSize c) (maxSize c) (normalizeSize c) (maskSmall c) (maskLarge c)
     (maskSmallShifted c) (maskLargeShifted c) (gear c) (gearShifted c)
     (reader c) v (bufCursor c) (bufEnd c) (streamPos c) (readerEOF c).
Definition set_bufCursor (c : t) (v : Z) : t :=
  mk (minSize c) (maxSize c) (normalizeSize c) (maskSmall c) (maskLarge c)
     (maskSmallShifted c) (maskLargeShifted c) (gear c) (gearShifted c)
     (reader c) (buf c) v (bufEnd c) (streamPos c) (readerEOF c).
Definition set_bufEnd (c : t) (v : Z) : t :=
  mk (minSize c) (maxSize c) (normalizeSize c) (maskSmall c) (maskLarge c)
     (maskSmallShifted c) (maskLargeShifted c) (gear c) (gearShifted c)
     (reader c) (buf c) (bufCursor c) v (streamPos c) (readerEOF c).
Definition set_streamPos (c : t) (v : Z) : t :=
  mk (minSize c) (maxSize c) (normalizeSize c) (maskSmall c) (maskLarge c)
     (maskSmallShifted c) (maskLargeShifted c) (gear c) (gearShifted c)
     (reader c) (buf c) (bufCursor c) (bufEnd c) v (readerEOF c).
Definition set_readerEOF (c : t) (v : bool) : t :=
  mk (minSize c) (maxSize c) (normalizeSize c) (maskSmall c) (maskLarge c)
     (maskSmallShifted c) (maskLargeShifted c) (gear c) (gearShifted c)
     (reader c) (buf c) (bufCursor c) (bufEnd c) (streamPos c) v.

(** [Reset] *)
Definition Reset (c : t) (rd : io.Reader) : t :=
  let c := set_reader c rd in
  let c := set_streamPos c 0 in
  let c := set_readerEOF c false in
  let c := set_bufCursor c (len (buf c)) in
  set_bufEnd c (len (buf c)).

(** [fillBuffer]: the returned error and the chunker afterwards. *)
Definition fillBuffer (c : t) : option (option error * t) :=
  let availableToRead := GoInt.sub (bufEnd c) (bufCursor c) in
  if availableToRead >=? maxSize c then Some (None, c) else
  dst <- slice (buf c) 0 availableToRead ;;
  src <- slice (buf c) (bufCursor c) (len (buf c)) ;;
  let c := set_buf c (overwrite (buf c) 0
                        (firstn (Nat.min (List.length dst) (List.length src)) src)) in
  let c := set_bufCursor c 0 in
  if readerEOF c then Some (None, set_bufEnd c availableToRead) else
  dst <- slice (buf c) availableToRead (len (buf c)) ;;
  '(got, err, rd) <- io.ReadFull (reader c) (List.length dst) ;;
  let c := set_reader (set_buf c (overwrite (buf c) availableToRead got)) rd in
  let bytesRead := len got in
  match err with
  | Some EOF | Some ErrUnexpectedEOF =>
    let c := set_bufEnd c (GoInt.add availableToRead bytesRead) in
    let c := set_readerEOF c true in
    Some (None, c)
  | _ => Some (err, c)
  end.

(** The two [for] loops of [cut] have the same body and differ in their
    masks and bounds:
    [for i := start; i < stop; i += 2 { ... }]. *)
Fixpoint cut_loop (localGearShifted localGear : list Z) (maskShifted mask : Z)
  (data : list byte) (stop : Z) (fuel : nat) (i : Z) (fingerprint : Z)
  : option scan :=
  if i <? stop then
    match fuel with
    | O => None
    | S fuel' =>
      b0 <- index data i ;;
      let fingerprint := U64.add (U64.shl fingerprint 2) (at_byte localGearShifted b0) in
      if Z.land fingerprint maskShifted =? 0 then Some (Returned i fingerprint) else
      b1 <- index data (i + 1) ;;
      let fingerprint := U64.add fingerprint (at_byte localGear b1) in
      if Z.land fingerprint mask =? 0 then Some (Returned (i + 1) fingerprint) else
      cut_loop localGearShifted localGear maskShifted mask data stop fuel' (i + 2) fingerprint
    end
  else Some (Finished fingerprint).

(** [cut]: the length of the chunk and its fingerprint. *)
Definition cut (c : t) (data : list byte) : option (Z * Z) :=
  let localGear := gear c in
  let localGearShifted := gearShifted c in
  let dataLen := len data in
  if dataLen <=? minSize c then Some (dataLen, 0) else
  let maxBoundary := if dataLen >? maxSize c then maxSize c else dataLen in
  let normalizeBoundary :=
    if maxBoundary <? normalizeSize c then maxBoundary else normalizeSize c in
  _ <- index data (maxBoundary - 1) ;;
  let scanStart := GoInt.andnot (minSize c) 1 in
  let normalizeAt := GoInt.andnot normalizeBoundary 1 in
  let scanEnd := GoInt.andnot maxBoundary 1 in
  let fuel := S (List.length data) in
  r <- cut_loop localGearShifted localGear (maskSmallShifted c) (maskSmall c)
         data normalizeAt fuel scanStart 0 ;;
  match r with
  | Returned i fingerprint => Some (i, fingerprint)
  | Finished fingerprint =>
    r <- cut_loop localGearShifted localGear (maskLargeShifted c) (maskLarge c)
           data scanEnd fuel normalizeAt fingerprint ;;
    match r with
    | Returned i fingerprint => Some (i, fingerprint)
    | Finished fingerprint => Some (maxBoundary, fingerprint)
    end
  end.

(** [Next]: the chunk, the error, and the chunker afterwards. *)
Definition Next (c : t) : option (Chunk * option error * t) :=
  '(err, c) <- fillBuffer c ;;
  match err with
  | Some e => Some (zeroChunk, Some e, c)
  | None =>
    if bufEnd c =? 0 then Some (zeroChunk, Some EOF, c) else
    data <- slice (buf c) (bufCursor c) (bufEnd c) ;;
    '(length, fp) <- cut c data ;;
    view <- slice (buf c) (bufCursor c) (GoInt.add (bufCursor c) length) ;;
    let chunk := mkChunk (streamPos c) length view fp in
    let c := set_bufCursor c (GoInt.add (bufCursor c) length) in
    let c := set_streamPos c (GoInt.add (streamPos c) length) in
    Some (chunk, None, c)
  end.

End Chunker.

(** [masks[i]]; panics unless [0 <= i < 26]. *)
Definition masks_at (i : Z) : option Z :=
  if (0 <=? i) && (i <? 26) then nth_error masks (Z.to_nat i) else None.

(** The options of a call after the overrides and the defaults. *)
Definition resolve (averageSize : Z) (opts : list Option) : options.t :=
  options.setDefaults
    (fold_left (fun o opt => opt o) opts (options.mk averageSize 0 0 0 false 0 0)).

(** [NewChunker]: the chunker ([nil] as [None]) and the error; no result
    when [make] panics on the buffer size. *)
Definition NewChunker (rd : io.Reader) (averageSize : Z) (opts : list Option)
  : option (option Chunker.t * option error) :=
  let o := resolve averageSize opts in
  match options.validate o with
  | Some err => Some (None, Some err)
  | None =>
    let '(seedGear, seedGearShifted) :=
      if negb (options.seed o =? 0) then
        let shiftedSeed := U64.shl (options.seed o) 1 in
        (map (fun g => Z.lxor g (options.seed o)) gear,
         map (fun g => Z.lxor g shiftedSeed) gearShifted)
      else (gear, gearShifted) in
    let normalization :=
      if options.disableNormalization o then 0 else options.normalization o in
    let log2Avg := TrailingZeros (GoInt.to_uint (options.averageSize o)) in
    let smallBits := GoInt.add log2Avg normalization in
    let largeBits := GoInt.sub log2Avg normalization in
    if (smallBits >? 25) || (largeBits <? 5) then
      Some (None, Some (errors_New
        "AverageSize/Normalization combination exceeds mask table bounds"))
    else
    maskS <- masks_at smallBits ;;
    maskL <- masks_at largeBits ;;
    buf <- make (options.bufSize o) ;;
    let chunker := Chunker.mk
      (options.minSize o) (options.maxSize o) (options.averageSize o)
      maskS maskL (U64.shl maskS 1) (U64.shl maskL 1)
      seedGear seedGearShifted
      rd buf
      (options.bufSize o) (options.bufSize o) 0 false in
    Some (Some chunker, None)
  end.

(** The loop of a caller (README, Usage; the tests): call [Next] until it
    returns an error; [io.EOF] ends the loop normally.  The result is the
    chunks in order, the error that stopped the loop if it was not
    [io.EOF], and the chunker afterwards. *)
Fixpoint drain (fuel : nat) (c : Chunker.t)
  : option (list Chunk * option error * Chunker.t) :=
  match fuel with
  | O => None
  | S fuel' =>
    '(chunk, err, c') <- Chunker.Next c ;;
    match err with
    | Some EOF => Some ([], None, c')
    | Some e => Some ([], Some e, c')
    | None =>
      '(rest, e, c'') <- drain fuel' c' ;;
      Some (chunk :: rest, e, c'')
    end
  end.

(** ** Specification-side definitions *)

(** The reference cut-point algorithm, as the specification words it: one
    scan over the even positions, the masks chosen by the position. *)

Definition round_even (x : Z) : Z := 2 * (x / 2).

(** The [count] even positions [from, from + 2, ...]. *)
Definition pair_positions (from : Z) (count : nat) : list Z :=
  map (fun k => from + 2 * Z.of_nat k) (seq 0 count).

Definition byte_at (region : list byte) (i : Z) : byte :=
  nth (Z.to_nat i) region x00.

Fixpoint scan_pairs (c : Chunker.t) (region : list byte) (normalizeEven : Z)
  (positions : list Z) (fingerprint : Z) : option Z * Z :=
  match positions with
  | [] => (None, fingerprint)
  | i :: rest =>
    let small := i <? normalizeEven in
    let fingerprint :=
      (fingerprint * 4 + at_byte (Chunker.gearShifted c) (byte_at region i)) mod 2 ^ 64 in
    if Z.land fingerprint
         (if small then Chunker.maskSmallShifted c else Chunker.maskLargeShifted c) =? 0
    then (Some i, fingerprint)
    else
      let fingerprint :=
        (fingerprint + at_byte (Chunker.gear c) (byte_at region (i + 1))) mod 2 ^ 64 in
      if Z.land fingerprint
           (if small then Chunker.maskSmall c else Chunker.maskLarge c) =? 0
      then (Some (i + 1), fingerprint)
      else scan_pairs c region normalizeEven rest fingerprint
  end.

Definition cut_reference (c : Chunker.t) (minSize averageSize maxSize : Z)
  (region : list byte) : Z * Z :=
  let maxBoundary := Z.min (len region) maxSize in
  let normalizeBoundary := Z.min maxBoundary averageSize in
  let positions :=
    pair_positions (round_even minSize)
      (Z.to_nat ((round_even maxBoundary - round_even minSize) / 2)) in
  match scan_pairs c region (round_even normalizeBoundary) positions 0 with
  | (Some length, fingerprint) => (length, fingerprint)
  | (None, fingerprint) => (maxBoundary, fingerprint)
  end.

(** The outcome of a scan loop that corresponds to a result of [scan_pairs]. *)
Definition scan_of (r : option Z * Z) : scan :=
  match r with
  | (Some l, f) => Returned l f
  | (None, f) => Finished f
  end.

(** The configuration that [NewChunker] accepts. *)
Definition effective_normalization (o : options.t) : Z :=
  if options.disableNormalization o then 0 else options.normalization o.

Definition accepted (o : options.t) : Prop :=
  64 <= options.averageSize o <= 2 ^ 30 /\
  (exists k, 0 <= k /\ options.averageSize o = 2 ^ k) /\
  64 <= options.minSize o <= 2 ^ 30 /\
  64 <= options.maxSize o <= 2 ^ 30 /\
  options.minSize o < options.maxSize o /\
  options.minSize o <= options.averageSize o <= options.maxSize o /\
  options.maxSize o < options.bufSize o /\
  (options.disableNormalization o = false -> 0 <= options.normalization o <= 3) /\
  5 <= Z.log2 (options.averageSize o) - effective_normalization o /\
  Z.log2 (options.averageSize o) + effective_normalization o <= 25.

(** The fields of a chunker that never change after construction. *)
Definition same_config (c d : Chunker.t) : Prop :=
  Chunker.minSize c = Chunker.minSize d /\
  Chunker.maxSize c = Chunker.maxSize d /\
  Chunker.normalizeSize c = Chunker.normalizeSize d /\
  Chunker.maskSmall c = Chunker.maskSmall d /\
  Chunker.maskLarge c = Chunker.maskLarge d /\
  Chunker.maskSmallShifted c = Chunker.maskSmallShifted d /\
  Chunker.maskLargeShifted c = Chunker.maskLargeShifted d /\
  Chunker.gear c = Chunker.gear d /\
  Chunker.gearShifted c = Chunker.gearShifted d /\
  len (Chunker.buf c) = len (Chunker.buf d).

(** What [options.validate] leaves true of a chunker's sizes. *)
Record configured (c : Chunker.t) : Prop := {
  cfg_min : 64 <= Chunker.minSize c;
  cfg_avg : Chunker.minSize c <= Chunker.normalizeSize c;
  cfg_max : Chunker.minSize c < Chunker.maxSize c;
  cfg_buf : Chunker.maxSize c < len (Chunker.buf c) < 2 ^ 63
}.

(** The valid window [buf[bufCursor:bufEnd]]. *)
Definition window (c : Chunker.t) : list byte :=
  firstn (Z.to_nat (Chunker.bufEnd c - Chunker.bufCursor c))
    (skipn (Z.to_nat (Chunker.bufCursor c)) (Chunker.buf c)).

(** The bytes of the stream that [Next] has not returned yet. *)
Definition remaining (c : Chunker.t) : list byte :=
  window c ++ (if Chunker.readerEOF c then [] else io.pending (Chunker.reader c)).

(** The invariant of the buffer between calls. *)
Record buffered (c : Chunker.t) : Prop := {
  buf_cfg : configured c;
  buf_window : 0 <= Chunker.bufCursor c <= Chunker.bufEnd c
               /\ Chunker.bufEnd c <= len (Chunker.buf c);
  buf_full : Chunker.readerEOF c = false -> Chunker.bufEnd c = len (Chunker.buf c);
  buf_pos : 0 <= Chunker.streamPos c
            /\ Chunker.streamPos c + len (remaining c) < 2 ^ 63
}.

(** A reader none of whose calls fails: it delivers its bytes in pieces and
    then signals the end of the stream. *)
Definition delivers (r : io.Reader) : Prop :=
  forall n e, ~ In (io.Fail n e) (io.script r).

(** Offsets start at [pos] and every chunk starts where the previous ends. *)
Fixpoint contiguous (pos : Z) (cs : list Chunk) : Prop :=
  match cs with
  | [] => True
  | ch :: rest => Offset ch = pos /\ 0 < Length ch /\ contiguous (pos + Length ch) rest
  end.

(** Every chunk but the last has at least [lo] bytes, every chunk at most
    [hi], and none is empty. *)
Fixpoint bounded (lo hi : Z) (cs : list Chunk) : Prop :=
  match cs with
  | [] => True
  | ch :: rest =>
    0 < Length ch <= hi /\ (rest <> [] -> lo <= Length ch) /\ bounded lo hi rest
  end.

(** What a caller observes of a chunk besides its bytes. *)
Definition signature (ch : Chunk) : Z * Z * Z :=
  (Offset ch, Length ch, Fingerprint ch).

(** The cut that [Next] makes, as a function of the bytes that remain: the
    cut-point finder sees at most the next [maxSize] bytes. *)
Definition next_cut (c : Chunker.t) (rest : list byte) : option (Z * Z) :=
  Chunker.cut c (firstn (Z.to_nat (Chunker.maxSize c)) rest).

(** The chunks of a stream [rest] that starts at position [pos]: each chunk
    is cut from the front of what remains. *)
Inductive chunking (c : Chunker.t) : Z -> list byte -> list Chunk -> Prop :=
| chunking_done (pos : Z) : chunking c pos [] []
| chunking_cut (pos : Z) (rest : list byte) (l fp : Z) (cs : list Chunk) :
    rest <> [] ->
    next_cut c rest = Some (l, fp) ->
    0 < l <= len rest ->
    chunking c (pos + l) (skipn (Z.to_nat l) rest) cs ->
    chunking c pos rest (mkChunk pos l (firstn (Z.to_nat l) rest) fp :: cs).

(** A value of Go's [int]. *)
Definition is_int (x : Z) : Prop := - 2 ^ 63 <= x < 2 ^ 63.

(** The number of bytes that the read steps [Deliver n] of [ns] deliver
    when none of them is cut short. *)
Definition delivered (ns : list nat) : nat :=
  fold_right (fun n s => (S n + s)%nat) 0%nat ns.

(** ** Concrete inputs *)

Definition zeros (n : nat) : list byte := repeat x00 n.

(** The chunker of a successful call of [NewChunker]. *)
Definition chunker_of (r : option (option Chunker.t * option error)) : Chunker.t :=
  match r with
  | Some (Some c, _) => c
  | _ => Chunker.mk 0 0 0 0 0 0 0 [] [] (io.mkReader [] []) [] 0 0 0 false
  end.

(** A source of 200 bytes that delivers 7 bytes, then 1 byte, then all
    that is asked for. *)
Definition example_reader : io.Reader :=
  io.mkReader (zeros 64 ++ [xf8] ++ zeros 135) [io.Deliver 6; io.Deliver 0].

(** The same bytes, delivered in other pieces. *)
Definition example_reader' : io.Reader :=
  io.mkReader (zeros 64 ++ [xf8] ++ zeros 135) [io.Deliver 99; io.Deliver 2; io.Deliver 40].

Definition example_options : list Option := [WithMinSize 64; WithSeed 666].

Definition example_chunker : Chunker.t :=
  chunker_of (NewChunker example_reader 128 example_options).

(** A source of 10 bytes, fewer than [minSize]. *)
Definition short_reader : io.Reader :=
  io.mkReader (zeros 10) [io.Deliver 2].

(** A source of 10 bytes whose second call fails. *)
Definition failing_reader : io.Reader :=
  io.mkReader (zeros 10) [io.Deliver 2; io.Fail 0 (ReadError 7)].

(** A source of 10 bytes whose first call fails with [io.ErrUnexpectedEOF]. *)
Definition truncated_reader : io.Reader :=
  io.mkReader (zeros 10) [io.Fail 0 ErrUnexpectedEOF].

(** A source whose first call fills the 1024 bytes it is given and
    returns them with an error, which it repeats afterwards. *)
Definition filling_reader : io.Reader :=
  io.mkReader (zeros 1024) [io.Fail 1024 (ReadError 7); io.Fail 0 (ReadError 7)].

(** ** The gear hash and further specification-side definitions *)

(** The gear hash that the pair loop rolls two bytes at a time, here one
    byte at a time: [fp = (fp << 1) + table[b]]. *)
Definition gear_hash (table : list Z) (bytes : list byte) : Z :=
  fold_left (fun fp b => U64.add (U64.shl fp 1) (at_byte table b)) bytes 0.

(** The gear hash of the bytes [region[from .. i]]. *)
Definition hash_of (c : Chunker.t) (region : list byte) (from i : Z) : Z :=
  gear_hash (Chunker.gear c)
    (firstn (Z.to_nat (i + 1 - from)) (skipn (Z.to_nat from) region)).

(** The mask that tests the hash at byte [i]. *)
Definition mask_of (c : Chunker.t) (normalizeEven i : Z) : Z :=
  if i <? normalizeEven then Chunker.maskSmall c else Chunker.maskLarge c.

(** The hash at byte [i] has all the bits of its mask at zero. *)
Definition boundary_at (c : Chunker.t) (region : list byte) (from normalizeEven i : Z)
  : bool :=
  Z.land (hash_of c region from i) (mask_of c normalizeEven i) =? 0.

(** The number of one bits of a mask. *)
Fixpoint popcount_pos (p : positive) : Z :=
  match p with
  | xH => 1
  | xO q => popcount_pos q
  | xI q => 1 + popcount_pos q
  end.

Definition popcount (x : Z) : Z :=
  match x with
  | Zpos p => popcount_pos p
  | _ => 0
  end.

(** The sum of the lengths of chunks. *)
Definition total_length (cs : list Chunk) : Z :=
  fold_right (fun ch s => Length ch + s) 0 cs.

(** A chunk moved by [delta] bytes in the stream. *)
Definition shift_chunk (delta : Z) (ch : Chunk) : Chunk :=
  mkChunk (Offset ch + delta) (Length ch) (Data ch) (Fingerprint ch).

(** The parameters of the cut-point finder: the configuration but for the
    size of the buffer. *)
Definition same_parameters (c d : Chunker.t) : Prop :=
  Chunker.minSize c = Chunker.minSize d /\
  Chunker.maxSize c = Chunker.maxSize d /\
  Chunker.normalizeSize c = Chunker.normalizeSize d /\
  Chunker.maskSmall c = Chunker.maskSmall d /\
  Chunker.maskLarge c = Chunker.maskLarge d /\
  Chunker.maskSmallShifted c = Chunker.maskSmallShifted d /\
  Chunker.maskLargeShifted c = Chunker.maskLargeShifted d /\
  Chunker.gear c = Chunker.gear d /\
  Chunker.gearShifted c = Chunker.gearShifted d.

(** What a chunker's tables and masks need for the pair loop to compute
    the gear hash. *)
Record paired (c : Chunker.t) : Prop := {
  paired_gear : forall b, at_byte (Chunker.gearShifted c) b
                          = U64.shl (at_byte (Chunker.gear c) b) 1;
  paired_small : Chunker.maskSmallShifted c = U64.shl (Chunker.maskSmall c) 1
                 /\ 0 <= Chunker.maskSmall c < 2 ^ 63;
  paired_large : Chunker.maskLargeShifted c = U64.shl (Chunker.maskLarge c) 1
                 /\ 0 <= Chunker.maskLarge c < 2 ^ 63
}.

(** The chunks and the final chunker of a finished loop. *)
Definition drained (r : option (list Chunk * option error * Chunker.t)) : list Chunk :=
  match r with
  | Some (cs, _, _) => cs
  | None => []
  end.

Definition drained_chunker (r : option (list Chunk * option error * Chunker.t))
  : Chunker.t :=
  match r with
  | Some (_, _, c) => c
  | None => chunker_of None
  end.

(** Two streams that end with the same 101 bytes, after 64 and after 128
    other bytes. *)
Definition common_tail : list byte := [xf8] ++ zeros 100.

Definition stream1 : io.Reader := io.mkReader (zeros 64 ++ common_tail) [].

Definition stream2 : io.Reader :=
  io.mkReader ((zeros 64 ++ [xf8] ++ zeros 63) ++ common_tail) [io.Deliver 9].

(** The chunker after one call of [Next]. *)
Definition after_Next (c : Chunker.t) : Chunker.t :=
  match Chunker.Next c with
  | Some (_, _, c') => c'
  | None => c
  end.

(** A source of 2000 bytes. *)
Definition long_reader : io.Reader := io.mkReader (zeros 2000) [io.Deliver 99].

(** The options that a caller can make: the package exports these five
    functions and no other way to build an [Option]. *)
Inductive setting : Type :=
| MinSize (size : Z)
| MaxSize (size : Z)
| Normalization (level : Z)
| Seed (seed : Z)
| BufferSize (size : Z).

Definition option_of (s : setting) : Option :=
  match s with
  | MinSize size => WithMinSize size
  | MaxSize size => WithMaxSize size
  | Normalization level => WithNormalization level
  | Seed seed => WithSeed seed
  | BufferSize size => WithBufferSize size
  end.

Definition minSize_of (s : setting) : option Z :=
  match s with MinSize size => Some size | _ => None end.
Definition maxSize_of (s : setting) : option Z :=
  match s with MaxSize size => Some size | _ => None end.
Definition level_of (s : setting) : option Z :=
  match s with Normalization level => Some level | _ => None end.
Definition seed_of (s : setting) : option Z :=
  match s with Seed seed => Some seed | _ => None end.
Definition bufSize_of (s : setting) : option Z :=
  match s with BufferSize size => Some size | _ => None end.

(** The value of the last setting of a kind in a list, if there is one. *)
Fixpoint last_setting (pick : setting -> option Z) (ss : list setting) : option Z :=
  match ss with
  | [] => None
  | s :: rest =>
    match last_setting pick rest with
    | Some v => Some v
    | None => pick s
    end
  end.

(** A size that is not given, or given as 0, is the default size. *)
Definition size_or (given : option Z) (default : Z) : Z :=
  match given with
  | Some size => if size =? 0 then default else size
  | None => default
  end.

(** * Properties *)

(** ** Machine arithmetic *)

Lemma shl_lxor (g s : Z) :
  Z.lxor (U64.shl g 1) (U64.shl s 1) = U64.shl (Z.lxor g s) 1.
Proof.
  unfold U64.shl, U64.wrap, U64.modulus.
  rewrite <- !Z.land_ones by lia.
  rewrite Z.shiftl_lxor.
  apply Z.bits_inj'. intros n Hn.
  rewrite Z.land_spec, !Z.lxor_spec, !Z.land_spec.
  destruct (Z.testbit (Z.shiftl g 1) n), (Z.testbit (Z.shiftl s 1) n),
    (Z.testbit (Z.ones 64) n); reflexivity.
Qed.

Lemma shl_mul (x n : Z) : 0 <= n -> U64.shl x n = (x * 2 ^ n) mod 2 ^ 64.
Proof.
  intros Hn. unfold U64.shl, U64.wrap, U64.modulus.
  now rewrite Z.shiftl_mul_pow2.
Qed.

Lemma add_shl2 (fp x : Z) :
  U64.add (U64.shl fp 2) x = (fp * 4 + x) mod 2 ^ 64.
Proof.
  rewrite shl_mul by lia. unfold U64.add, U64.wrap, U64.modulus.
  rewrite Zplus_mod_idemp_l. reflexivity.
Qed.

Lemma two_bytes_at_once (fp ga gb : Z) :
  U64.add (U64.add (U64.shl fp 2) (U64.shl ga 1)) gb
  = U64.add (U64.shl (U64.add (U64.shl fp 1) ga) 1) gb.
Proof.
  rewrite !shl_mul by lia. unfold U64.add, U64.wrap, U64.modulus.
  rewrite <- (Zplus_mod (fp * 2 ^ 2) (ga * 2 ^ 1)).
  rewrite (Zplus_mod_idemp_l (fp * 2 ^ 2 + ga * 2 ^ 1)).
  rewrite (Zplus_mod_idemp_l (fp * 2 ^ 1) ga).
  rewrite (Zmult_mod_idemp_l (fp * 2 ^ 1 + ga)).
  rewrite (Zplus_mod_idemp_l ((fp * 2 ^ 1 + ga) * 2 ^ 1)).
  f_equal. ring.
Qed.

Lemma andnot_1 (x : Z) : GoInt.andnot x 1 = round_even x.
Proof.
  unfold GoInt.andnot, round_even.
  apply Z.bits_inj'. intros n Hn.
  rewrite Z.ldiff_spec.
  destruct (Z.eq_dec n 0) as [->|Hnz].
  - rewrite Z.testbit_even_0. change (Z.testbit 1 0) with true.
    now rewrite andb_false_r.
  - rewrite (Z.bits_above_log2 1 n) by (simpl; lia).
    rewrite andb_true_r.
    replace n with (Z.succ (n - 1)) by lia.
    rewrite Z.testbit_even_succ by lia.
    rewrite Z.div2_bits by lia.
    reflexivity.
Qed.

Lemma round_even_bounds (x : Z) : x - 1 <= round_even x <= x.
Proof. unfold round_even. pose proof (Z.mod_pos_bound x 2). pose proof (Z.div_mod x 2). lia. Qed.

Lemma round_even_mono (x y : Z) : x <= y -> round_even x <= round_even y.
Proof.
  intros H. unfold round_even.
  pose proof (Z.div_le_mono x y 2). lia.
Qed.

Lemma round_even_of_even (x : Z) : x mod 2 = 0 -> round_even x = x.
Proof. unfold round_even. intros H. pose proof (Z.div_mod x 2). lia. Qed.

(** ** Slices and indices *)

Lemma len_nonneg (b : list byte) : 0 <= len b.
Proof. unfold len. lia. Qed.

Lemma len_app (a b : list byte) : len (a ++ b) = len a + len b.
Proof. unfold len. rewrite length_app. lia. Qed.

Lemma index_byte_at (data : list byte) (i : Z) :
  0 <= i < len data -> index data i = Some (byte_at data i).
Proof.
  intros H. unfold index, byte_at, len in *.
  replace (0 <=? i) with true by (symmetry; apply Z.leb_le; lia).
  replace (i <? Z.of_nat (List.length data)) with true by (symmetry; apply Z.ltb_lt; lia).
  simpl. apply nth_error_nth'. lia.
Qed.

Lemma slice_ok (b : list byte) (lo hi : Z) :
  0 <= lo <= hi -> hi <= len b ->
  slice b lo hi = Some (firstn (Z.to_nat (hi - lo)) (skipn (Z.to_nat lo) b)).
Proof.
  intros H1 H2. unfold slice.
  replace (0 <=? lo) with true by (symmetry; apply Z.leb_le; lia).
  replace (lo <=? hi) with true by (symmetry; apply Z.leb_le; lia).
  replace (hi <=? len b) with true by (symmetry; apply Z.leb_le; lia).
  reflexivity.
Qed.

(** ** The cut-point finder and its reference algorithm *)

Lemma pair_positions_succ (i : Z) (n : nat) :
  pair_positions i (S n) = i :: pair_positions (i + 2) n.
Proof.
  unfold pair_positions. cbn [seq]. rewrite <- seq_shift. cbn [map]. rewrite map_map.
  f_equal; [lia|]. apply map_ext. intros k. lia.
Qed.

Lemma pair_positions_app (n1 n2 : nat) : forall i,
  pair_positions i (n1 + n2)
  = pair_positions i n1 ++ pair_positions (i + 2 * Z.of_nat n1) n2.
Proof.
  induction n1 as [|n1 IH]; intros i.
  - replace (i + 2 * Z.of_nat 0) with i by lia. reflexivity.
  - change (S n1 + n2)%nat with (S (n1 + n2)).
    rewrite !pair_positions_succ, IH.
    replace (i + 2 * Z.of_nat (S n1)) with (i + 2 + 2 * Z.of_nat n1) by lia.
    reflexivity.
Qed.

Lemma in_pair_positions (p i : Z) (n : nat) :
  In p (pair_positions i n) ->
  exists k, p = i + 2 * k /\ 0 <= k < Z.of_nat n.
Proof.
  unfold pair_positions. intros H. apply in_map_iff in H.
  destruct H as [k [<- Hk]]. apply in_seq in Hk.
  exists (Z.of_nat k). lia.
Qed.

Lemma scan_pairs_app (c : Chunker.t) (region : list byte) (ne : Z) (p1 p2 : list Z) :
  forall fp,
  scan_pairs c region ne (p1 ++ p2) fp
  = match scan_pairs c region ne p1 fp with
    | (Some l, f) => (Some l, f)
    | (None, f) => scan_pairs c region ne p2 f
    end.
Proof.
  induction p1 as [|i p1 IH]; intros fp; simpl; [reflexivity|].
  destruct (Z.land _ _ =? 0); [reflexivity|].
  destruct (Z.land _ _ =? 0); [reflexivity|].
  apply IH.
Qed.

Lemma cut_loop_eq gs g ms m data stop fuel i fp :
  Chunker.cut_loop gs g ms m data stop fuel i fp
  = if i <? stop then
      match fuel with
      | O => None
      | S fuel' =>
        b0 <- index data i ;;
        let fingerprint := U64.add (U64.shl fp 2) (at_byte gs b0) in
        if Z.land fingerprint ms =? 0 then Some (Returned i fingerprint) else
        b1 <- index data (i + 1) ;;
        let fingerprint := U64.add fingerprint (at_byte g b1) in
        if Z.land fingerprint m =? 0 then Some (Returned (i + 1) fingerprint) else
        Chunker.cut_loop gs g ms m data stop fuel' (i + 2) fingerprint
      end
    else Some (Finished fp).
Proof. destruct fuel; reflexivity. Qed.

Lemma cut_loop_scan_pairs (c : Chunker.t) (data : list byte) (ne : Z) (small : bool)
  (n : nat) : forall (fuel : nat) (i fp : Z),
  0 <= i -> i + 2 * Z.of_nat n <= len data -> (n <= fuel)%nat ->
  (forall p, In p (pair_positions i n) -> (p <? ne) = small) ->
  Chunker.cut_loop (Chunker.gearShifted c) (Chunker.gear c)
    (if small then Chunker.maskSmallShifted c else Chunker.maskLargeShifted c)
    (if small then Chunker.maskSmall c else Chunker.maskLarge c)
    data (i + 2 * Z.of_nat n) fuel i fp
  = Some (scan_of (scan_pairs c data ne (pair_positions i n) fp)).
Proof.
  induction n as [|n IH]; intros fuel i fp Hi Hlen Hfuel Hmask; rewrite cut_loop_eq.
  - replace (i <? i + 2 * Z.of_nat 0) with false by (symmetry; apply Z.ltb_ge; lia).
    reflexivity.
  - replace (i <? i + 2 * Z.of_nat (S n)) with true by (symmetry; apply Z.ltb_lt; lia).
    destruct fuel as [|fuel]; [lia|].
    rewrite pair_positions_succ in *.
    rewrite !index_byte_at by lia.
    simpl scan_pairs. rewrite (Hmask i) by (left; reflexivity).
    cbv zeta. rewrite add_shl2.
    destruct (Z.land _ _ =? 0); [reflexivity|].
    unfold U64.add at 1, U64.wrap, U64.modulus.
    destruct (Z.land _ _ =? 0); [reflexivity|].
    replace (i + 2 * Z.of_nat (S n)) with (i + 2 + 2 * Z.of_nat n) by lia.
    apply IH; try lia.
    intros p Hp. apply Hmask. right. exact Hp.
Qed.

Lemma cut_short (c : Chunker.t) (data : list byte) :
  len data <= Chunker.minSize c -> Chunker.cut c data = Some (len data, 0).
Proof.
  intros H. unfold Chunker.cut.
  replace (len data <=? Chunker.minSize c) with true by (symmetry; apply Z.leb_le; lia).
  reflexivity.
Qed.

Lemma cut_reference_correct (c : Chunker.t) (data : list byte) :
  0 <= Chunker.minSize c <= Chunker.normalizeSize c ->
  Chunker.minSize c < Chunker.maxSize c ->
  Chunker.minSize c < len data ->
  Chunker.cut c data
  = Some (cut_reference c (Chunker.minSize c) (Chunker.normalizeSize c)
            (Chunker.maxSize c) data).
Proof.
  intros Hmin Hmax Hlen. unfold Chunker.cut, cut_reference.
  replace (len data <=? Chunker.minSize c) with false by (symmetry; apply Z.leb_gt; lia).
  cbv zeta.
  replace (if len data >? Chunker.maxSize c then Chunker.maxSize c else len data)
    with (Z.min (len data) (Chunker.maxSize c))
    by (rewrite Z.gtb_ltb; destruct (Z.ltb_spec (Chunker.maxSize c) (len data)); lia).
  set (M := Z.min (len data) (Chunker.maxSize c)).
  replace (if M <? Chunker.normalizeSize c then M else Chunker.normalizeSize c)
    with (Z.min M (Chunker.normalizeSize c))
    by (destruct (Z.ltb_spec M (Chunker.normalizeSize c)); lia).
  set (N := Z.min M (Chunker.normalizeSize c)).
  assert (HM : Chunker.minSize c < M <= len data) by (unfold M; lia).
  assert (HN : Chunker.minSize c <= N <= M) by (unfold N; lia).
  rewrite index_byte_at by lia.
  rewrite !andnot_1.
  pose proof (round_even_mono _ _ (proj1 HN)) as H1.
  pose proof (round_even_mono _ _ (proj2 HN)) as H2.
  pose proof (round_even_bounds M) as HbM.
  pose proof (round_even_bounds (Chunker.minSize c)) as Hbm.
  assert (Hm0 : 0 <= round_even (Chunker.minSize c))
    by (unfold round_even; pose proof (Z.div_pos (Chunker.minSize c) 2); lia).
  unfold round_even in *.
  set (a := Chunker.minSize c / 2) in *.
  set (b := N / 2) in *.
  set (m := M / 2) in *.
  replace ((2 * m - 2 * a) / 2) with (m - a)
    by (replace (2 * m - 2 * a) with ((m - a) * 2) by ring; now rewrite Z.div_mul).
  replace (Z.to_nat (m - a)) with (Z.to_nat (b - a) + Z.to_nat (m - b))%nat by lia.
  rewrite pair_positions_app, scan_pairs_app.
  replace (2 * a + 2 * Z.of_nat (Z.to_nat (b - a))) with (2 * b) by lia.
  pose proof (cut_loop_scan_pairs c data (2 * b) true (Z.to_nat (b - a))
                (S (List.length data)) (2 * a) 0) as L1.
  replace (2 * a + 2 * Z.of_nat (Z.to_nat (b - a))) with (2 * b) in L1 by lia.
  unfold len in *.
  rewrite L1; try lia.
  2:{ intros p Hp. apply in_pair_positions in Hp. destruct Hp as [k [-> Hk]].
      apply Z.ltb_lt. lia. }
  destruct (scan_pairs c data (2 * b) (pair_positions (2 * a) (Z.to_nat (b - a))) 0)
    as [[l|] f]; simpl scan_of; cbv iota; [reflexivity|].
  pose proof (cut_loop_scan_pairs c data (2 * b) false (Z.to_nat (m - b))
                (S (List.length data)) (2 * b) f) as L2.
  replace (2 * b + 2 * Z.of_nat (Z.to_nat (m - b))) with (2 * m) in L2 by lia.
  unfold len in *.
  rewrite L2; try lia.
  2:{ intros p Hp. apply in_pair_positions in Hp. destruct Hp as [k [-> Hk]].
      apply Z.ltb_ge. lia. }
  destruct (scan_pairs c data (2 * b) (pair_positions (2 * b) (Z.to_nat (m - b))) f)
    as [[l|] f']; reflexivity.
Qed.

Lemma cut_same_config (c d : Chunker.t) (data : list byte) :
  same_config c d -> Chunker.cut c data = Chunker.cut d data.
Proof.
  intros (E1 & E2 & E3 & E4 & E5 & E6 & E7 & E8 & E9 & _).
  unfold Chunker.cut. rewrite E1, E2, E3, E4, E5, E6, E7, E8, E9. reflexivity.
Qed.

Lemma scan_pairs_some (c : Chunker.t) (region : list byte) (ne : Z) (ps : list Z) :
  forall fp l f,
  scan_pairs c region ne ps fp = (Some l, f) ->
  exists p, In p ps /\ (l = p \/ l = p + 1).
Proof.
  induction ps as [|i ps IH]; intros fp l f H; simpl in H; [discriminate|].
  destruct (Z.land _ _ =? 0).
  { inversion H; subst. exists l. split; [now left | now left]. }
  destruct (Z.land _ _ =? 0).
  { inversion H; subst. exists i. split; [now left | now right]. }
  destruct (IH _ _ _ H) as (p & Hp & Hl). exists p. split; [now right | exact Hl].
Qed.

Lemma scan_pairs_ext (c : Chunker.t) (r1 r2 : list byte) (ne : Z) (ps : list Z) :
  (forall p, In p ps ->
     byte_at r1 p = byte_at r2 p /\ byte_at r1 (p + 1) = byte_at r2 (p + 1)) ->
  forall fp, scan_pairs c r1 ne ps fp = scan_pairs c r2 ne ps fp.
Proof.
  induction ps as [|i ps IH]; intros Hb fp; simpl; [reflexivity|].
  destruct (Hb i (or_introl eq_refl)) as [-> ->].
  destruct (Z.land _ _ =? 0); [reflexivity|].
  destruct (Z.land _ _ =? 0); [reflexivity|].
  apply IH. intros p Hp. apply Hb. now right.
Qed.

Lemma cut_reference_bounds (c : Chunker.t) (mn avg mx : Z) (region : list byte)
  (l f : Z) :
  0 <= mn -> mn < mx -> mn < len region ->
  cut_reference c mn avg mx region = (l, f) ->
  round_even mn <= l <= Z.min (len region) mx.
Proof.
  intros Hmn Hmx Hlen. unfold cut_reference.
  set (M := Z.min (len region) mx).
  assert (HM : mn < M) by (unfold M; lia).
  pose proof (round_even_bounds M) as HbM.
  pose proof (round_even_bounds mn) as Hbm.
  pose proof (round_even_mono mn M ltac:(lia)) as Hmono.
  destruct (scan_pairs _ _ _ _ _) as [[l'|] f'] eqn:E; intros H; inversion H; subst.
  - apply scan_pairs_some in E. destruct E as (p & Hp & Hl).
    apply in_pair_positions in Hp. destruct Hp as (k & -> & Hk).
    unfold round_even in *.
    set (a := mn / 2) in *. set (m := M / 2) in *.
    replace ((2 * m - 2 * a) / 2) with (m - a) in Hk
      by (replace (2 * m - 2 * a) with ((m - a) * 2) by ring; now rewrite Z.div_mul).
    lia.
  - lia.
Qed.

Lemma byte_at_firstn (n : nat) (data : list byte) (i : Z) :
  0 <= i < Z.of_nat n -> byte_at (firstn n data) i = byte_at data i.
Proof.
  intros H. unfold byte_at. rewrite nth_firstn.
  replace (Z.to_nat i <? n)%nat with true by (symmetry; apply Nat.ltb_lt; lia).
  reflexivity.
Qed.

Lemma len_firstn (n : Z) (data : list byte) :
  0 <= n -> len (firstn (Z.to_nat n) data) = Z.min n (len data).
Proof. intros H. unfold len. rewrite length_firstn. lia. Qed.

Lemma len_skipn (n : Z) (data : list byte) :
  0 <= n <= len data -> len (skipn (Z.to_nat n) data) = len data - n.
Proof. intros H. unfold len in *. rewrite length_skipn. lia. Qed.

(** [cut] looks at no byte beyond [maxSize]. *)
Lemma cut_prefix (c : Chunker.t) (data : list byte) :
  0 <= Chunker.minSize c <= Chunker.normalizeSize c ->
  Chunker.minSize c < Chunker.maxSize c ->
  Chunker.maxSize c <= len data ->
  Chunker.cut c (firstn (Z.to_nat (Chunker.maxSize c)) data) = Chunker.cut c data.
Proof.
  intros Hmin Hmax Hlen.
  assert (Hl : len (firstn (Z.to_nat (Chunker.maxSize c)) data) = Chunker.maxSize c)
    by (rewrite len_firstn; lia).
  rewrite !cut_reference_correct by lia.
  f_equal. unfold cut_reference. rewrite Hl.
  replace (Z.min (len data) (Chunker.maxSize c)) with (Chunker.maxSize c) by lia.
  replace (Z.min (Chunker.maxSize c) (Chunker.maxSize c)) with (Chunker.maxSize c) by lia.
  rewrite (scan_pairs_ext c (firstn (Z.to_nat (Chunker.maxSize c)) data) data);
    [reflexivity|].
  intros p Hp. apply in_pair_positions in Hp. destruct Hp as (k & -> & Hk).
  pose proof (round_even_bounds (Chunker.maxSize c)) as HbM.
  pose proof (round_even_bounds (Chunker.minSize c)) as Hbm.
  pose proof (round_even_mono (Chunker.minSize c) (Chunker.maxSize c) ltac:(lia)) as Hmono.
  assert (Hm0 : 0 <= round_even (Chunker.minSize c))
    by (unfold round_even; pose proof (Z.div_pos (Chunker.minSize c) 2); lia).
  unfold round_even in *.
  set (a := Chunker.minSize c / 2) in *. set (m := Chunker.maxSize c / 2) in *.
  replace ((2 * m - 2 * a) / 2) with (m - a) in Hk
    by (replace (2 * m - 2 * a) with ((m - a) * 2) by ring; now rewrite Z.div_mul).
  split; apply byte_at_firstn; lia.
Qed.

Lemma next_cut_same_config (c d : Chunker.t) (rest : list byte) :
  same_config c d -> next_cut c rest = next_cut d rest.
Proof.
  intros H. unfold next_cut. rewrite (cut_same_config c d) by exact H.
  destruct H as (_ & -> & _). reflexivity.
Qed.

Lemma next_cut_spec (c : Chunker.t) (rest : list byte) :
  configured c ->
  exists l fp,
    next_cut c rest = Some (l, fp) /\
    ((len rest <= Chunker.minSize c /\ l = len rest /\ fp = 0) \/
     (Chunker.minSize c < len rest /\
      round_even (Chunker.minSize c) <= l <= Z.min (len rest) (Chunker.maxSize c))).
Proof.
  intros [Hmin Havg Hmax Hbuf]. unfold next_cut.
  assert (Hl : len (firstn (Z.to_nat (Chunker.maxSize c)) rest)
               = Z.min (Chunker.maxSize c) (len rest)) by (apply len_firstn; lia).
  destruct (Z_le_gt_dec (len rest) (Chunker.minSize c)) as [Hs|Hs].
  - exists (len rest), 0. split; [|left; lia].
    rewrite cut_short by lia. do 2 f_equal. lia.
  - rewrite cut_reference_correct by lia.
    destruct (cut_reference _ _ _ _ _) as [l f] eqn:E.
    exists l, f. split; [reflexivity|right].
    apply cut_reference_bounds in E; lia.
Qed.

(** ** Readers *)

Lemma Read_spec (r : io.Reader) (k : nat) bs err r' :
  (0 < k)%nat ->
  io.Read r k = (bs, err, r') ->
  bs ++ io.pending r' = io.pending r /\
  (List.length bs <= k)%nat /\
  (err = None -> bs <> []) /\
  (forall e, err = Some e ->
     (e = EOF /\ bs = [] /\ io.pending r' = [])
     \/ exists n, In (io.Fail n e) (io.script r)) /\
  (forall n e, In (io.Fail n e) (io.script r') -> In (io.Fail n e) (io.script r)).
Proof.
  intros Hk. unfold io.Read. destruct k as [|k]; [lia|].
  destruct r as [p s]. cbn [io.pending io.script].
  destruct s as [|[n|n e0] rest].
  - destruct p as [|b p]; intros H; inversion H; subst; cbn [io.pending io.script].
    + split; [reflexivity|]. split; [simpl; lia|]. split; [discriminate|].
      split; [|tauto].
      intros e He. inversion He; subst. left. tauto.
    + split; [apply (firstn_skipn (S k) (b :: p))|].
      split; [apply (firstn_le_length (S k) (b :: p))|].
      split; [intros _; simpl; discriminate|]. split; [discriminate|tauto].
  - destruct p as [|b p]; intros H; inversion H; subst; cbn [io.pending io.script].
    + split; [reflexivity|]. split; [simpl; lia|]. split; [discriminate|].
      split; [|intros m e He; right; exact He].
      intros e He. inversion He; subst. left. tauto.
    + split; [apply (firstn_skipn (Nat.min (S k) (S n)) (b :: p))|].
      split; [etransitivity;
              [apply (firstn_le_length (Nat.min (S k) (S n)) (b :: p))|]; lia|].
      split; [intros _; simpl; discriminate|].
      split; [discriminate|intros m e He; right; exact He].
  - cbv zeta. remember (Nat.min (S k) n) as m eqn:Em.
    intros H. injection H as <- <- <-. cbn [io.pending io.script].
    split; [apply firstn_skipn|].
    split; [rewrite length_firstn; lia|].
    split; [discriminate|].
    split; [|intros n' e He; right; exact He].
    intros e He. inversion He; subst. right. exists n. now left.
Qed.

Lemma ReadAtLeast_loop_spec (min : nat) : forall (fuel : nat) (r : io.Reader) (got : list byte),
  (min - List.length got < fuel)%nat ->
  exists bs err r',
    io.ReadAtLeast_loop fuel r got min = Some (got ++ bs, err, r') /\
    bs ++ io.pending r' = io.pending r /\
    (List.length got <= min -> List.length (got ++ bs) <= min)%nat /\
    (err = None -> (min <= List.length (got ++ bs))%nat) /\
    (forall e, err = Some e ->
       (e = EOF /\ io.pending r' = [] /\ (List.length (got ++ bs) < min)%nat)
       \/ exists n, In (io.Fail n e) (io.script r)) /\
    (forall n e, In (io.Fail n e) (io.script r') -> In (io.Fail n e) (io.script r)).
Proof.
  induction fuel as [|fuel IH]; intros r got Hfuel; [lia|].
  cbn [io.ReadAtLeast_loop].
  destruct (Nat.ltb_spec (List.length got) min) as [Hlt|Hge].
  - destruct (io.Read r (min - List.length got)) as [[bs err] r1] eqn:ER.
    apply Read_spec in ER; [|lia].
    destruct ER as (Hp & Hk & Hne & Herr & Hs).
    destruct err as [e|].
    + exists bs, (Some e), r1.
      split; [reflexivity|]. split; [exact Hp|].
      split; [intros _; rewrite length_app; lia|].
      split; [discriminate|]. split; [|exact Hs].
      intros e' He'. inversion He'; subst e'.
      destruct (Herr e eq_refl) as [(-> & -> & Hnil)|Hin]; [left|right; exact Hin].
      rewrite app_nil_r. tauto.
    + assert (Hbs : (0 < List.length bs)%nat).
      { destruct bs; [exfalso; now apply Hne|simpl; lia]. }
      destruct (IH r1 (got ++ bs)) as (bs' & err' & r2 & E & Hp' & Hle & Hnone & Herr' & Hs').
      { rewrite length_app. lia. }
      exists (bs ++ bs'), err', r2. rewrite app_assoc.
      split; [exact E|]. split; [rewrite <- app_assoc, Hp'; exact Hp|].
      split; [intros _; apply Hle; rewrite length_app; lia|].
      split; [exact Hnone|].
      split.
      * intros e He. destruct (Herr' e He) as [Hc|[n Hc]].
        -- left. exact Hc.
        -- right. exists n. apply Hs. exact Hc.
      * intros n e He. apply Hs, Hs'. exact He.
  - exists [], None, r. rewrite app_nil_r.
    split; [reflexivity|]. split; [reflexivity|]. split; [tauto|].
    split; [intros _; exact Hge|]. split; [discriminate|tauto].
Qed.

(** [io.ReadFull] returns, whatever the reader does. *)
Lemma ReadFull_spec (r : io.Reader) (size : nat) :
  exists bs err r',
    io.ReadFull r size = Some (bs, err, r') /\
    bs ++ io.pending r' = io.pending r /\
    (List.length bs <= size)%nat /\
    (err = None -> List.length bs = size) /\
    (forall e, err = Some e ->
       (List.length bs < size)%nat /\
       (((e = EOF \/ e = ErrUnexpectedEOF) /\
         (io.pending r' = [] \/ exists n, In (io.Fail n EOF) (io.script r)))
        \/ (e <> EOF /\ exists n, In (io.Fail n e) (io.script r)))) /\
    (forall n e, In (io.Fail n e) (io.script r') -> In (io.Fail n e) (io.script r)).
Proof.
  unfold io.ReadFull.
  destruct (ReadAtLeast_loop_spec size (S size) r []) as
    (bs & err & r' & E & Hp & Hle & Hnone & Herr & Hs); [simpl; lia|].
  rewrite E. cbn [app] in *.
  specialize (Hle ltac:(simpl; lia)).
  eexists bs, _, r'. split; [reflexivity|].
  split; [exact Hp|]. split; [exact Hle|].
  destruct (Nat.leb_spec size (List.length bs)) as [Hfull|Hshort].
  - split; [intros _; lia|]. split; [discriminate|exact Hs].
  - destruct err as [e|]; [|specialize (Hnone eq_refl); lia].
    pose proof (Herr e eq_refl) as Hcase.
    split; [|split; [|exact Hs]].
    + destruct ((0 <? List.length bs)%nat && match e with EOF => true | _ => false end);
        discriminate.
    + intros e' He'. split; [exact Hshort|].
      destruct (error_eqb e EOF) eqn:Ee.
      * destruct e; try discriminate.
        left. split.
        -- destruct (0 <? List.length bs)%nat; inversion He'; auto.
        -- destruct Hcase as [(_ & Hc & _)|Hc]; auto.
      * assert (He : Some e = Some e').
        { rewrite <- He'. destruct e; try discriminate;
            now rewrite andb_false_r. }
        inversion He; subst e'.
        right. split; [intros ->; discriminate|].
        destruct Hcase as [(-> & _)|Hc]; [discriminate|exact Hc].
Qed.

(** With a reader that does not fail, [io.ReadFull] returns the next
    [size] bytes of the stream, or all that is left of it. *)
Lemma ReadFull_delivers (r : io.Reader) (size : nat) :
  delivers r ->
  exists err r',
    io.ReadFull r size = Some (firstn size (io.pending r), err, r') /\
    io.pending r' = skipn size (io.pending r) /\
    delivers r' /\
    ((err = None /\ (size <= List.length (io.pending r))%nat) \/
     ((err = Some EOF \/ err = Some ErrUnexpectedEOF) /\
      (List.length (io.pending r) < size)%nat)).
Proof.
  intros Hd.
  destruct (ReadFull_spec r size) as (bs & err & r' & E & Hp & Hle & Hnone & Herr & Hs).
  assert (Hd' : delivers r') by (intros n e He; apply (Hd n e), Hs, He).
  destruct err as [e|].
  - destruct (Herr e eq_refl) as [Hlt [[He [Hnil|[n Hf]]]|[_ [n Hf]]]];
      try (exfalso; eapply Hd; eassumption).
    rewrite Hnil, app_nil_r in Hp. subst bs.
    exists (Some e), r'. rewrite firstn_all2 by lia. rewrite skipn_all2 by lia.
    split; [exact E|]. split; [exact Hnil|]. split; [exact Hd'|].
    right. split; [destruct He; subst; tauto|lia].
  - specialize (Hnone eq_refl).
    exists None, r'.
    assert (Hb : bs = firstn size (io.pending r)).
    { rewrite <- Hp, <- Hnone. rewrite firstn_app, firstn_all, Nat.sub_diag. cbn.
      now rewrite app_nil_r. }
    assert (Hr : io.pending r' = skipn size (io.pending r)).
    { rewrite <- Hp, <- Hnone. rewrite skipn_app, skipn_all, Nat.sub_diag. reflexivity. }
    rewrite <- Hb. split; [exact E|]. split; [exact Hr|]. split; [exact Hd'|].
    left. split; [reflexivity|]. rewrite <- Hp, length_app. lia.
Qed.

(** ** The buffer *)

Ltac fields :=
  cbn [Chunker.minSize Chunker.maxSize Chunker.normalizeSize Chunker.maskSmall
       Chunker.maskLarge Chunker.maskSmallShifted Chunker.maskLargeShifted
       Chunker.gear Chunker.gearShifted Chunker.reader Chunker.buf Chunker.bufCursor
       Chunker.bufEnd Chunker.streamPos Chunker.readerEOF
       Chunker.set_reader Chunker.set_buf Chunker.set_bufCursor Chunker.set_bufEnd
       Chunker.set_streamPos Chunker.set_readerEOF] in *.

Lemma wrap_id (x : Z) : - 2 ^ 63 <= x < 2 ^ 63 -> GoInt.wrap x = x.
Proof. intros H. unfold GoInt.wrap. rewrite Z.mod_small; lia. Qed.

Lemma overwrite_len (b : list byte) (lo : Z) (src : list byte) :
  0 <= lo -> lo + len src <= len b -> len (overwrite b lo src) = len b.
Proof.
  intros H0 H. unfold overwrite, len in *.
  rewrite !length_app, length_firstn, length_skipn. lia.
Qed.

Lemma overwrite_window (b : list byte) (lo : Z) (src : list byte) :
  0 <= lo -> lo + len src <= len b ->
  firstn (Z.to_nat (lo + len src)) (overwrite b lo src) = firstn (Z.to_nat lo) b ++ src.
Proof.
  intros H0 H. unfold overwrite, len in *.
  rewrite app_assoc.
  replace (Z.to_nat (lo + Z.of_nat (List.length src)))
    with (List.length (firstn (Z.to_nat lo) b ++ src) + 0)%nat
    by (rewrite length_app, length_firstn; lia).
  rewrite firstn_app_2, firstn_0, app_nil_r. reflexivity.
Qed.

Lemma len_window (c : Chunker.t) :
  0 <= Chunker.bufCursor c <= Chunker.bufEnd c ->
  Chunker.bufEnd c <= len (Chunker.buf c) ->
  len (window c) = Chunker.bufEnd c - Chunker.bufCursor c.
Proof.
  intros H1 H2. unfold window, len in *. rewrite length_firstn, length_skipn. lia.
Qed.

Lemma same_config_refl (c : Chunker.t) : same_config c c.
Proof. unfold same_config. tauto. Qed.

Lemma same_config_trans (c d e : Chunker.t) :
  same_config c d -> same_config d e -> same_config c e.
Proof. unfold same_config. intuition congruence. Qed.

Lemma same_config_sym (c d : Chunker.t) : same_config c d -> same_config d c.
Proof. unfold same_config. intuition congruence. Qed.

(** [fillBuffer] on a reader that does not fail: afterwards the window
    holds at least [maxSize] bytes, or all the bytes that remain. *)
Lemma fillBuffer_delivers (c : Chunker.t) :
  buffered c -> delivers (Chunker.reader c) ->
  exists c',
    Chunker.fillBuffer c = Some (None, c') /\
    buffered c' /\ same_config c c' /\ delivers (Chunker.reader c') /\
    remaining c' = remaining c /\
    Chunker.streamPos c' = Chunker.streamPos c /\
    (Chunker.bufCursor c' = 0 \/ Chunker.maxSize c <= len (window c')) /\
    (Chunker.maxSize c <= len (window c') \/ window c' = remaining c).
Proof.
  intros [[Hmin Havg Hmax Hbuf] [Hcur Hend] Hfull Hpos] Hd.
  pose proof (len_window c Hcur Hend) as HW.
  unfold Chunker.fillBuffer, GoInt.sub, GoInt.add.
  rewrite (wrap_id (Chunker.bufEnd c - Chunker.bufCursor c)) by lia.
  destruct (Z.geb_spec (Chunker.bufEnd c - Chunker.bufCursor c) (Chunker.maxSize c))
    as [Hge|Hlt].
  { exists c. split; [reflexivity|]. split; [constructor; [constructor|..]; tauto|].
    split; [apply same_config_refl|]. split; [exact Hd|].
    split; [reflexivity|]. split; [reflexivity|]. split; [right|left]; lia. }
  set (avail := Chunker.bufEnd c - Chunker.bufCursor c) in *.
  rewrite (slice_ok (Chunker.buf c) 0 avail) by lia.
  rewrite (slice_ok (Chunker.buf c) (Chunker.bufCursor c) (len (Chunker.buf c))) by lia.
  cbv zeta.
  assert (Hsrc : firstn
            (Nat.min
               (List.length (firstn (Z.to_nat (avail - 0)) (skipn (Z.to_nat 0) (Chunker.buf c))))
               (List.length (firstn (Z.to_nat (len (Chunker.buf c) - Chunker.bufCursor c))
                          (skipn (Z.to_nat (Chunker.bufCursor c)) (Chunker.buf c)))))
            (firstn (Z.to_nat (len (Chunker.buf c) - Chunker.bufCursor c))
               (skipn (Z.to_nat (Chunker.bufCursor c)) (Chunker.buf c)))
          = window c).
  { unfold window. fold avail. rewrite firstn_firstn. f_equal.
    unfold len in *. rewrite !length_firstn, !length_skipn. cbn [Z.to_nat skipn]. lia. }
  rewrite Hsrc. clear Hsrc.
  set (buf1 := overwrite (Chunker.buf c) 0 (window c)).
  assert (Hlen1 : len buf1 = len (Chunker.buf c))
    by (apply overwrite_len; lia).
  assert (Hwin1 : firstn (Z.to_nat avail) buf1 = window c).
  { unfold buf1. replace avail with (0 + len (window c)) by lia.
    rewrite overwrite_window by lia. reflexivity. }
  destruct c as [mn mx ns ms ml mss mls g gs rd buf cur en pos eof].
  fields.
  set (W := window (Chunker.mk mn mx ns ms ml mss mls g gs rd buf cur en pos eof)) in *.
  assert (HR : remaining (Chunker.mk mn mx ns ms ml mss mls g gs rd buf cur en pos eof)
               = W ++ (if eof then [] else io.pending rd)) by reflexivity.
  rewrite HR in *.
  destruct eof.
  - (* the end of the source was observed before *)
    exists (Chunker.mk mn mx ns ms ml mss mls g gs rd buf1 0 avail pos true).
    split; [reflexivity|].
    assert (Hw' : window (Chunker.mk mn mx ns ms ml mss mls g gs rd buf1 0 avail pos true) = W).
    { unfold window. fields. cbn [Z.to_nat skipn]. rewrite Z.sub_0_r. exact Hwin1. }
    unfold remaining. rewrite Hw'. fields.
    split.
    { constructor; fields; [constructor; fields; lia|lia|discriminate|].
      unfold remaining. rewrite Hw'. fields. exact Hpos. }
    split; [unfold same_config; fields; rewrite Hlen1; tauto|].
    split; [exact Hd|]. split; [reflexivity|]. split; [reflexivity|].
    split; [left; reflexivity|]. right. now rewrite app_nil_r.
  - specialize (Hfull eq_refl). subst en.
    rewrite (slice_ok buf1 avail (len buf1)) by lia.
    set (k := List.length (firstn (Z.to_nat (len buf1 - avail)) (skipn (Z.to_nat avail) buf1))).
    assert (Hk : Z.of_nat k = len buf - avail).
    { unfold k, len in *. rewrite length_firstn, length_skipn. lia. }
    destruct (ReadFull_delivers rd k Hd) as (err & rd' & E & Hp & Hd' & Herr).
    cbn [Chunker.reader] in E. rewrite E.
    set (bs := firstn k (io.pending rd)) in *.
    assert (Hbs : len bs = Z.min (Z.of_nat k) (len (io.pending rd)))
      by (unfold bs, len; rewrite length_firstn; lia).
    set (buf2 := overwrite buf1 avail bs).
    assert (Hlen2 : len buf2 = len buf) by (unfold buf2; rewrite overwrite_len; lia).
    assert (Hwin2 : firstn (Z.to_nat (avail + len bs)) buf2 = W ++ bs).
    { unfold buf2. rewrite overwrite_window by lia. now rewrite Hwin1. }
    assert (Hsplit : bs ++ io.pending rd' = io.pending rd)
      by (rewrite Hp; apply firstn_skipn).
    destruct Herr as [[-> Hfullread]|[Herr Hshort]].
    + (* the buffer was filled *)
      exists (Chunker.mk mn mx ns ms ml mss mls g gs rd' buf2 0 (len buf) pos false).
      split; [reflexivity|].
      assert (Hb : avail + len bs = len buf) by (unfold len in *; lia).
      assert (Hw' : window (Chunker.mk mn mx ns ms ml mss mls g gs rd' buf2 0 (len buf) pos false)
                    = W ++ bs).
      { unfold window. fields. cbn [Z.to_nat skipn]. rewrite Z.sub_0_r, <- Hb. exact Hwin2. }
      assert (Hr' : remaining (Chunker.mk mn mx ns ms ml mss mls g gs rd' buf2 0 (len buf) pos false)
                    = W ++ io.pending rd).
      { unfold remaining. rewrite Hw'. fields. now rewrite <- app_assoc, Hsplit. }
      rewrite Hr', Hw'.
      split.
      { constructor; fields; [constructor; fields; lia|lia|intros _; lia|].
        rewrite Hr'. exact Hpos. }
      split; [unfold same_config; fields; rewrite Hlen2; tauto|].
      split; [exact Hd'|]. split; [reflexivity|]. split; [reflexivity|].
      split; [left; reflexivity|]. left. rewrite len_app. lia.
    + (* the source ended *)
      rewrite (wrap_id (avail + len bs)) by (unfold len in *; lia).
      assert (Hnil : io.pending rd' = []).
      { rewrite Hp. apply skipn_all2. lia. }
      assert (Hall : bs = io.pending rd) by (rewrite <- Hsplit, Hnil; now rewrite app_nil_r).
      assert (Hw' : window (Chunker.mk mn mx ns ms ml mss mls g gs rd' buf2 0 (avail + len bs) pos true)
                    = W ++ bs).
      { unfold window. fields. cbn [Z.to_nat skipn]. rewrite Z.sub_0_r. exact Hwin2. }
      assert (Hr' : remaining (Chunker.mk mn mx ns ms ml mss mls g gs rd' buf2 0 (avail + len bs) pos true)
                    = W ++ io.pending rd).
      { unfold remaining. rewrite Hw'. fields. now rewrite app_nil_r, Hall. }
      assert (Hgoal :
        buffered (Chunker.mk mn mx ns ms ml mss mls g gs rd' buf2 0 (avail + len bs) pos true)).
      { constructor; fields; [constructor; fields; lia|unfold len in *; lia|discriminate|].
        rewrite Hr'. exact Hpos. }
      destruct Herr as [-> | ->];
        (exists (Chunker.mk mn mx ns ms ml mss mls g gs rd' buf2 0 (avail + len bs) pos true);
         split; [reflexivity|]);
        rewrite Hr', Hw';
        (split; [exact Hgoal|]);
        (split; [unfold same_config; fields; rewrite Hlen2; tauto|]);
        (split; [exact Hd'|]); (split; [reflexivity|]); (split; [reflexivity|]);
        (split; [left; reflexivity|]); right; now rewrite Hall.
Qed.

Lemma firstn_prefix (n : nat) (w t : list byte) :
  (n <= List.length w)%nat -> firstn n (w ++ t) = firstn n w.
Proof.
  intros H. rewrite firstn_app.
  replace (n - List.length w)%nat with 0%nat by lia.
  rewrite firstn_0. apply app_nil_r.
Qed.

Lemma skipn_prefix (n : nat) (w t : list byte) :
  (n <= List.length w)%nat -> skipn n (w ++ t) = skipn n w ++ t.
Proof.
  intros H. rewrite skipn_app.
  replace (n - List.length w)%nat with 0%nat by lia.
  reflexivity.
Qed.

(** The cut of the window after a fill is the cut of the remaining stream. *)
Lemma cut_window (c : Chunker.t) (w t : list byte) :
  configured c ->
  Chunker.maxSize c <= len w \/ t = [] ->
  Chunker.cut c w = next_cut c (w ++ t).
Proof.
  intros [Hmin Havg Hmax Hbuf] H. unfold next_cut.
  destruct (Z_le_gt_dec (Chunker.maxSize c) (len w)) as [Hle|Hgt].
  - rewrite firstn_prefix by (unfold len in *; lia).
    symmetry. apply cut_prefix; lia.
  - destruct H as [H| ->]; [lia|]. rewrite app_nil_r.
    rewrite firstn_all2 by (unfold len in *; lia). reflexivity.
Qed.

(** One call of [Next] on a reader that does not fail. *)
Lemma Next_delivers (c : Chunker.t) :
  buffered c -> delivers (Chunker.reader c) ->
  exists c',
    buffered c' /\ same_config c c' /\ delivers (Chunker.reader c') /\
    ((remaining c = [] /\
      Chunker.Next c = Some (zeroChunk, Some EOF, c') /\
      remaining c' = [] /\ Chunker.streamPos c' = Chunker.streamPos c)
     \/
     (remaining c <> [] /\
      exists l fp,
        next_cut c (remaining c) = Some (l, fp) /\
        0 < l <= len (remaining c) /\
        Chunker.Next c
        = Some (mkChunk (Chunker.streamPos c) l (firstn (Z.to_nat l) (remaining c)) fp,
                None, c') /\
        remaining c' = skipn (Z.to_nat l) (remaining c) /\
        Chunker.streamPos c' = Chunker.streamPos c + l)).
Proof.
  intros Hb Hd.
  destruct (fillBuffer_delivers c Hb Hd)
    as (c1 & Efill & Hb1 & Hsame & Hd1 & Hrem & Hpos1 & Hzero & Hwin).
  unfold Chunker.Next. rewrite Efill.
  destruct Hb1 as [Hcfg1 [Hcur1 Hend1] Hfull1 Hsp1].
  pose proof (len_window c1 Hcur1 Hend1) as HW.
  assert (Hmx : Chunker.maxSize c1 = Chunker.maxSize c)
    by (destruct Hsame as (_ & -> & _); reflexivity).
  assert (Hmn : Chunker.minSize c1 = Chunker.minSize c)
    by (destruct Hsame as (-> & _); reflexivity).
  pose proof Hcfg1 as [Hmin Havg Hmax Hbuf].
  destruct (Z.eqb_spec (Chunker.bufEnd c1) 0) as [Hz|Hnz].
  - (* the window is empty: end of the stream *)
    exists c1. split; [constructor; tauto|]. split; [exact Hsame|]. split; [exact Hd1|].
    left.
    assert (Hw0 : window c1 = []).
    { apply length_zero_iff_nil. unfold len in HW. lia. }
    assert (Hr0 : remaining c = []).
    { destruct Hwin as [Hwin|Hwin]; [rewrite Hw0 in Hwin; cbn in Hwin; lia|].
      now rewrite <- Hwin. }
    split; [exact Hr0|]. split; [reflexivity|].
    split; [now rewrite Hrem|exact Hpos1].
  - (* a chunk is cut from the window *)
    assert (Hwpos : 0 < len (window c1)) by (destruct Hzero; lia).
    rewrite (slice_ok (Chunker.buf c1) (Chunker.bufCursor c1) (Chunker.bufEnd c1)) by lia.
    fold (window c1).
    remember (if Chunker.readerEOF c1 then [] else io.pending (Chunker.reader c1))
      as T eqn:ET.
    assert (HR : remaining c = window c1 ++ T) by (rewrite <- Hrem, ET; reflexivity).
    assert (HT : Chunker.maxSize c1 <= len (window c1) \/ T = []).
    { destruct Hwin as [Hwin|Hwin]; [left; lia|right].
      rewrite HR in Hwin. apply (app_inv_head (window c1)). now rewrite app_nil_r. }
    rewrite (cut_window c1 (window c1) T Hcfg1 HT), <- HR.
    rewrite <- (next_cut_same_config c c1 _ Hsame).
    destruct (next_cut_spec c (remaining c)) as (l & fp & Ecut & Hl).
    { destruct Hsame as (E1 & E2 & E3 & _ & _ & _ & _ & _ & _ & E10).
      constructor; rewrite ?E1, ?E2, ?E3, ?E10; assumption. }
    rewrite Ecut.
    pose proof (round_even_bounds (Chunker.minSize c)) as Hre.
    assert (HlenR : len (remaining c) = len (window c1) + len T)
      by (rewrite HR; apply len_app).
    pose proof (len_nonneg T) as HT0.
    assert (Hlw : 0 < l <= len (window c1)).
    { destruct HT as [HT| HT]; [|rewrite HT in HlenR; cbn in HlenR]; lia. }
    unfold GoInt.add.
    rewrite (wrap_id (Chunker.bufCursor c1 + l)) by lia.
    rewrite (slice_ok (Chunker.buf c1) (Chunker.bufCursor c1) (Chunker.bufCursor c1 + l))
      by lia.
    assert (Hrpos : len (remaining c1) = len (remaining c)) by now rewrite Hrem.
    cbv zeta. fields.
    rewrite (wrap_id (Chunker.streamPos c1 + l)) by lia.
    replace (Chunker.bufCursor c1 + l - Chunker.bufCursor c1) with l by lia.
    assert (Hview : firstn (Z.to_nat l) (skipn (Z.to_nat (Chunker.bufCursor c1)) (Chunker.buf c1))
                    = firstn (Z.to_nat l) (remaining c)).
    { rewrite HR, firstn_prefix by (unfold len in *; lia).
      unfold window. rewrite firstn_firstn. f_equal. lia. }
    rewrite Hview.
    eexists. split; [|split; [|split]];
      [| | |right; split;
             [rewrite HR; destruct (window c1); [cbn in Hwpos; lia|discriminate]|];
             exists l, fp; split; [reflexivity|]; split; [lia|];
             split; [rewrite Hpos1; reflexivity|]].
    + (* the invariant *)
      destruct c1 as [mn mx ns ms ml mss mls g gs rd buf cur en pos eof]. fields.
      constructor; fields; [constructor; fields; lia|lia|exact Hfull1|].
      unfold remaining. fields. rewrite <- ET.
      rewrite len_app, len_window by (fields; lia). fields. lia.
    + destruct c1. unfold same_config in *. fields. exact Hsame.
    + destruct c1. fields. exact Hd1.
    + destruct c1 as [mn mx ns ms ml mss mls g gs rd buf cur en pos eof]. fields.
      split; [|lia].
      rewrite HR. unfold remaining, window. fields. rewrite <- ET.
      rewrite skipn_prefix
        by (rewrite length_firstn, length_skipn; unfold len in *; lia).
      f_equal. rewrite skipn_firstn_comm, skipn_skipn. f_equal; [lia|f_equal; lia].
Qed.

(** ** Options and construction *)

Lemma absoluteMaxSize_eq : absoluteMaxSize = 2 ^ 30.
Proof. reflexivity. Qed.

Lemma validate_None (o : options.t) :
  options.validate o = None <->
  64 <= options.averageSize o <= 2 ^ 30 /\
  Z.land (options.averageSize o) (options.averageSize o - 1) = 0 /\
  64 <= options.minSize o <= 2 ^ 30 /\
  64 <= options.maxSize o <= 2 ^ 30 /\
  options.minSize o < options.maxSize o /\
  options.minSize o <= options.averageSize o <= options.maxSize o /\
  (options.disableNormalization o = false -> 0 <= options.normalization o <= 3) /\
  options.maxSize o < options.bufSize o.
Proof.
  unfold options.validate, absoluteMinSize. rewrite absoluteMaxSize_eq.
  rewrite !Z.gtb_ltb.
  destruct (Z.ltb_spec (options.averageSize o) 64);
    [cbn [orb]; split; [discriminate|lia]|].
  destruct (Z.ltb_spec (2 ^ 30) (options.averageSize o));
    [cbn [orb]; split; [discriminate|lia]|].
  cbn [orb].
  unfold GoInt.sub. rewrite (wrap_id (options.averageSize o - 1)) by lia.
  destruct (Z.leb_spec (options.averageSize o) 0); [lia|]. cbn [orb].
  destruct (Z.eqb_spec (Z.land (options.averageSize o) (options.averageSize o - 1)) 0);
    cbn [negb]; [|split; [discriminate|tauto]].
  destruct (Z.ltb_spec (options.minSize o) 64);
    [cbn [orb]; split; [discriminate|lia]|].
  destruct (Z.ltb_spec (2 ^ 30) (options.minSize o));
    [cbn [orb]; split; [discriminate|lia]|].
  cbn [orb].
  destruct (Z.ltb_spec (options.maxSize o) 64);
    [cbn [orb]; split; [discriminate|lia]|].
  destruct (Z.ltb_spec (2 ^ 30) (options.maxSize o));
    [cbn [orb]; split; [discriminate|lia]|].
  cbn [orb].
  destruct (Z.leb_spec (options.maxSize o) (options.minSize o));
    [split; [discriminate|lia]|].
  destruct (Z.ltb_spec (options.maxSize o) (options.averageSize o));
    [cbn [orb]; split; [discriminate|lia]|].
  destruct (Z.ltb_spec (options.averageSize o) (options.minSize o));
    [cbn [orb]; split; [discriminate|lia]|].
  cbn [orb].
  destruct (options.disableNormalization o); cbn [negb andb].
  - destruct (Z.leb_spec (options.bufSize o) (options.maxSize o));
      [split; [discriminate|lia]|].
    split; [intros _|reflexivity]. repeat split; try lia; try assumption; discriminate.
  - destruct (Z.ltb_spec (options.normalization o) 0);
      [cbn [orb]; split; [discriminate|intros (_ & _ & _ & _ & _ & _ & Hn & _);
                                        specialize (Hn eq_refl); lia]|].
    destruct (Z.ltb_spec 3 (options.normalization o));
      [cbn [orb]; split; [discriminate|intros (_ & _ & _ & _ & _ & _ & Hn & _);
                                        specialize (Hn eq_refl); lia]|].
    cbn [orb].
    destruct (Z.leb_spec (options.bufSize o) (options.maxSize o));
      [split; [discriminate|lia]|].
    split; [intros _|reflexivity]. repeat split; try lia; assumption.
Qed.

(** [n & (n - 1) == 0] holds of the powers of two only. *)

Lemma land_even_odd (a b : Z) : Z.land (2 * a) (2 * b + 1) = 2 * Z.land a b.
Proof.
  apply Z.bits_inj'. intros n Hn. rewrite Z.land_spec.
  destruct (Z.eq_dec n 0) as [->|Hnz].
  - now rewrite !Z.testbit_even_0.
  - replace n with (Z.succ (n - 1)) by lia.
    rewrite !Z.testbit_even_succ, Z.testbit_odd_succ, Z.land_spec by lia.
    reflexivity.
Qed.

Lemma land_odd_even (a : Z) : Z.land (2 * a + 1) (2 * a) = 2 * a.
Proof.
  apply Z.bits_inj'. intros n Hn. rewrite Z.land_spec.
  destruct (Z.eq_dec n 0) as [->|Hnz].
  - rewrite Z.testbit_even_0. apply andb_false_r.
  - replace n with (Z.succ (n - 1)) by lia.
    rewrite !Z.testbit_even_succ, Z.testbit_odd_succ by lia.
    apply andb_diag.
Qed.

Lemma ctz_nonneg (p : positive) : 0 <= ctz p.
Proof. induction p; cbn [ctz]; lia. Qed.

Lemma power_of_two_pos (p : positive) :
  Z.land (Zpos p) (Zpos p - 1) = 0 -> Zpos p = 2 ^ ctz p.
Proof.
  induction p as [p IH|p IH|]; intros H.
  - exfalso. rewrite Pos2Z.inj_xI in H.
    replace (2 * Z.pos p + 1 - 1) with (2 * Z.pos p) in H by lia.
    rewrite land_odd_even in H. lia.
  - rewrite Pos2Z.inj_xO in H.
    replace (2 * Z.pos p - 1) with (2 * (Z.pos p - 1) + 1) in H by lia.
    rewrite land_even_odd in H.
    cbn [ctz]. pose proof (ctz_nonneg p).
    rewrite Z.pow_add_r, Pos2Z.inj_xO by lia.
    rewrite <- IH by lia. reflexivity.
  - reflexivity.
Qed.

Lemma power_of_two (n : Z) :
  0 < n ->
  (Z.land n (n - 1) = 0 <-> exists k, 0 <= k /\ n = 2 ^ k).
Proof.
  intros Hn. split.
  - destruct n as [|p|p]; try lia. intros H.
    exists (ctz p). split; [apply ctz_nonneg|now apply power_of_two_pos].
  - intros (k & Hk & ->).
    replace (2 ^ k - 1) with (Z.ones k) by (rewrite Z.ones_equiv; lia).
    rewrite Z.land_ones by lia. apply Z.mod_same. lia.
Qed.

Lemma TrailingZeros_log2 (n : Z) :
  0 < n < 2 ^ 64 -> Z.land n (n - 1) = 0 ->
  TrailingZeros (GoInt.to_uint n) = Z.log2 n.
Proof.
  intros Hn H. unfold GoInt.to_uint. rewrite Z.mod_small by lia.
  destruct n as [|p|p]; try lia.
  cbn [TrailingZeros].
  rewrite (power_of_two_pos p H) at 1.
  rewrite Z.log2_pow2; [reflexivity|apply ctz_nonneg].
Qed.

Lemma masks_at_some (i : Z) : 0 <= i <= 25 -> exists m, masks_at i = Some m.
Proof.
  intros H. unfold masks_at.
  replace (0 <=? i) with true by (symmetry; apply Z.leb_le; lia).
  replace (i <? 26) with true by (symmetry; apply Z.ltb_lt; lia).
  cbn [andb].
  destruct (nth_error masks (Z.to_nat i)) as [m|] eqn:E; [now exists m|].
  apply nth_error_None in E. change (List.length masks) with 26%nat in E. lia.
Qed.

(** What [NewChunker] does after a successful validation. *)
Lemma NewChunker_cases (rd : io.Reader) (averageSize : Z) (opts : list Option) :
  let o := resolve averageSize opts in
  (exists err, NewChunker rd averageSize opts = Some (None, Some err) /\ ~ accepted o)
  \/
  (NewChunker rd averageSize opts = None /\ accepted o /\ maxAlloc < options.bufSize o)
  \/
  (exists c, NewChunker rd averageSize opts = Some (Some c, None) /\ accepted o /\
     Chunker.minSize c = options.minSize o /\
     Chunker.maxSize c = options.maxSize o /\
     Chunker.normalizeSize c = options.averageSize o /\
     Chunker.gear c = map (fun g => Z.lxor g (options.seed o)) gear /\
     Chunker.gearShifted c
       = map (fun g => Z.lxor g (U64.shl (options.seed o) 1)) gearShifted /\
     Chunker.reader c = rd /\
     Chunker.buf c = repeat x00 (Z.to_nat (options.bufSize o)) /\
     Chunker.bufCursor c = options.bufSize o /\
     Chunker.bufEnd c = options.bufSize o /\
     Chunker.streamPos c = 0 /\
     Chunker.readerEOF c = false /\
     options.bufSize o <= maxAlloc).
Proof.
  intros o. unfold NewChunker. fold o.
  destruct (options.validate o) as [err|] eqn:Ev.
  { left. exists err. split; [reflexivity|].
    intros (Ha & Hp & Hmin & Hmax & Hlt & Havg & Hbuf & Hn & _).
    assert (Hv : options.validate o = None).
    { apply validate_None. repeat split; try lia; try tauto.
      apply power_of_two; [lia|exact Hp]. }
    congruence. }
  apply validate_None in Ev.
  destruct Ev as (Ha & Hp & Hmin & Hmax & Hlt & Havg & Hn & Hbuf).
  assert (Hpow : exists k, 0 <= k /\ options.averageSize o = 2 ^ k)
    by (apply power_of_two; [lia|exact Hp]).
  rewrite (TrailingZeros_log2 (options.averageSize o)) by (try exact Hp; lia).
  fold (effective_normalization o).
  assert (Hlog : 6 <= Z.log2 (options.averageSize o) <= 30).
  { split.
    - change 6 with (Z.log2 64). apply Z.log2_le_mono. lia.
    - change 30 with (Z.log2 (2 ^ 30)). apply Z.log2_le_mono. lia. }
  assert (Heff : 0 <= effective_normalization o <= 3).
  { unfold effective_normalization.
    destruct (options.disableNormalization o); [lia|]. now apply Hn. }
  unfold GoInt.add, GoInt.sub. rewrite !wrap_id by lia.
  rewrite Z.gtb_ltb.
  set (tables := if negb (options.seed o =? 0) then _ else _).
  assert (Htab : tables
                 = (map (fun g => Z.lxor g (options.seed o)) gear,
                    map (fun g => Z.lxor g (U64.shl (options.seed o) 1)) gearShifted)).
  { unfold tables. destruct (Z.eqb_spec (options.seed o) 0) as [Hseed|Hseed];
      cbn [negb]; [|reflexivity].
    rewrite Hseed. change (U64.shl 0 1) with 0.
    f_equal; symmetry; (erewrite map_ext; [apply map_id|]); intros g; apply Z.lxor_0_r. }
  rewrite Htab. clear tables Htab.
  destruct (Z.ltb_spec 25 (Z.log2 (options.averageSize o) + effective_normalization o))
    as [Hs|Hs].
  { left. eexists. split; [reflexivity|]. unfold accepted. lia. }
  destruct (Z.ltb_spec (Z.log2 (options.averageSize o) - effective_normalization o) 5)
    as [Hl|Hl].
  { left. eexists. split; [reflexivity|]. unfold accepted. lia. }
  cbn [orb].
  destruct (masks_at_some (Z.log2 (options.averageSize o) + effective_normalization o))
    as [mS ->]; [lia|].
  destruct (masks_at_some (Z.log2 (options.averageSize o) - effective_normalization o))
    as [mL ->]; [lia|].
  assert (Hacc : accepted o) by (unfold accepted; repeat split; try lia; try tauto).
  unfold make.
  replace (0 <=? options.bufSize o) with true by (symmetry; apply Z.leb_le; lia).
  cbn [andb].
  destruct (Z.leb_spec (options.bufSize o) maxAlloc) as [Hal|Hal].
  2:{ right. left. split; [reflexivity|]. split; [exact Hacc|exact Hal]. }
  right. right. eexists. split; [reflexivity|].
  split; [exact Hacc|].
  fields. repeat split; try reflexivity. exact Hal.
Qed.

(** ** The sequence of chunks *)

Lemma chunking_same_config (c d : Chunker.t) pos rest cs :
  same_config c d -> chunking c pos rest cs -> chunking d pos rest cs.
Proof.
  intros Hs H. induction H as [pos|pos rest l fp cs Hne Hcut Hl _ IH].
  - constructor.
  - constructor; try assumption. now rewrite <- (next_cut_same_config c d).
Qed.

Lemma chunking_functional (c : Chunker.t) pos rest cs1 :
  chunking c pos rest cs1 -> forall cs2, chunking c pos rest cs2 -> cs1 = cs2.
Proof.
  intros H. induction H as [pos|pos rest l fp cs Hne Hcut Hl _ IH]; intros cs2 H2.
  - inversion H2; subst; [reflexivity|congruence].
  - inversion H2 as [|pos' rest' l' fp' cs' Hne' Hcut' Hl' Hrest']; subst; [congruence|].
    rewrite Hcut in Hcut'. inversion Hcut'; subst l' fp'.
    f_equal. apply IH. exact Hrest'.
Qed.

Lemma chunking_concat (c : Chunker.t) pos rest cs :
  chunking c pos rest cs -> List.concat (map Data cs) = rest.
Proof.
  intros H. induction H as [pos|pos rest l fp cs Hne Hcut Hl _ IH]; [reflexivity|].
  cbn [map List.concat Data]. rewrite IH. apply firstn_skipn.
Qed.

Lemma chunking_contiguous (c : Chunker.t) pos rest cs :
  chunking c pos rest cs -> contiguous pos cs.
Proof.
  intros H. induction H as [pos|pos rest l fp cs Hne Hcut Hl _ IH]; [exact I|].
  cbn [contiguous Offset Length]. split; [reflexivity|]. split; [lia|exact IH].
Qed.

Lemma chunking_lengths (c : Chunker.t) pos rest cs :
  chunking c pos rest cs ->
  Forall (fun ch => Length ch = len (Data ch)) cs.
Proof.
  intros H. induction H as [pos|pos rest l fp cs Hne Hcut Hl _ IH]; constructor.
  - cbn [Length Data]. unfold len in *. rewrite length_firstn. lia.
  - exact IH.
Qed.

Lemma chunking_bounded (c : Chunker.t) pos rest cs :
  configured c ->
  chunking c pos rest cs ->
  bounded (round_even (Chunker.minSize c)) (Chunker.maxSize c) cs.
Proof.
  intros Hcfg H. induction H as [pos|pos rest l fp cs Hne Hcut Hl Hrest IH]; [exact I|].
  cbn [bounded Length].
  destruct (next_cut_spec c rest Hcfg) as (l' & fp' & E & Hb).
  rewrite Hcut in E. inversion E; subst l' fp'.
  destruct Hcfg as [Hmin Havg Hmax Hbuf].
  split; [|split; [|exact IH]].
  - destruct Hb as [(Hs & -> & _)|(_ & Hb)]; lia.
  - intros Hcs. destruct Hb as [(Hs & -> & _)|(_ & Hb)]; [|lia].
    exfalso. apply Hcs.
    rewrite skipn_all2 in Hrest by (unfold len; lia).
    inversion Hrest; [reflexivity|congruence].
Qed.

Lemma drain_eq (fuel : nat) (c : Chunker.t) :
  drain (S fuel) c
  = '(chunk, err, c') <- Chunker.Next c ;;
    match err with
    | Some EOF => Some ([], None, c')
    | Some e => Some ([], Some e, c')
    | None =>
      '(rest, e, c'') <- drain fuel c' ;;
      Some (chunk :: rest, e, c'')
    end.
Proof. reflexivity. Qed.

(** The loop of the caller returns the chunks of the remaining stream. *)
Lemma drain_delivers (n : nat) : forall c : Chunker.t,
  buffered c -> delivers (Chunker.reader c) ->
  len (remaining c) <= Z.of_nat n ->
  exists cs c',
    drain (S n) c = Some (cs, None, c') /\
    chunking c (Chunker.streamPos c) (remaining c) cs /\
    same_config c c' /\ remaining c' = [].
Proof.
  induction n as [|n IH]; intros c Hb Hd Hn;
    destruct (Next_delivers c Hb Hd) as (c1 & Hb1 & Hs1 & Hd1 & Hcase);
    rewrite drain_eq;
    destruct Hcase as [(Hnil & E & Hr1 & Hp1)|(Hne & l & fp & Ecut & Hl & E & Hr1 & Hp1)];
    rewrite E.
  - exists [], c1. rewrite Hnil. repeat split; try assumption; try apply Hs1. constructor.
  - pose proof (len_nonneg (remaining c)). lia.
  - exists [], c1. rewrite Hnil. repeat split; try assumption; try apply Hs1. constructor.
  - destruct (IH c1 Hb1 Hd1) as (cs & c2 & Ed & Hch & Hs2 & Hr2).
    { rewrite Hr1, len_skipn by lia. lia. }
    rewrite Ed. eexists _, c2. split; [reflexivity|].
    split; [|split; [eapply same_config_trans; eassumption|exact Hr2]].
    constructor; try assumption.
    rewrite <- Hr1, <- Hp1. apply (chunking_same_config c1 c); [|exact Hch].
    now apply same_config_sym.
Qed.

(** A chunker as [NewChunker] returns it satisfies the buffer invariant and
    has the whole stream before it. *)
Lemma NewChunker_buffered (rd : io.Reader) (averageSize : Z) (opts : list Option)
  (c : Chunker.t) :
  NewChunker rd averageSize opts = Some (Some c, None) ->
  is_int (options.bufSize (resolve averageSize opts)) ->
  len (io.pending rd) < 2 ^ 63 ->
  buffered c /\ remaining c = io.pending rd /\ Chunker.streamPos c = 0 /\
  Chunker.reader c = rd.
Proof.
  intros HN Hint Hlen.
  destruct (NewChunker_cases rd averageSize opts)
    as [(err & E & _)|[(E & _)|(c' & E & Hacc & Hc)]];
    rewrite E in HN; inversion HN; subst c'.
  destruct Hc as (Hmn & Hmx & Hns & _ & _ & Hrd & Hbuf & Hcur & Hend & Hpos & Heof & _).
  destruct Hacc as (Ha & _ & Hmin & Hmax & Hlt & Havg & Hb & _).
  set (o := resolve averageSize opts) in *.
  assert (Hl : len (Chunker.buf c) = options.bufSize o).
  { rewrite Hbuf. unfold len. rewrite repeat_length. lia. }
  assert (Hw : window c = []).
  { unfold window. rewrite Hcur, Hend, Z.sub_diag. reflexivity. }
  assert (Hr : remaining c = io.pending rd).
  { unfold remaining. rewrite Hw, Heof, Hrd. reflexivity. }
  unfold is_int in Hint.
  split; [|tauto].
  constructor; [constructor|..]; rewrite ?Hr; try lia; intros _; lia.
Qed.

(** ** Reset, and the reader given to [NewChunker] *)

Lemma Reset_buffered (c : Chunker.t) (rd : io.Reader) :
  configured c -> len (io.pending rd) < 2 ^ 63 ->
  buffered (Chunker.Reset c rd) /\ same_config c (Chunker.Reset c rd) /\
  remaining (Chunker.Reset c rd) = io.pending rd /\
  Chunker.streamPos (Chunker.Reset c rd) = 0 /\
  Chunker.reader (Chunker.Reset c rd) = rd.
Proof.
  intros [Hmin Havg Hmax Hbuf] Hlen.
  destruct c as [mn mx ns ms ml mss mls g gs rd0 buf cur en pos eof].
  cbv beta iota zeta delta
    [Chunker.Reset Chunker.set_reader Chunker.set_bufCursor Chunker.set_bufEnd
     Chunker.set_streamPos Chunker.set_readerEOF
     Chunker.minSize Chunker.maxSize Chunker.normalizeSize Chunker.maskSmall
     Chunker.maskLarge Chunker.maskSmallShifted Chunker.maskLargeShifted
     Chunker.gear Chunker.gearShifted Chunker.reader Chunker.buf Chunker.bufCursor
     Chunker.bufEnd Chunker.streamPos Chunker.readerEOF].
  fields.
  assert (Hw : window (Chunker.mk mn mx ns ms ml mss mls g gs rd buf (len buf) (len buf) 0 false)
               = []).
  { unfold window. fields. rewrite Z.sub_diag. reflexivity. }
  assert (Hr : remaining (Chunker.mk mn mx ns ms ml mss mls g gs rd buf (len buf) (len buf) 0 false)
               = io.pending rd).
  { unfold remaining. rewrite Hw. reflexivity. }
  split; [|split; [unfold same_config; fields; tauto|split; [exact Hr|split; reflexivity]]].
  constructor; fields; [constructor; fields; lia|lia|reflexivity|].
  rewrite Hr. lia.
Qed.

Lemma NewChunker_reader (rd1 rd2 : io.Reader) (averageSize : Z) (opts : list Option)
  (c1 c2 : Chunker.t) :
  NewChunker rd1 averageSize opts = Some (Some c1, None) ->
  NewChunker rd2 averageSize opts = Some (Some c2, None) ->
  c2 = Chunker.set_reader c1 rd2.
Proof.
  unfold NewChunker.
  destruct (options.validate _); [discriminate|].
  destruct (if negb _ then _ else _) as [sg sgs].
  destruct (_ || _); [discriminate|].
  destruct (masks_at _); [|discriminate].
  destruct (masks_at _); [|discriminate].
  destruct (make _); [|discriminate].
  intros H1 H2. inversion H1; inversion H2; subst. reflexivity.
Qed.

Lemma set_reader_same_config (c : Chunker.t) (rd : io.Reader) :
  same_config c (Chunker.set_reader c rd).
Proof. unfold same_config. fields. tauto. Qed.

(** ** Failing readers *)

Lemma firstn_add (a b : nat) : forall l : list byte,
  firstn (a + b) l = firstn a l ++ firstn b (skipn a l).
Proof.
  induction a as [|a IH]; intros l; [reflexivity|].
  destruct l as [|x l]; [now rewrite !firstn_nil|].
  cbn [Nat.add firstn skipn app]. now rewrite IH.
Qed.

Lemma delivered_length (ns : list nat) : (List.length ns <= delivered ns)%nat.
Proof.
  induction ns as [|n ns IH]; [cbn; lia|].
  change (delivered (n :: ns)) with (S n + delivered ns)%nat.
  cbn [List.length]. lia.
Qed.

(** The loop of [io.ReadAtLeast] on a reader whose calls deliver and then
    fail: the failing call is the last one, and its bytes are kept. *)
Lemma ReadAtLeast_loop_fail (e : error) (rest : list io.ReadStep) (min : nat)
  (ns : list nat) (n : nat) : forall (fuel : nat) (p got : list byte),
  (List.length got + delivered ns < min)%nat ->
  (List.length got + delivered ns + n <= min)%nat ->
  (delivered ns + n <= List.length p)%nat ->
  (List.length ns < fuel)%nat ->
  io.ReadAtLeast_loop fuel (io.mkReader p (map io.Deliver ns ++ io.Fail n e :: rest)) got min
  = Some (got ++ firstn (delivered ns + n) p, Some e,
          io.mkReader (skipn (delivered ns + n) p) rest).
Proof.
  induction ns as [|n0 ns IH]; intros fuel p got Hmin Hroom Hp Hfuel.
  - destruct fuel as [|fuel]; [cbn in Hfuel; lia|].
    cbn [io.ReadAtLeast_loop delivered fold_right Nat.add] in *.
    destruct (Nat.ltb_spec (List.length got) min) as [Hlt|Hge]; [|lia].
    unfold io.Read.
    destruct (min - List.length got)%nat as [|k] eqn:Ek; [lia|].
    cbn [io.script io.pending map app]. cbv zeta.
    replace (Nat.min (S k) n) with n by lia. reflexivity.
  - destruct fuel as [|fuel]; [cbn in Hfuel; lia|].
    cbn [io.ReadAtLeast_loop].
    change (delivered (n0 :: ns)) with (S n0 + delivered ns)%nat in *.
    destruct (Nat.ltb_spec (List.length got) min) as [Hlt|Hge]; [|lia].
    unfold io.Read.
    destruct (min - List.length got)%nat as [|k] eqn:Ek; [lia|].
    cbn [io.script io.pending map app].
    destruct p as [|b p]; [cbn in Hp; lia|].
    cbv zeta. replace (Nat.min (S k) (S n0)) with (S n0) by lia.
    assert (Hfn : List.length (firstn (S n0) (b :: p)) = S n0).
    { rewrite length_firstn. cbn [List.length] in *. lia. }
    rewrite IH.
    + rewrite <- app_assoc, skipn_skipn.
      replace (S n0 + delivered ns + n)%nat with (S n0 + (delivered ns + n))%nat by lia.
      rewrite (firstn_add (S n0) (delivered ns + n)).
      replace (delivered ns + n + S n0)%nat with (S n0 + (delivered ns + n))%nat by lia.
      reflexivity.
    + rewrite length_app, Hfn. lia.
    + rewrite length_app, Hfn. lia.
    + rewrite length_skipn. cbn [List.length] in *. lia.
    + cbn [List.length] in Hfuel. lia.
Qed.

(** [io.ReadFull] on such a reader: the error of the failing call is
    dropped when its bytes fill the buffer, and [io.EOF] after some bytes
    becomes [io.ErrUnexpectedEOF]. *)
Lemma ReadFull_fail (e : error) (rest : list io.ReadStep) (size : nat)
  (ns : list nat) (n : nat) (p : list byte) :
  (delivered ns < size)%nat ->
  (delivered ns + n <= size)%nat ->
  (delivered ns + n <= List.length p)%nat ->
  io.ReadFull (io.mkReader p (map io.Deliver ns ++ io.Fail n e :: rest)) size
  = Some (firstn (delivered ns + n) p,
          (if (size <=? delivered ns + n)%nat then None
           else if (0 <? delivered ns + n)%nat
                   && match e with EOF => true | _ => false end
                then Some ErrUnexpectedEOF
                else Some e),
          io.mkReader (skipn (delivered ns + n) p) rest).
Proof.
  intros Hs Hroom Hp. unfold io.ReadFull.
  pose proof (delivered_length ns) as Hns.
  rewrite ReadAtLeast_loop_fail by (cbn [List.length]; lia).
  cbn [app].
  assert (Hl : List.length (firstn (delivered ns + n) p) = (delivered ns + n)%nat)
    by (rewrite length_firstn; lia).
  rewrite Hl. reflexivity.
Qed.

(** The errors that [fillBuffer] can return. *)
Lemma fillBuffer_error (c c1 : Chunker.t) (e : error) :
  Chunker.fillBuffer c = Some (Some e, c1) ->
  e <> EOF /\ e <> ErrUnexpectedEOF /\
  exists n, In (io.Fail n e) (io.script (Chunker.reader c)).
Proof.
  unfold Chunker.fillBuffer.
  destruct (_ >=? _); [discriminate|].
  destruct (slice _ _ _); [|discriminate].
  destruct (slice _ _ _); [|discriminate].
  cbv zeta. fields.
  destruct (Chunker.readerEOF c); [discriminate|].
  destruct (slice _ _ _) as [dst|]; [|discriminate].
  destruct (ReadFull_spec (Chunker.reader c) (List.length dst))
    as (bs & err & r' & E & _ & _ & _ & Herr & _).
  rewrite E.
  destruct err as [e0|]; [|discriminate].
  destruct (Herr e0 eq_refl) as [_ Hcase].
  destruct e0; intros H; inversion H; subst;
    (destruct Hcase as [[[He|He] _]|[Hne Hin]]; try discriminate);
    repeat split; try discriminate; assumption.
Qed.

(** ** The buffer, whatever the reader does *)

(** What [fillBuffer] leaves: the chunker as it was when the window holds
    [maxSize] bytes; otherwise a window that starts at 0, with the source
    marked as ended or the window marked as the whole buffer. *)
Lemma fillBuffer_shape (c c1 : Chunker.t) (err : option error) :
  buffered c ->
  Chunker.fillBuffer c = Some (err, c1) ->
  same_config c c1 /\ Chunker.streamPos c1 = Chunker.streamPos c /\
  ((c1 = c /\ err = None /\
    Chunker.maxSize c <= Chunker.bufEnd c - Chunker.bufCursor c)
   \/
   (Chunker.bufEnd c - Chunker.bufCursor c < Chunker.maxSize c /\
    Chunker.bufCursor c1 = 0 /\
    0 <= Chunker.bufEnd c1 <= len (Chunker.buf c1) /\
    ((Chunker.readerEOF c1 = true /\ err = None) \/
     (Chunker.readerEOF c1 = false /\ Chunker.bufEnd c1 = len (Chunker.buf c1))))).
Proof.
  intros [[Hmin Havg Hmax Hbuf] [Hcur Hend] Hfull Hpos].
  pose proof (len_window c Hcur Hend) as HW.
  unfold Chunker.fillBuffer, GoInt.sub, GoInt.add.
  rewrite (wrap_id (Chunker.bufEnd c - Chunker.bufCursor c)) by lia.
  destruct (Z.geb_spec (Chunker.bufEnd c - Chunker.bufCursor c) (Chunker.maxSize c))
    as [Hge|Hlt].
  { intros H. inversion H; subst. split; [apply same_config_refl|].
    split; [reflexivity|]. left. repeat split; lia. }
  set (avail := Chunker.bufEnd c - Chunker.bufCursor c) in *.
  rewrite (slice_ok (Chunker.buf c) 0 avail) by lia.
  rewrite (slice_ok (Chunker.buf c) (Chunker.bufCursor c) (len (Chunker.buf c))) by lia.
  cbv zeta.
  set (src := firstn _ (firstn _ (skipn (Z.to_nat (Chunker.bufCursor c)) (Chunker.buf c)))).
  assert (Hsrc : len src = avail).
  { unfold src, len in *. rewrite !length_firstn, !length_skipn.
    cbn [Z.to_nat skipn]. lia. }
  set (buf1 := overwrite (Chunker.buf c) 0 src).
  assert (Hlen1 : len buf1 = len (Chunker.buf c)) by (apply overwrite_len; lia).
  destruct c as [mn mx nz ms ml mss mls g gs rd buf cur en pos eof]. fields.
  destruct eof.
  - intros H. inversion H; subst. fields.
    split; [unfold same_config; fields; rewrite Hlen1; tauto|].
    split; [reflexivity|]. right. split; [lia|]. split; [reflexivity|].
    split; [lia|]. left. split; reflexivity.
  - specialize (Hfull eq_refl). subst en.
    rewrite (slice_ok buf1 avail (len buf1)) by lia.
    set (k := List.length _).
    assert (Hk : Z.of_nat k = len buf - avail).
    { unfold k, len in *. rewrite length_firstn, length_skipn. lia. }
    destruct (ReadFull_spec rd k) as (bs & e & r' & E & _ & Hle & _).
    rewrite E.
    assert (Hlen2 : len (overwrite buf1 avail bs) = len buf).
    { rewrite overwrite_len; unfold len in *; lia. }
    assert (Hfin : forall e0,
              e = e0 ->
              match e0 with
              | Some EOF | Some ErrUnexpectedEOF => true
              | _ => false
              end = false ->
              Some (e0, Chunker.mk mn mx nz ms ml mss mls g gs r'
                          (overwrite buf1 avail bs) 0 (len buf) pos false)
              = Some (err, c1) ->
              same_config (Chunker.mk mn mx nz ms ml mss mls g gs rd buf cur (len buf) pos false) c1 /\
              Chunker.streamPos c1 = pos /\
              ((c1 = Chunker.mk mn mx nz ms ml mss mls g gs rd buf cur (len buf) pos false /\
                err = None /\ mx <= avail) \/
               (avail < mx /\ Chunker.bufCursor c1 = 0 /\
                0 <= Chunker.bufEnd c1 <= len (Chunker.buf c1) /\
                ((Chunker.readerEOF c1 = true /\ err = None) \/
                 (Chunker.readerEOF c1 = false /\
                  Chunker.bufEnd c1 = len (Chunker.buf c1)))))).
    { intros e0 _ _ H. inversion H; subst. fields.
      split; [unfold same_config; fields; rewrite Hlen2; tauto|].
      split; [reflexivity|]. right. split; [lia|]. split; [reflexivity|].
      rewrite Hlen2. split; [lia|]. right. split; reflexivity. }
    assert (Heof : Some (@None error,
                         Chunker.mk mn mx nz ms ml mss mls g gs r'
                           (overwrite buf1 avail bs) 0 (GoInt.wrap (avail + len bs)) pos true)
                   = Some (err, c1) ->
              same_config (Chunker.mk mn mx nz ms ml mss mls g gs rd buf cur (len buf) pos false) c1 /\
              Chunker.streamPos c1 = pos /\
              ((c1 = Chunker.mk mn mx nz ms ml mss mls g gs rd buf cur (len buf) pos false /\
                err = None /\ mx <= avail) \/
               (avail < mx /\ Chunker.bufCursor c1 = 0 /\
                0 <= Chunker.bufEnd c1 <= len (Chunker.buf c1) /\
                ((Chunker.readerEOF c1 = true /\ err = None) \/
                 (Chunker.readerEOF c1 = false /\
                  Chunker.bufEnd c1 = len (Chunker.buf c1)))))).
    { intros H. inversion H; subst. fields.
      rewrite (wrap_id (avail + len bs)) by (unfold len in *; lia).
      split; [unfold same_config; fields; rewrite Hlen2; tauto|].
      split; [reflexivity|]. right. split; [lia|]. split; [reflexivity|].
      rewrite Hlen2. split; [unfold len in *; lia|]. left. split; reflexivity. }
    destruct e as [[| | |]|]; fields;
      first [exact Heof | apply (Hfin _ eq_refl eq_refl)].
Qed.

(** A call of [Next] on a window of at least [maxSize] bytes. *)
Lemma Next_buffered (c : Chunker.t) :
  configured c ->
  0 <= Chunker.bufCursor c <= Chunker.bufEnd c ->
  Chunker.bufEnd c <= len (Chunker.buf c) ->
  Chunker.maxSize c <= Chunker.bufEnd c - Chunker.bufCursor c ->
  0 <= Chunker.streamPos c -> Chunker.streamPos c + Chunker.maxSize c < 2 ^ 63 ->
  exists ch c',
    Chunker.Next c = Some (ch, None, c') /\
    Chunker.reader c' = Chunker.reader c /\
    Chunker.buf c' = Chunker.buf c /\
    Chunker.readerEOF c' = Chunker.readerEOF c /\
    Chunker.bufEnd c' = Chunker.bufEnd c /\
    Chunker.bufCursor c' = Chunker.bufCursor c + Length ch /\
    Offset ch = Chunker.streamPos c /\
    round_even (Chunker.minSize c) <= Length ch <= Chunker.maxSize c /\
    Data ch = firstn (Z.to_nat (Length ch)) (window c).
Proof.
  intros [Hmin Havg Hmax Hbuf] Hcur Hend Hfull Hp0 Hp1.
  pose proof (len_window c Hcur Hend) as HW.
  unfold Chunker.Next, Chunker.fillBuffer, GoInt.sub.
  rewrite (wrap_id (Chunker.bufEnd c - Chunker.bufCursor c)) by lia.
  destruct (Z.geb_spec (Chunker.bufEnd c - Chunker.bufCursor c) (Chunker.maxSize c))
    as [Hge|Hlt]; [|lia].
  destruct (Z.eqb_spec (Chunker.bufEnd c) 0) as [Hz|Hz]; [lia|].
  rewrite (slice_ok (Chunker.buf c) (Chunker.bufCursor c) (Chunker.bufEnd c)) by lia.
  fold (window c).
  rewrite cut_reference_correct by lia.
  destruct (cut_reference c _ _ _ (window c)) as [l fp] eqn:E.
  apply cut_reference_bounds in E; try lia.
  pose proof (round_even_bounds (Chunker.minSize c)) as Hre.
  unfold GoInt.add.
  rewrite (wrap_id (Chunker.bufCursor c + l)) by lia.
  rewrite (slice_ok (Chunker.buf c) (Chunker.bufCursor c) (Chunker.bufCursor c + l)) by lia.
  cbv zeta. fields.
  rewrite (wrap_id (Chunker.streamPos c + l)) by lia.
  eexists _, _. split; [reflexivity|]. fields. cbn [Offset Length Data].
  repeat split; try reflexivity; try lia.
  unfold window. rewrite firstn_firstn. f_equal. lia.
Qed.


(** When the source was seen to end and the window starts the buffer,
    [fillBuffer] changes nothing. *)
Lemma overwrite_self (b : list byte) (k : nat) :
  overwrite b 0 (firstn k b) = b.
Proof.
  unfold overwrite. cbn [Z.to_nat firstn app Nat.add].
  rewrite length_firstn.
  destruct (Nat.le_ge_cases k (List.length b)) as [H|H].
  - rewrite Nat.min_l by exact H. apply firstn_skipn.
  - rewrite Nat.min_r by exact H. rewrite firstn_all2 by exact H.
    rewrite skipn_all. apply app_nil_r.
Qed.

Lemma fillBuffer_idle (c : Chunker.t) :
  Chunker.bufCursor c = 0 ->
  0 <= Chunker.bufEnd c <= len (Chunker.buf c) ->
  len (Chunker.buf c) < 2 ^ 63 ->
  Chunker.readerEOF c = true \/ Chunker.maxSize c <= Chunker.bufEnd c ->
  Chunker.fillBuffer c = Some (None, c).
Proof.
  intros Hcur Hend Hlen Hcase.
  destruct c as [mn mx nz ms ml mss mls g gs rd buf cur en pos eof]. fields.
  subst cur. unfold Chunker.fillBuffer, GoInt.sub. fields.
  rewrite Z.sub_0_r, (wrap_id en) by lia.
  destruct (Z.geb_spec en mx) as [Hge|Hlt]; [reflexivity|].
  destruct Hcase as [->|Hge]; [|lia].
  rewrite (slice_ok buf 0 en) by lia.
  rewrite (slice_ok buf 0 (len buf)) by lia.
  cbv zeta. fields.
  rewrite !Z.sub_0_r. cbn [Z.to_nat skipn].
  rewrite firstn_firstn, overwrite_self. reflexivity.
Qed.

(** [Next] after a fill that needs no further fill. *)
Lemma Next_filled (c c1 : Chunker.t) :
  Chunker.fillBuffer c = Some (None, c1) ->
  Chunker.fillBuffer c1 = Some (None, c1) ->
  Chunker.Next c = Chunker.Next c1.
Proof. intros E E1. unfold Chunker.Next. now rewrite E, E1. Qed.

(** Once the end of the source was seen the reader plays no part. *)
Lemma fillBuffer_readerEOF (c : Chunker.t) (r : io.Reader) :
  Chunker.readerEOF c = true ->
  Chunker.fillBuffer (Chunker.set_reader c r)
  = match Chunker.fillBuffer c with
    | Some (err, c') => Some (err, Chunker.set_reader c' r)
    | None => None
    end /\
  (forall err c', Chunker.fillBuffer c = Some (err, c') ->
                  err = None /\ Chunker.readerEOF c' = true).
Proof.
  intros Heof.
  destruct c as [mn mx nz ms ml mss mls g gs rd buf cur en pos eof]. fields.
  subst eof. unfold Chunker.fillBuffer. fields.
  destruct (_ >=? _).
  - split; [reflexivity|]. intros err c' H. inversion H; subst. split; reflexivity.
  - destruct (slice buf 0 _) as [dst|]; [|split; [reflexivity|discriminate]].
    destruct (slice buf cur _) as [src|]; [|split; [reflexivity|discriminate]].
    cbv zeta. fields.
    split; [reflexivity|]. intros err c' H. inversion H; subst. split; reflexivity.
Qed.

Lemma Next_readerEOF (c : Chunker.t) (r : io.Reader) :
  Chunker.readerEOF c = true ->
  Chunker.Next (Chunker.set_reader c r)
  = match Chunker.Next c with
    | Some (ch, err, c') => Some (ch, err, Chunker.set_reader c' r)
    | None => None
    end /\
  (forall ch err c', Chunker.Next c = Some (ch, err, c') -> Chunker.readerEOF c' = true).
Proof.
  intros Heof.
  destruct (fillBuffer_readerEOF c r Heof) as [E Hkeep].
  unfold Chunker.Next. rewrite E.
  destruct (Chunker.fillBuffer c) as [[err c1]|]; [|split; [reflexivity|discriminate]].
  destruct (Hkeep err c1 eq_refl) as [-> Heof1].
  destruct c1 as [mn mx nz ms ml mss mls g gs rd buf cur en pos eof]. fields.
  subst eof.
  destruct (en =? 0).
  - split; [reflexivity|]. intros ch err c' H. inversion H; subst. reflexivity.
  - destruct (slice buf cur en) as [data|]; [|split; [reflexivity|discriminate]].
    change (Chunker.cut (Chunker.mk mn mx nz ms ml mss mls g gs r buf cur en pos true) data)
      with (Chunker.cut (Chunker.mk mn mx nz ms ml mss mls g gs rd buf cur en pos true) data).
    destruct (Chunker.cut _ data) as [[l fp]|]; [|split; [reflexivity|discriminate]].
    destruct (slice buf cur _) as [view|]; [|split; [reflexivity|discriminate]].
    cbv zeta. fields.
    split; [reflexivity|]. intros ch err c' H. inversion H; subst. reflexivity.
Qed.

Lemma drain_readerEOF (r : io.Reader) : forall (fuel : nat) (c : Chunker.t),
  Chunker.readerEOF c = true ->
  drain fuel (Chunker.set_reader c r)
  = match drain fuel c with
    | Some (cs, err, c') => Some (cs, err, Chunker.set_reader c' r)
    | None => None
    end.
Proof.
  induction fuel as [|fuel IH]; intros c Heof; [reflexivity|].
  rewrite !drain_eq.
  destruct (Next_readerEOF c r Heof) as [E Hkeep]. rewrite E.
  destruct (Chunker.Next c) as [[[ch err] c1]|]; [|reflexivity].
  destruct err as [e|].
  - destruct e; reflexivity.
  - rewrite (IH c1 (Hkeep ch None c1 eq_refl)).
    destruct (drain fuel c1) as [[[cs err] c2]|]; reflexivity.
Qed.

(** [fillBuffer] on a reader whose calls deliver and then fail. *)
Lemma fillBuffer_fail (c : Chunker.t) (ns : list nat) (n : nat) (e : error)
  (rest : list io.ReadStep) :
  buffered c ->
  Chunker.readerEOF c = false ->
  Chunker.bufEnd c - Chunker.bufCursor c < Chunker.maxSize c ->
  io.script (Chunker.reader c) = map io.Deliver ns ++ io.Fail n e :: rest ->
  Z.of_nat (delivered ns)
  < len (Chunker.buf c) - (Chunker.bufEnd c - Chunker.bufCursor c) ->
  Z.of_nat (delivered ns + n)
  <= len (Chunker.buf c) - (Chunker.bufEnd c - Chunker.bufCursor c) ->
  (delivered ns + n <= List.length (io.pending (Chunker.reader c)))%nat ->
  exists buf',
    len buf' = len (Chunker.buf c) /\
    firstn (Z.to_nat (Chunker.bufEnd c - Chunker.bufCursor c) + (delivered ns + n)) buf'
    = window c ++ firstn (delivered ns + n) (io.pending (Chunker.reader c)) /\
    Chunker.fillBuffer c
    = let c1 :=
        Chunker.set_reader (Chunker.set_buf (Chunker.set_bufCursor c 0) buf')
          (io.mkReader (skipn (delivered ns + n) (io.pending (Chunker.reader c))) rest) in
      if Z.of_nat (delivered ns + n)
         =? len (Chunker.buf c) - (Chunker.bufEnd c - Chunker.bufCursor c)
      then Some (None, c1)
      else match e with
           | EOF | ErrUnexpectedEOF =>
             Some (None,
                   Chunker.set_readerEOF
                     (Chunker.set_bufEnd c1
                        (Chunker.bufEnd c - Chunker.bufCursor c
                         + Z.of_nat (delivered ns + n))) true)
           | _ => Some (Some e, c1)
           end.
Proof.
  intros [[Hmin Havg Hmax Hbuf] [Hcur Hend] Hfull Hpos] Heof Havail Hscript Hreach Hroom Hp.
  pose proof (len_window c Hcur Hend) as HW.
  unfold Chunker.fillBuffer, GoInt.sub, GoInt.add.
  rewrite (wrap_id (Chunker.bufEnd c - Chunker.bufCursor c)) by lia.
  destruct (Z.geb_spec (Chunker.bufEnd c - Chunker.bufCursor c) (Chunker.maxSize c))
    as [Hge|Hlt]; [lia|].
  set (avail := Chunker.bufEnd c - Chunker.bufCursor c) in *.
  rewrite (slice_ok (Chunker.buf c) 0 avail) by lia.
  rewrite (slice_ok (Chunker.buf c) (Chunker.bufCursor c) (len (Chunker.buf c))) by lia.
  cbv zeta.
  assert (Hsrc : firstn
            (Nat.min
               (List.length (firstn (Z.to_nat (avail - 0)) (skipn (Z.to_nat 0) (Chunker.buf c))))
               (List.length (firstn (Z.to_nat (len (Chunker.buf c) - Chunker.bufCursor c))
                          (skipn (Z.to_nat (Chunker.bufCursor c)) (Chunker.buf c)))))
            (firstn (Z.to_nat (len (Chunker.buf c) - Chunker.bufCursor c))
               (skipn (Z.to_nat (Chunker.bufCursor c)) (Chunker.buf c)))
          = window c).
  { unfold window. fold avail. rewrite firstn_firstn. f_equal.
    unfold len in *. rewrite !length_firstn, !length_skipn. cbn [Z.to_nat skipn]. lia. }
  rewrite Hsrc. clear Hsrc.
  set (buf1 := overwrite (Chunker.buf c) 0 (window c)).
  assert (Hlen1 : len buf1 = len (Chunker.buf c))
    by (apply overwrite_len; lia).
  assert (Hwin1 : firstn (Z.to_nat avail) buf1 = window c).
  { unfold buf1. replace avail with (0 + len (window c)) by lia.
    rewrite overwrite_window by lia. reflexivity. }
  destruct c as [mn mx nz ms ml mss mls g gs rd buf cur en pos eof].
  fields. subst eof.
  set (W := window (Chunker.mk mn mx nz ms ml mss mls g gs rd buf cur en pos false)) in *.
  destruct rd as [p s]. cbn [io.script io.pending] in *. subst s.
  rewrite (slice_ok buf1 avail (len buf1)) by lia.
  set (k := List.length (firstn (Z.to_nat (len buf1 - avail)) (skipn (Z.to_nat avail) buf1))).
  assert (Hk : Z.of_nat k = len buf - avail).
  { unfold k, len in *. rewrite length_firstn, length_skipn. lia. }
  rewrite ReadFull_fail by lia.
  set (total := (delivered ns + n)%nat) in *.
  set (bs := firstn total p).
  assert (Hbs : len bs = Z.of_nat total)
    by (unfold bs, len; rewrite length_firstn; lia).
  set (buf2 := overwrite buf1 avail bs).
  assert (Hlen2 : len buf2 = len buf) by (unfold buf2; rewrite overwrite_len; lia).
  assert (Hwin2 : firstn (Z.to_nat (avail + len bs)) buf2 = W ++ bs).
  { unfold buf2. rewrite overwrite_window by lia. now rewrite Hwin1. }
  exists buf2. split; [exact Hlen2|]. split.
  { rewrite <- Hwin2, Hbs. f_equal. lia. }
  destruct (Z.eqb_spec (Z.of_nat total) (len buf - avail)) as [Hfill|Hshort].
  - replace (k <=? total)%nat with true by (symmetry; apply Nat.leb_le; lia).
    reflexivity.
  - replace (k <=? total)%nat with false by (symmetry; apply Nat.leb_gt; lia).
    rewrite Hbs.
    rewrite (wrap_id (avail + Z.of_nat total)) by lia.
    destruct e; try reflexivity;
      destruct (0 <? total)%nat; reflexivity.
Qed.

(** * The claims *)

Ltac evaluate := vm_compute; repeat split; try reflexivity; try discriminate.

Lemma configured_same_config (c d : Chunker.t) :
  same_config c d -> configured c -> configured d.
Proof.
  intros (E1 & E2 & E3 & _ & _ & _ & _ & _ & _ & E10) [Hmin Havg Hmax Hbuf].
  constructor; rewrite <- ?E1, <- ?E2, <- ?E3, <- ?E10; assumption.
Qed.

(** C1. For every byte region longer than [minSize], the cut-point finder
    of a chunker that [NewChunker] returned gives exactly the result of
    the two-phase reference algorithm: the boundaries
    [min(len, maxSize)] and [min(maxBoundary, averageSize)], all three
    rounded down to even, one scan of the byte pairs from the rounded
    [minSize] with the small masks before the rounded normalize boundary
    and the large masks from there on, and the unrounded [maxBoundary]
    with the accumulated fingerprint when no test fires. *)
Theorem cut_matches_reference (rd : io.Reader) (averageSize : Z) (opts : list Option)
  (c : Chunker.t) (region : list byte) :
  NewChunker rd averageSize opts = Some (Some c, None) ->
  Chunker.minSize c < len region ->
  Chunker.cut c region
  = Some (cut_reference c (Chunker.minSize c)
            (options.averageSize (resolve averageSize opts)) (Chunker.maxSize c) region).
Proof.
  intros HN Hlen.
  destruct (NewChunker_cases rd averageSize opts)
    as [(err & E & _)|[(E & _)|(c' & E & Hacc & Hc)]];
    rewrite E in HN; inversion HN; subst c'.
  destruct Hc as (Hmn & Hmx & Hns & _).
  destruct Hacc as (_ & _ & Hmin & _ & Hlt & Havg & _).
  rewrite <- Hns. apply cut_reference_correct; rewrite ?Hmn, ?Hmx, ?Hns; lia.
Qed.

Lemma cut_matches_reference_witness :
  Chunker.cut example_chunker (zeros 64 ++ [xf8] ++ zeros 135)
  = Some (cut_reference example_chunker (Chunker.minSize example_chunker)
            (options.averageSize (resolve 128 example_options))
            (Chunker.maxSize example_chunker) (zeros 64 ++ [xf8] ++ zeros 135)).
Proof.
  apply (cut_matches_reference example_reader 128 example_options example_chunker);
    evaluate.
Defined.

(** C10. For every seed (0 included) and every byte [b], the shifted gear
    table of the chunker holds at [b] the entry of its base table shifted
    left by one bit modulo [2^64]:
    [(gear[b] ^ seed) << 1 = (gear[b] << 1) ^ (seed << 1)]; and so the
    two-bytes-per-iteration recurrence is two steps of the gear hash. *)
Theorem seeded_tables_shifted (rd : io.Reader) (averageSize : Z) (opts : list Option)
  (c : Chunker.t) (b : byte) :
  NewChunker rd averageSize opts = Some (Some c, None) ->
  let seed := options.seed (resolve averageSize opts) in
  at_byte (Chunker.gear c) b = Z.lxor (at_byte gear b) seed /\
  at_byte (Chunker.gearShifted c) b
  = Z.lxor (U64.shl (at_byte gear b) 1) (U64.shl seed 1) /\
  at_byte (Chunker.gearShifted c) b = U64.shl (at_byte (Chunker.gear c) b) 1 /\
  forall fp b', U64.add (U64.add (U64.shl fp 2) (at_byte (Chunker.gearShifted c) b))
                        (at_byte (Chunker.gear c) b')
                = U64.add (U64.shl (U64.add (U64.shl fp 1) (at_byte (Chunker.gear c) b)) 1)
                          (at_byte (Chunker.gear c) b').
Proof.
  intros HN seed.
  destruct (NewChunker_cases rd averageSize opts)
    as [(err & E & _)|[(E & _)|(c' & E & _ & Hc)]];
    rewrite E in HN; inversion HN; subst c'.
  destruct Hc as (_ & _ & _ & Hg & Hgs & _). fold seed in Hg, Hgs.
  assert (Hb : (N.to_nat (Byte.to_N b) < 256)%nat).
  { pose proof (Byte.to_N_bounded b). lia. }
  assert (H1 : at_byte (Chunker.gear c) b = Z.lxor (at_byte gear b) seed).
  { rewrite Hg. unfold at_byte.
    rewrite (nth_indep _ 0 (Z.lxor 0 seed))
      by (rewrite length_map; exact Hb).
    apply (map_nth (fun g => Z.lxor g seed)). }
  assert (H2 : at_byte (Chunker.gearShifted c) b
               = Z.lxor (U64.shl (at_byte gear b) 1) (U64.shl seed 1)).
  { rewrite Hgs. unfold at_byte, gearShifted. rewrite map_map.
    rewrite (nth_indep _ 0 (Z.lxor (U64.shl 0 1) (U64.shl seed 1)))
      by (rewrite length_map; exact Hb).
    apply (map_nth (fun g => Z.lxor (U64.shl g 1) (U64.shl seed 1))). }
  assert (H3 : at_byte (Chunker.gearShifted c) b = U64.shl (at_byte (Chunker.gear c) b) 1)
    by (rewrite H1, H2; apply shl_lxor).
  repeat split; try assumption.
  intros fp b'. rewrite H3. apply two_bytes_at_once.
Qed.

Lemma seeded_tables_shifted_witness :
  at_byte (Chunker.gearShifted example_chunker) xf8
  = U64.shl (at_byte (Chunker.gear example_chunker) xf8) 1.
Proof.
  apply (seeded_tables_shifted example_reader 128 example_options example_chunker xf8).
  evaluate.
Defined.

(** C7 (as amended). [NewChunker] returns a chunker, and never an error
    with it, only when the resolved configuration satisfies
    [minSize <= averageSize <= maxSize < bufferSize] and
    [minSize < maxSize], with [averageSize] a power of two, the three sizes
    within [64B, 1GiB], the normalization in 0..3 when enabled and
    [log2(averageSize) +- normalization] within [5, 25]; on a
    configuration that violates one of these it returns an error and no
    chunker.  It never reads from the source: the chunker holds the reader
    as it was given. *)
Theorem NewChunker_accepts (rd : io.Reader) (averageSize : Z) (opts : list Option) :
  (forall c, NewChunker rd averageSize opts = Some (Some c, None) ->
             accepted (resolve averageSize opts) /\ Chunker.reader c = rd) /\
  (~ accepted (resolve averageSize opts) ->
   exists err, NewChunker rd averageSize opts = Some (None, Some err)) /\
  (forall c err, NewChunker rd averageSize opts <> Some (Some c, Some err)).
Proof.
  destruct (NewChunker_cases rd averageSize opts)
    as [(err & E & Hn)|[(E & Hacc & _)|(c' & E & Hacc & Hc)]].
  - split; [|split].
    + intros c H. rewrite E in H. discriminate.
    + intros _. now exists err.
    + intros c err' H. rewrite E in H. discriminate.
  - split; [|split].
    + intros c H. rewrite E in H. discriminate.
    + intros H. contradiction.
    + intros c err' H. rewrite E in H. discriminate.
  - split; [|split].
    + intros c H. rewrite E in H. inversion H; subst c'. split; [exact Hacc|]. apply Hc.
    + intros H. contradiction.
    + intros c err' H. rewrite E in H. discriminate.
Qed.

Lemma NewChunker_accepts_witness :
  accepted (resolve 128 example_options) /\ Chunker.reader example_chunker = example_reader.
Proof.
  refine (proj1 (NewChunker_accepts example_reader 128 example_options) example_chunker _).
  vm_compute. reflexivity.
Defined.

(** C7 as stated fails: [minSize = averageSize] is accepted, so the
    resolved configuration of a returned chunker need not satisfy
    [minSize < averageSize]. *)
Lemma NewChunker_accepts_equal_minSize :
  exists c, NewChunker example_reader 128 [WithMinSize 128] = Some (Some c, None) /\
            ~ options.minSize (resolve 128 [WithMinSize 128])
              < options.averageSize (resolve 128 [WithMinSize 128]).
Proof.
  eexists. split; [vm_compute; reflexivity|]. vm_compute. discriminate.
Qed.

(** The chunks that the loop of a caller obtains from a chunker in a state
    that satisfies the buffer invariant. *)
Lemma drain_chunking (c : Chunker.t) :
  buffered c -> delivers (Chunker.reader c) ->
  exists cs c',
    drain (S (List.length (remaining c))) c = Some (cs, None, c') /\
    chunking c (Chunker.streamPos c) (remaining c) cs.
Proof.
  intros Hb Hd.
  destruct (drain_delivers (List.length (remaining c)) c Hb Hd) as (cs & c' & E & Hch & _);
    [unfold len; lia|].
  now exists cs, c'.
Qed.

Lemma NewChunker_drain (rd : io.Reader) (averageSize : Z) (opts : list Option)
  (c : Chunker.t) :
  NewChunker rd averageSize opts = Some (Some c, None) ->
  delivers rd ->
  is_int (options.bufSize (resolve averageSize opts)) ->
  len (io.pending rd) < 2 ^ 63 ->
  buffered c /\
  exists cs c',
    drain (S (List.length (io.pending rd))) c = Some (cs, None, c') /\
    chunking c 0 (io.pending rd) cs.
Proof.
  intros HN Hd Hint Hlen.
  destruct (NewChunker_buffered rd averageSize opts c HN Hint Hlen)
    as (Hb & Hr & Hp & Hrd).
  split; [exact Hb|].
  destruct (drain_chunking c Hb) as (cs & c' & E & Hch); [now rewrite Hrd|].
  rewrite Hr, Hp in *. now exists cs, c'.
Qed.

(** C2. For every finite stream (the empty one included) and every
    configuration that [NewChunker] accepts, the [Data] of the chunks that
    successive calls of [Next] return until the end of the stream,
    concatenated in order (each taken when its call returns), are the bytes
    of the stream; on the empty stream the first call signals the end of
    the stream and there is no chunk. *)
Theorem reconstruction (rd : io.Reader) (averageSize : Z) (opts : list Option)
  (c : Chunker.t) :
  NewChunker rd averageSize opts = Some (Some c, None) ->
  delivers rd ->
  is_int (options.bufSize (resolve averageSize opts)) ->
  len (io.pending rd) < 2 ^ 63 ->
  exists cs c',
    drain (S (List.length (io.pending rd))) c = Some (cs, None, c') /\
    List.concat (map Data cs) = io.pending rd /\
    (io.pending rd = [] ->
     cs = [] /\ exists c1, Chunker.Next c = Some (zeroChunk, Some EOF, c1)).
Proof.
  intros HN Hd Hint Hlen.
  destruct (NewChunker_drain rd averageSize opts c HN Hd Hint Hlen)
    as (Hb & cs & c' & E & Hch).
  exists cs, c'. split; [exact E|]. split; [eapply chunking_concat; exact Hch|].
  intros Hnil. rewrite Hnil in Hch. split.
  - inversion Hch; [reflexivity|congruence].
  - destruct (NewChunker_buffered rd averageSize opts c HN Hint Hlen)
      as (_ & Hr & _ & Hrd).
    destruct (Next_delivers c Hb) as (c1 & _ & _ & _ & Hcase); [now rewrite Hrd|].
    destruct Hcase as [(_ & EN & _)|(Hne & _)]; [now exists c1|].
    rewrite Hr in Hne. contradiction.
Qed.

Lemma reconstruction_witness :
  exists cs c',
    drain (S (List.length (io.pending example_reader))) example_chunker
    = Some (cs, None, c') /\
    List.concat (map Data cs) = io.pending example_reader /\
    (io.pending example_reader = [] ->
     cs = [] /\ exists c1, Chunker.Next example_chunker = Some (zeroChunk, Some EOF, c1)).
Proof.
  apply (reconstruction example_reader 128 example_options example_chunker).
  - vm_compute. reflexivity.
  - intros n e H. vm_compute in H. intuition discriminate.
  - unfold is_int. vm_compute. split; [discriminate|reflexivity].
  - vm_compute. reflexivity.
Defined.

(** C5. The chunks of successive calls of [Next], from the construction
    or from the last [Reset], have contiguous offsets: the first chunk has
    offset 0, every other chunk starts where the previous one ends, and no
    chunk is empty. *)
Theorem offsets_contiguous (rd : io.Reader) (averageSize : Z) (opts : list Option)
  (c : Chunker.t) :
  NewChunker rd averageSize opts = Some (Some c, None) ->
  delivers rd ->
  is_int (options.bufSize (resolve averageSize opts)) ->
  len (io.pending rd) < 2 ^ 63 ->
  (exists cs c',
     drain (S (List.length (io.pending rd))) c = Some (cs, None, c') /\
     contiguous 0 cs) /\
  (forall (d : Chunker.t) (rd' : io.Reader),
     same_config c d -> delivers rd' -> len (io.pending rd') < 2 ^ 63 ->
     exists cs d',
       drain (S (List.length (io.pending rd'))) (Chunker.Reset d rd') = Some (cs, None, d') /\
       contiguous 0 cs).
Proof.
  intros HN Hd Hint Hlen.
  destruct (NewChunker_drain rd averageSize opts c HN Hd Hint Hlen)
    as (Hb & cs & c' & E & Hch).
  split.
  - exists cs, c'. split; [exact E|]. eapply chunking_contiguous; exact Hch.
  - intros d rd' Hs Hd' Hlen'.
    destruct (Reset_buffered d rd') as (Hbd & _ & Hr & Hp & Hrd);
      [apply (configured_same_config c d Hs), Hb|exact Hlen'|].
    destruct (drain_chunking (Chunker.Reset d rd') Hbd) as (cs' & d' & E' & Hch');
      [now rewrite Hrd|].
    rewrite Hr, Hp in *. exists cs', d'. split; [exact E'|].
    eapply chunking_contiguous; exact Hch'.
Qed.

Lemma offsets_contiguous_witness :
  exists cs c',
    drain (S (List.length (io.pending example_reader))) example_chunker
    = Some (cs, None, c') /\
    contiguous 0 cs.
Proof.
  refine (proj1 (offsets_contiguous example_reader 128 example_options example_chunker
                   _ _ _ _)).
  - vm_compute. reflexivity.
  - intros n e H. vm_compute in H. intuition discriminate.
  - unfold is_int. vm_compute. split; [discriminate|reflexivity].
  - vm_compute. reflexivity.
Defined.

(** C4. Two chunkers with the same configuration, whose sources deliver
    the same bytes in different pieces, produce the same sequence of
    (Offset, Length, Fingerprint), and the same bytes. *)
Theorem determinism (rd1 rd2 : io.Reader) (averageSize : Z) (opts : list Option)
  (c1 c2 : Chunker.t) :
  NewChunker rd1 averageSize opts = Some (Some c1, None) ->
  NewChunker rd2 averageSize opts = Some (Some c2, None) ->
  io.pending rd1 = io.pending rd2 ->
  delivers rd1 -> delivers rd2 ->
  is_int (options.bufSize (resolve averageSize opts)) ->
  len (io.pending rd1) < 2 ^ 63 ->
  exists cs1 cs2 c1' c2',
    drain (S (List.length (io.pending rd1))) c1 = Some (cs1, None, c1') /\
    drain (S (List.length (io.pending rd2))) c2 = Some (cs2, None, c2') /\
    map signature cs1 = map signature cs2 /\
    map Data cs1 = map Data cs2.
Proof.
  intros HN1 HN2 Hp Hd1 Hd2 Hint Hlen.
  destruct (NewChunker_drain rd1 averageSize opts c1 HN1 Hd1 Hint Hlen)
    as (_ & cs1 & c1' & E1 & Hch1).
  destruct (NewChunker_drain rd2 averageSize opts c2 HN2 Hd2 Hint)
    as (_ & cs2 & c2' & E2 & Hch2); [now rewrite <- Hp|].
  exists cs1, cs2, c1', c2'. split; [exact E1|]. split; [exact E2|].
  assert (Hs : same_config c1 c2).
  { rewrite (NewChunker_reader rd1 rd2 averageSize opts c1 c2 HN1 HN2).
    apply set_reader_same_config. }
  rewrite <- Hp in Hch2.
  rewrite (chunking_functional c2 0 (io.pending rd1) cs1
             (chunking_same_config c1 c2 _ _ _ Hs Hch1) cs2 Hch2).
  split; reflexivity.
Qed.

Lemma determinism_witness :
  exists cs1 cs2 c1' c2',
    drain (S (List.length (io.pending example_reader))) example_chunker
    = Some (cs1, None, c1') /\
    drain (S (List.length (io.pending example_reader')))
      (chunker_of (NewChunker example_reader' 128 example_options))
    = Some (cs2, None, c2') /\
    map signature cs1 = map signature cs2 /\
    map Data cs1 = map Data cs2.
Proof.
  apply (determinism example_reader example_reader' 128 example_options).
  - vm_compute. reflexivity.
  - vm_compute. reflexivity.
  - reflexivity.
  - intros n e H. vm_compute in H. intuition discriminate.
  - intros n e H. vm_compute in H. intuition discriminate.
  - unfold is_int. vm_compute. split; [discriminate|reflexivity].
  - vm_compute. reflexivity.
Defined.

(** C9. Whatever the state of a chunker (in the middle of a stream, after
    its end, after an error, with old bytes in its buffer), [Reset] with a
    source and then [Next] until the end of the stream gives the same
    chunks (Offset, Length, Data, Fingerprint) as a newly constructed
    chunker with the same configuration on the same bytes. *)
Theorem reset_equivalence (rd : io.Reader) (averageSize : Z) (opts : list Option)
  (fresh c : Chunker.t) (rd' : io.Reader) :
  NewChunker rd averageSize opts = Some (Some fresh, None) ->
  same_config fresh c ->
  io.pending rd' = io.pending rd ->
  delivers rd -> delivers rd' ->
  is_int (options.bufSize (resolve averageSize opts)) ->
  len (io.pending rd) < 2 ^ 63 ->
  exists cs c1 c2,
    drain (S (List.length (io.pending rd))) (Chunker.Reset c rd') = Some (cs, None, c1) /\
    drain (S (List.length (io.pending rd))) fresh = Some (cs, None, c2).
Proof.
  intros HN Hs Hp Hd Hd' Hint Hlen.
  destruct (NewChunker_drain rd averageSize opts fresh HN Hd Hint Hlen)
    as (Hb & cs & c2 & E & Hch).
  destruct (Reset_buffered c rd') as (Hbc & Hsc & Hr & Hpos & Hrd);
    [apply (configured_same_config fresh c Hs), Hb|now rewrite Hp|].
  destruct (drain_chunking (Chunker.Reset c rd') Hbc) as (cs' & c1 & E' & Hch');
    [now rewrite Hrd|].
  rewrite Hr, Hpos, Hp in *.
  assert (Heq : cs' = cs).
  { apply (chunking_functional fresh 0 (io.pending rd)); [|exact Hch].
    apply (chunking_same_config (Chunker.Reset c rd') fresh); [|exact Hch'].
    apply same_config_sym. eapply same_config_trans; eassumption. }
  subst cs'. exists cs, c1, c2. split; [exact E'|exact E].
Qed.

Lemma reset_equivalence_witness :
  exists cs c1 c2,
    drain (S (List.length (io.pending example_reader)))
      (Chunker.Reset (Chunker.set_streamPos (Chunker.set_bufCursor example_chunker 5) 77)
         example_reader')
    = Some (cs, None, c1) /\
    drain (S (List.length (io.pending example_reader))) example_chunker
    = Some (cs, None, c2).
Proof.
  apply (reset_equivalence example_reader 128 example_options example_chunker
           (Chunker.set_streamPos (Chunker.set_bufCursor example_chunker 5) 77)
           example_reader').
  - vm_compute. reflexivity.
  - vm_compute. repeat split; reflexivity.
  - reflexivity.
  - intros n e H. vm_compute in H. intuition discriminate.
  - intros n e H. vm_compute in H. intuition discriminate.
  - unfold is_int. vm_compute. split; [discriminate|reflexivity].
  - vm_compute. reflexivity.
Defined.

(** C6. A region of at most [minSize] bytes is returned whole by the
    cut-point finder, with fingerprint 0; after [fillBuffer] the window is
    that short only when it holds all that remains of the stream; and a
    stream of at most [minSize] bytes gives exactly one chunk, the whole
    stream, with fingerprint 0 (the empty stream, which gives no chunk,
    apart). *)
Theorem short_region_is_terminal (rd : io.Reader) (averageSize : Z) (opts : list Option)
  (c : Chunker.t) :
  NewChunker rd averageSize opts = Some (Some c, None) ->
  delivers rd ->
  is_int (options.bufSize (resolve averageSize opts)) ->
  len (io.pending rd) < 2 ^ 63 ->
  (forall region, len region <= Chunker.minSize c ->
     Chunker.cut c region = Some (len region, 0)) /\
  (forall d d1, same_config c d -> buffered d -> delivers (Chunker.reader d) ->
     Chunker.fillBuffer d = Some (None, d1) ->
     len (window d1) <= Chunker.minSize c ->
     window d1 = remaining d) /\
  (io.pending rd <> [] -> len (io.pending rd) <= Chunker.minSize c ->
   exists c',
     drain (S (List.length (io.pending rd))) c
     = Some ([mkChunk 0 (len (io.pending rd)) (io.pending rd) 0], None, c')).
Proof.
  intros HN Hd Hint Hlen.
  destruct (NewChunker_drain rd averageSize opts c HN Hd Hint Hlen)
    as (Hb & cs & c' & E & Hch).
  pose proof (buf_cfg c Hb) as Hcfg.
  split; [|split].
  - intros region Hr. now apply cut_short.
  - intros d d1 Hs Hbd Hdd Hfill Hshort.
    destruct (fillBuffer_delivers d Hbd Hdd) as (d' & E' & _ & _ & _ & _ & _ & _ & Hw).
    rewrite E' in Hfill. inversion Hfill; subst d'.
    destruct Hw as [Hw|Hw]; [|exact Hw].
    destruct Hs as (_ & Hmx & _). pose proof (cfg_max c Hcfg). lia.
  - intros Hne Hshort. exists c'. rewrite E. do 3 f_equal.
    inversion Hch as [|pos rest l fp cs' Hne' Hcut Hl Hrest]; subst; [congruence|].
    destruct (next_cut_spec c (io.pending rd) Hcfg) as (l' & fp' & E' & Hcase).
    rewrite Hcut in E'. inversion E'; subst l' fp'.
    destruct Hcase as [(_ & -> & ->)|(Hlong & _)]; [|lia].
    rewrite skipn_all2 in Hrest by (unfold len; lia).
    rewrite firstn_all2 by (unfold len; lia).
    inversion Hrest; [reflexivity|congruence].
Qed.

Lemma short_region_is_terminal_witness :
  exists c',
    drain (S (List.length (io.pending short_reader)))
      (chunker_of (NewChunker short_reader 128 example_options))
    = Some ([mkChunk 0 (len (io.pending short_reader)) (io.pending short_reader) 0],
            None, c').
Proof.
  refine (proj2 (proj2 (short_region_is_terminal short_reader 128 example_options
                          (chunker_of (NewChunker short_reader 128 example_options))
                          _ _ _ _)) _ _).
  - vm_compute. reflexivity.
  - intros n e H. vm_compute in H. intuition discriminate.
  - unfold is_int. vm_compute. split; [discriminate|reflexivity].
  - vm_compute. reflexivity.
  - discriminate.
  - vm_compute. discriminate.
Defined.

(** C3, on the code.  With an odd [minSize] the scan starts one byte
    early: with [minSize = 65] the first chunk of this stream of 165 bytes
    has 64 bytes, and it is not the last chunk. *)
Theorem odd_minSize_chunk_below_minSize :
  let rd := io.mkReader (zeros 64 ++ [xf8] ++ zeros 100) [] in
  let c := chunker_of (NewChunker rd 128 [WithMinSize 65]) in
  NewChunker rd 128 [WithMinSize 65] = Some (Some c, None) /\
  Chunker.minSize c = 65 /\
  option_map (fun r => map signature (fst (fst r))) (drain 3 c)
  = Some [(0, 64, 17743298824083081062); (64, 101, 14737538586089998372)].
Proof. vm_compute. repeat split; reflexivity. Qed.

(** X14. The bounds on the lengths that hold for every configuration:
    every chunk has at most [maxSize] bytes and at least one, and every
    chunk but the last has at least [minSize] rounded down to even, which
    is [minSize] when it is even. *)
Theorem chunk_bounds (rd : io.Reader) (averageSize : Z) (opts : list Option)
  (c : Chunker.t) :
  NewChunker rd averageSize opts = Some (Some c, None) ->
  delivers rd ->
  is_int (options.bufSize (resolve averageSize opts)) ->
  len (io.pending rd) < 2 ^ 63 ->
  exists cs c',
    drain (S (List.length (io.pending rd))) c = Some (cs, None, c') /\
    bounded (round_even (Chunker.minSize c)) (Chunker.maxSize c) cs /\
    (Chunker.minSize c mod 2 = 0 ->
     bounded (Chunker.minSize c) (Chunker.maxSize c) cs).
Proof.
  intros HN Hd Hint Hlen.
  destruct (NewChunker_drain rd averageSize opts c HN Hd Hint Hlen)
    as (Hb & cs & c' & E & Hch).
  exists cs, c'. split; [exact E|].
  pose proof (chunking_bounded c 0 _ cs (buf_cfg c Hb) Hch) as H.
  split; [exact H|]. intros Heven. now rewrite round_even_of_even in H.
Qed.

(** C8 (as amended). A failure of a read of the source other than
    [io.EOF] and [io.ErrUnexpectedEOF] is returned by [Next] as it is, with
    no chunk and with no further read of the source, when the failing read
    leaves the buffer short of full.  With [io.EOF] or
    [io.ErrUnexpectedEOF] from the source the stream is taken to end there:
    the bytes obtained so far are chunked, the source is not read again,
    and then comes the end-of-stream signal.  An error that arrives with
    the bytes that fill the buffer is dropped by [io.ReadFull], and [Next]
    returns a chunk.  An error that [Next] returns is either [io.EOF] on
    an empty window or such a failure of the source. *)
Theorem read_failure_returned_verbatim (c : Chunker.t) (ns : list nat) (n : nat)
  (e : error) (rest : list io.ReadStep) :
  buffered c ->
  Chunker.readerEOF c = false ->
  Chunker.bufEnd c - Chunker.bufCursor c < Chunker.maxSize c ->
  io.script (Chunker.reader c) = map io.Deliver ns ++ io.Fail n e :: rest ->
  Z.of_nat (delivered ns)
  < len (Chunker.buf c) - (Chunker.bufEnd c - Chunker.bufCursor c) ->
  Z.of_nat (delivered ns + n)
  <= len (Chunker.buf c) - (Chunker.bufEnd c - Chunker.bufCursor c) ->
  (delivered ns + n <= List.length (io.pending (Chunker.reader c)))%nat ->
  let room := len (Chunker.buf c) - (Chunker.bufEnd c - Chunker.bufCursor c) in
  let got := firstn (delivered ns + n) (io.pending (Chunker.reader c)) in
  let rd' := io.mkReader (skipn (delivered ns + n) (io.pending (Chunker.reader c))) rest in
  (len got < room -> e <> EOF -> e <> ErrUnexpectedEOF ->
   exists c',
     Chunker.Next c = Some (zeroChunk, Some e, c') /\ Chunker.reader c' = rd') /\
  (len got < room -> e = EOF \/ e = ErrUnexpectedEOF ->
   exists cs c',
     drain (S (List.length (window c ++ got))) c = Some (cs, None, c') /\
     chunking c (Chunker.streamPos c) (window c ++ got) cs /\
     List.concat (map Data cs) = window c ++ got /\
     Chunker.reader c' = rd') /\
  (len got = room ->
   exists ch c',
     Chunker.Next c = Some (ch, None, c') /\
     0 < Length ch /\
     Data ch = firstn (Z.to_nat (Length ch)) (window c ++ got) /\
     Chunker.reader c' = rd') /\
  (forall d chunk e' d',
     Chunker.Next d = Some (chunk, Some e', d') ->
     chunk = zeroChunk /\
     ((e' = EOF /\ Chunker.bufEnd d' = 0) \/
      (e' <> EOF /\ e' <> ErrUnexpectedEOF /\
       exists n', In (io.Fail n' e') (io.script (Chunker.reader d))))).
Proof.
  intros Hb Heof Havail Hscript Hreach Hroom Hp room got rd'.
  destruct (fillBuffer_fail c ns n e rest Hb Heof Havail Hscript Hreach Hroom Hp)
    as (buf' & Hlen' & Hwin' & Efill).
  fold got in Hwin'. fold rd' in Efill. fold room in Efill.
  pose proof Hb as [[Hmin Havg Hmax Hbuf] [Hcur Hend] Hfull [Hp0 Hp1]].
  pose proof (len_window c Hcur Hend) as HW.
  assert (Hgot : len got = Z.of_nat (delivered ns + n))
    by (unfold got, len; rewrite length_firstn; lia).
  assert (Hrem : len (remaining c) = len (window c) + len (io.pending (Chunker.reader c))).
  { unfold remaining. rewrite Heof. apply len_app. }
  assert (Hpend : len got <= len (io.pending (Chunker.reader c)))
    by (unfold len in *; lia).
  cbv zeta in Efill.
  destruct c as [mn mx nz ms ml mss mls g gs rd buf cur en pos eof]. fields.
  subst eof. specialize (Hfull eq_refl). subst en.
  set (W := window (Chunker.mk mn mx nz ms ml mss mls g gs rd buf cur (len buf) pos false)) in *.
  split; [|split; [|split]].
  - (* the failure is returned *)
    intros Hshort He1 He2.
    destruct (Z.eqb_spec (Z.of_nat (delivered ns + n)) room) as [Hx|_]; [lia|].
    unfold Chunker.Next. rewrite Efill.
    destruct e; try congruence; (eexists; split; reflexivity).
  - (* the stream is taken to end *)
    intros Hshort He.
    destruct (Z.eqb_spec (Z.of_nat (delivered ns + n)) room) as [Hx|_]; [lia|].
    set (a := len buf - cur + Z.of_nat (delivered ns + n)) in *.
    set (c2 := Chunker.mk mn mx nz ms ml mss mls g gs rd' buf' 0 a pos true).
    assert (E2 : Chunker.fillBuffer
                   (Chunker.mk mn mx nz ms ml mss mls g gs rd buf cur (len buf) pos false)
                 = Some (None, c2)) by (destruct He; subst e; exact Efill).
    assert (Hw2 : forall r, window (Chunker.mk mn mx nz ms ml mss mls g gs r buf' 0 a pos true)
                            = W ++ got).
    { intros r. unfold window. fields. cbn [Z.to_nat skipn]. rewrite Z.sub_0_r.
      rewrite <- Hwin'. f_equal. unfold a. lia. }
    assert (Eidle : Chunker.fillBuffer c2 = Some (None, c2)).
    { apply fillBuffer_idle; unfold c2; fields; try lia; auto. }
    set (c0 := Chunker.mk mn mx nz ms ml mss mls g gs (io.mkReader [] []) buf' 0 a pos true).
    assert (Hr0 : remaining c0 = W ++ got).
    { unfold remaining, c0. rewrite Hw2. fields. apply app_nil_r. }
    assert (Hb0 : buffered c0).
    { constructor.
      - constructor; unfold c0; fields; lia.
      - unfold c0; fields; lia.
      - unfold c0; fields; discriminate.
      - rewrite Hr0, len_app. unfold c0; fields. lia. }
    destruct (drain_delivers (List.length (W ++ got)) c0 Hb0)
      as (cs & c3 & Ed & Hch & _ & _).
    { intros k e0 H. exact H. }
    { rewrite Hr0. unfold len. lia. }
    pose proof (drain_readerEOF rd' (S (List.length (W ++ got))) c0 eq_refl) as Edr.
    rewrite Ed in Edr. change (Chunker.set_reader c0 rd') with c2 in Edr.
    exists cs, (Chunker.set_reader c3 rd').
    split; [|split; [|split]].
    + rewrite drain_eq. rewrite (Next_filled _ c2 E2 Eidle). rewrite <- drain_eq. exact Edr.
    + rewrite Hr0 in Hch. change (Chunker.streamPos c0) with pos in Hch.
      apply (chunking_same_config c0); [|exact Hch].
      unfold same_config, c0. fields. rewrite Hlen'. tauto.
    + rewrite Hr0 in Hch. eapply chunking_concat. exact Hch.
    + destruct c3. reflexivity.
  - (* the failing read fills the buffer: the error is dropped *)
    intros Hfill.
    destruct (Z.eqb_spec (Z.of_nat (delivered ns + n)) room) as [_|Hx]; [|lia].
    set (c1 := Chunker.mk mn mx nz ms ml mss mls g gs rd' buf' 0 (len buf) pos false).
    assert (E1 : Chunker.fillBuffer
                   (Chunker.mk mn mx nz ms ml mss mls g gs rd buf cur (len buf) pos false)
                 = Some (None, c1)) by exact Efill.
    assert (Hw1 : window c1 = W ++ got).
    { unfold window, c1. fields. cbn [Z.to_nat skipn]. rewrite Z.sub_0_r.
      rewrite <- Hwin'. f_equal. unfold room in *. lia. }
    assert (Eidle : Chunker.fillBuffer c1 = Some (None, c1)).
    { apply fillBuffer_idle; unfold c1; fields; try lia; right; lia. }
    rewrite (Next_filled _ c1 E1 Eidle).
    unfold room in *.
    destruct (Next_buffered c1) as (ch & c' & EN & Hrd & _ & _ & _ & _ & _ & Hl & Hdata).
    { constructor; unfold c1; fields; lia. }
    { unfold c1; fields; lia. }
    { unfold c1; fields; lia. }
    { unfold c1; fields; lia. }
    { unfold c1; fields; lia. }
    { unfold c1; fields; lia. }
    rewrite Hw1 in Hdata. unfold c1 in Hl, Hrd. fields.
    exists ch, c'. split; [exact EN|].
    pose proof (round_even_bounds mn).
    split; [lia|]. split; [exact Hdata|exact Hrd].
  - intros d chunk e' d'. unfold Chunker.Next.
    destruct (Chunker.fillBuffer d) as [[err d1]|] eqn:E; [|discriminate].
    destruct err as [e0|].
    + intros H. inversion H; subst. split; [reflexivity|right].
      eapply fillBuffer_error. exact E.
    + destruct (Z.eqb_spec (Chunker.bufEnd d1) 0) as [Hz|Hz].
      * intros H. inversion H; subst. split; [reflexivity|left]. tauto.
      * destruct (slice _ _ _) as [data|]; [|discriminate].
        destruct (Chunker.cut _ _) as [[l fp]|]; [|discriminate].
        destruct (slice _ _ _) as [view|]; discriminate.
Qed.

Lemma read_failure_returned_verbatim_witness :
  exists c',
    Chunker.Next (chunker_of (NewChunker failing_reader 128 example_options))
    = Some (zeroChunk, Some (ReadError 7), c') /\
    Chunker.reader c'
    = io.mkReader
        (skipn (delivered [2%nat] + 0)
           (io.pending (Chunker.reader
                          (chunker_of (NewChunker failing_reader 128 example_options)))))
        [].
Proof.
  refine (proj1 (read_failure_returned_verbatim
                   (chunker_of (NewChunker failing_reader 128 example_options))
                   [2%nat] 0 (ReadError 7) [] _ _ _ _ _ _ _) _ _ _).
  - apply (NewChunker_buffered failing_reader 128 example_options).
    + vm_compute. reflexivity.
    + unfold is_int. vm_compute. split; [discriminate|reflexivity].
    + vm_compute. reflexivity.
  - vm_compute. reflexivity.
  - vm_compute. reflexivity.
  - vm_compute. reflexivity.
  - vm_compute. reflexivity.
  - vm_compute. discriminate.
  - vm_compute. lia.
  - vm_compute. reflexivity.
  - discriminate.
  - discriminate.
Defined.

(** C8 as stated fails in two ways.  A source whose read fails with
    [io.ErrUnexpectedEOF], ten bytes short of its end, makes [Next] return
    the end-of-stream signal [io.EOF] and not that error.  And a source
    whose read returns an error together with the 1024 bytes that fill the
    buffer makes [Next] return a chunk and no error. *)
Lemma source_failures_not_returned :
  (exists c r' c',
     NewChunker truncated_reader 128 example_options = Some (Some c, None) /\
     io.Read truncated_reader 1024 = ([], Some ErrUnexpectedEOF, r') /\
     io.pending r' = zeros 10 /\
     Chunker.Next c = Some (zeroChunk, Some EOF, c')) /\
  (exists c r' ch c',
     NewChunker filling_reader 128 example_options = Some (Some c, None) /\
     len (Chunker.buf c) = 1024 /\
     io.Read filling_reader 1024 = (zeros 1024, Some (ReadError 7), r') /\
     Chunker.Next c = Some (ch, None, c') /\
     Length ch = 512).
Proof.
  split.
  - exists (chunker_of (NewChunker truncated_reader 128 example_options)).
    do 2 eexists.
    split; [vm_compute; reflexivity|].
    split; [vm_compute; reflexivity|].
    split; vm_compute; reflexivity.
  - exists (chunker_of (NewChunker filling_reader 128 example_options)).
    do 3 eexists.
    split; [vm_compute; reflexivity|].
    split; [vm_compute; reflexivity|].
    split; [vm_compute; reflexivity|].
    split; vm_compute; reflexivity.
Qed.

(** * Further properties of the code *)

(** ** The masks of a chunker *)

Lemma masks_table :
  forallb (fun k => match nth_error masks k with
                    | Some m => (popcount m =? Z.of_nat k) && (0 <=? m) && (m <? 2 ^ 48)
                    | None => false
                    end) (seq 5 21) = true.
Proof. vm_compute. reflexivity. Qed.

Lemma masks_at_spec (i m : Z) :
  masks_at i = Some m -> 5 <= i -> popcount m = i /\ 0 <= m < 2 ^ 48.
Proof.
  unfold masks_at. intros H Hi.
  destruct (Z.leb_spec 0 i) as [Hlo|Hlo]; [|discriminate].
  destruct (Z.ltb_spec i 26) as [Hhi|Hhi]; [|discriminate].
  cbn [andb] in H.
  pose proof (proj1 (forallb_forall _ _) masks_table (Z.to_nat i)) as Hk.
  cbv beta in Hk. rewrite H in Hk.
  specialize (Hk ltac:(apply in_seq; lia)).
  apply andb_prop in Hk. destruct Hk as [Hk Hk3]. apply andb_prop in Hk.
  destruct Hk as [Hk1 Hk2].
  apply Z.eqb_eq in Hk1. apply Z.leb_le in Hk2. apply Z.ltb_lt in Hk3. lia.
Qed.

Lemma shl_small (m : Z) : 0 <= m < 2 ^ 63 -> U64.shl m 1 = 2 * m.
Proof.
  intros H. rewrite shl_mul by lia. rewrite Z.mod_small; lia.
Qed.

(** The masks that [NewChunker] selects. *)
Lemma NewChunker_masks (rd : io.Reader) (averageSize : Z) (opts : list Option)
  (c : Chunker.t) :
  NewChunker rd averageSize opts = Some (Some c, None) ->
  let o := resolve averageSize opts in
  masks_at (Z.log2 (options.averageSize o) + effective_normalization o)
  = Some (Chunker.maskSmall c) /\
  masks_at (Z.log2 (options.averageSize o) - effective_normalization o)
  = Some (Chunker.maskLarge c) /\
  Chunker.maskSmallShifted c = U64.shl (Chunker.maskSmall c) 1 /\
  Chunker.maskLargeShifted c = U64.shl (Chunker.maskLarge c) 1.
Proof.
  intros HN o.
  destruct (NewChunker_cases rd averageSize opts) as [(err & E & _)|[(E & _)|(c' & E & Hacc & _)]];
    [rewrite E in HN; discriminate..|].
  clear E c'. fold o in Hacc.
  destruct Hacc as (Ha & Hp & _ & _ & _ & _ & _ & Hn & Hl & Hs).
  apply power_of_two in Hp; [|lia].
  assert (Heff : 0 <= effective_normalization o <= 3).
  { unfold effective_normalization.
    destruct (options.disableNormalization o); [lia|]. now apply Hn. }
  unfold NewChunker in HN. fold o in HN.
  destruct (options.validate o); [discriminate|].
  rewrite (TrailingZeros_log2 (options.averageSize o)) in HN by (try exact Hp; lia).
  fold (effective_normalization o) in HN.
  destruct (if negb _ then _ else _) as [sg sgs].
  unfold GoInt.add, GoInt.sub in HN. rewrite !wrap_id in HN by lia.
  destruct (_ || _); [discriminate|].
  destruct (masks_at (_ + _)) as [mS|]; [|discriminate].
  destruct (masks_at (_ - _)) as [mL|]; [|discriminate].
  destruct (make _) as [b|]; [|discriminate].
  inversion HN; subst c. cbn. repeat split; reflexivity.
Qed.

Lemma NewChunker_mask_facts (rd : io.Reader) (averageSize : Z) (opts : list Option)
  (c : Chunker.t) :
  NewChunker rd averageSize opts = Some (Some c, None) ->
  let o := resolve averageSize opts in
  let bits := Z.log2 (options.averageSize o) in
  let level := effective_normalization o in
  masks_at (bits + level) = Some (Chunker.maskSmall c) /\
  masks_at (bits - level) = Some (Chunker.maskLarge c) /\
  popcount (Chunker.maskSmall c) = bits + level /\
  popcount (Chunker.maskLarge c) = bits - level /\
  0 <= Chunker.maskSmall c < 2 ^ 48 /\
  0 <= Chunker.maskLarge c < 2 ^ 48.
Proof.
  intros HN o bits level.
  destruct (NewChunker_masks rd averageSize opts c HN) as (HS & HL & HSs & HLs).
  destruct (NewChunker_cases rd averageSize opts) as [(err & E & _)|[(E & _)|(c' & E & Hacc & _)]];
    [rewrite E in HN; discriminate..|].
  destruct Hacc as (_ & _ & _ & _ & _ & _ & _ & Hn & Hl & Hs).
  fold o in HS, HL, Hn, Hl, Hs. fold bits in HS, HL, Hl, Hs. fold level in HS, HL, Hl, Hs.
  assert (Heff : 0 <= level).
  { unfold level, effective_normalization.
    destruct (options.disableNormalization o); [lia|]. now apply Hn. }
  destruct (masks_at_spec _ _ HS) as [HpS HbS]; [lia|].
  destruct (masks_at_spec _ _ HL) as [HpL HbL]; [lia|].
  repeat split; try assumption; lia.
Qed.

(** X1. The masks of a chunker are the entries of the table at
    [log2(averageSize) + normalization] and [log2(averageSize) -
    normalization], they have exactly that many one bits, and the shifted
    masks are their doubles: the shift loses no bit. *)
Theorem mask_selection (rd : io.Reader) (averageSize : Z) (opts : list Option)
  (c : Chunker.t) :
  NewChunker rd averageSize opts = Some (Some c, None) ->
  let o := resolve averageSize opts in
  let bits := Z.log2 (options.averageSize o) in
  let level := effective_normalization o in
  masks_at (bits + level) = Some (Chunker.maskSmall c) /\
  masks_at (bits - level) = Some (Chunker.maskLarge c) /\
  popcount (Chunker.maskSmall c) = bits + level /\
  popcount (Chunker.maskLarge c) = bits - level /\
  Chunker.maskSmallShifted c = 2 * Chunker.maskSmall c /\
  Chunker.maskLargeShifted c = 2 * Chunker.maskLarge c.
Proof.
  intros HN o bits level.
  destruct (NewChunker_mask_facts rd averageSize opts c HN)
    as (HS & HL & HpS & HpL & HbS & HbL).
  destruct (NewChunker_masks rd averageSize opts c HN) as (_ & _ & HSs & HLs).
  repeat split; try assumption.
  - rewrite HSs. apply shl_small. lia.
  - rewrite HLs. apply shl_small. lia.
Qed.

Lemma mask_selection_witness :
  popcount (Chunker.maskSmall example_chunker) = 9 /\
  popcount (Chunker.maskLarge example_chunker) = 5.
Proof.
  pose proof (mask_selection example_reader 128 example_options example_chunker
                ltac:(vm_compute; reflexivity)) as H.
  cbv zeta in H. destruct H as (_ & _ & HS & HL & _).
  split; [rewrite HS|rewrite HL]; vm_compute; reflexivity.
Defined.

(** ** The pair loop and the gear hash *)

Lemma gear_hash_range (table : list Z) (bytes : list byte) :
  0 <= gear_hash table bytes < 2 ^ 64.
Proof.
  unfold gear_hash.
  assert (H : forall h, 0 <= h < 2 ^ 64 ->
            0 <= fold_left (fun fp b => U64.add (U64.shl fp 1) (at_byte table b)) bytes h
            < 2 ^ 64).
  { induction bytes as [|b bytes IH]; intros h Hh; [exact Hh|].
    cbn [fold_left]. apply IH. unfold U64.add, U64.wrap, U64.modulus.
    apply Z.mod_pos_bound. lia. }
  apply H. lia.
Qed.

Lemma firstn_snoc (k : nat) (l : list byte) :
  (k < List.length l)%nat -> firstn (S k) l = firstn k l ++ [nth k l x00].
Proof.
  revert l. induction k as [|k IH]; intros l Hk.
  - destruct l as [|x l]; [cbn in Hk; lia|reflexivity].
  - destruct l as [|x l]; [cbn in Hk; lia|].
    cbn [firstn nth app]. rewrite <- IH by (cbn in Hk; lia). reflexivity.
Qed.

Lemma hash_of_start (c : Chunker.t) (region : list byte) (from : Z) :
  hash_of c region from (from - 1) = 0.
Proof.
  unfold hash_of. replace (from - 1 + 1 - from) with 0 by lia. reflexivity.
Qed.

Lemma hash_of_step (c : Chunker.t) (region : list byte) (from i : Z) :
  0 <= from <= i -> i < len region ->
  hash_of c region from i
  = U64.add (U64.shl (hash_of c region from (i - 1)) 1)
      (at_byte (Chunker.gear c) (byte_at region i)).
Proof.
  intros Hf Hi. unfold hash_of, gear_hash, byte_at.
  replace (Z.to_nat (i + 1 - from)) with (S (Z.to_nat (i - from))) by lia.
  replace (i - 1 + 1 - from) with (i - from) by lia.
  rewrite firstn_snoc by (rewrite length_skipn; unfold len in *; lia).
  rewrite fold_left_app. cbn [fold_left]. rewrite nth_skipn.
  do 3 f_equal. lia.
Qed.

Lemma shl_pair (fp g : Z) :
  U64.add (U64.shl fp 2) (U64.shl g 1) = U64.shl (U64.add (U64.shl fp 1) g) 1.
Proof.
  rewrite !shl_mul by lia. unfold U64.add, U64.wrap, U64.modulus.
  rewrite <- (Zplus_mod (fp * 2 ^ 2) (g * 2 ^ 1)).
  rewrite (Zplus_mod_idemp_l (fp * 2 ^ 1) g).
  rewrite (Zmult_mod_idemp_l (fp * 2 ^ 1 + g)).
  f_equal. ring.
Qed.

Lemma shl_land (h m : Z) :
  Z.land (U64.shl h 1) (U64.shl m 1) = U64.shl (Z.land h m) 1.
Proof.
  unfold U64.shl, U64.wrap, U64.modulus.
  rewrite <- !Z.land_ones by lia.
  rewrite Z.shiftl_land.
  apply Z.bits_inj'. intros n Hn.
  rewrite !Z.land_spec.
  destruct (Z.testbit (Z.shiftl h 1) n), (Z.testbit (Z.shiftl m 1) n),
    (Z.testbit (Z.ones 64) n); reflexivity.
Qed.

(** The test of the shifted fingerprint with the shifted mask is the test
    of the fingerprint with the mask. *)
Lemma shifted_test (h m : Z) :
  0 <= h -> 0 <= m < 2 ^ 63 ->
  (Z.land (U64.shl h 1) (U64.shl m 1) =? 0) = (Z.land h m =? 0).
Proof.
  intros Hh Hm. rewrite shl_land.
  assert (Hy : 0 <= Z.land h m < 2 ^ 63).
  { split; [apply Z.land_nonneg; now left|].
    destruct (Z.eq_dec (Z.land h m) 0) as [->|Hnz]; [lia|].
    assert (0 < Z.land h m) by (pose proof (proj2 (Z.land_nonneg h m) (or_introl Hh)); lia).
    apply Z.log2_lt_pow2; [assumption|].
    pose proof (Z.log2_land h m Hh (proj1 Hm)).
    destruct (Z.eq_dec m 0) as [->|Hmz]; [rewrite Z.land_0_r in *; lia|].
    assert (Z.log2 m < 63) by (apply Z.log2_lt_pow2; lia).
    lia. }
  rewrite shl_small by lia.
  destruct (Z.eqb_spec (2 * Z.land h m) 0), (Z.eqb_spec (Z.land h m) 0); try reflexivity; lia.
Qed.

Lemma NewChunker_tables (rd : io.Reader) (averageSize : Z) (opts : list Option)
  (c : Chunker.t) (b : byte) :
  NewChunker rd averageSize opts = Some (Some c, None) ->
  at_byte (Chunker.gearShifted c) b = U64.shl (at_byte (Chunker.gear c) b) 1.
Proof.
  intros HN.
  destruct (NewChunker_cases rd averageSize opts) as [(err & E & _)|[(E & _)|(c' & E & _ & Hc)]];
    rewrite E in HN; inversion HN; subst c'.
  destruct Hc as (_ & _ & _ & Hg & Hgs & _).
  set (seed := options.seed (resolve averageSize opts)) in *.
  assert (Hb : (N.to_nat (Byte.to_N b) < 256)%nat).
  { pose proof (Byte.to_N_bounded b). lia. }
  rewrite Hg, Hgs. unfold at_byte, gearShifted. rewrite map_map.
  rewrite (nth_indep _ 0 (Z.lxor (U64.shl 0 1) (U64.shl seed 1)))
    by (rewrite length_map; exact Hb).
  rewrite (map_nth (fun g => Z.lxor (U64.shl g 1) (U64.shl seed 1))).
  rewrite (nth_indep (map _ gear) 0 (Z.lxor 0 seed))
    by (rewrite length_map; exact Hb).
  rewrite (map_nth (fun g => Z.lxor g seed)).
  apply shl_lxor.
Qed.

Lemma NewChunker_paired (rd : io.Reader) (averageSize : Z) (opts : list Option)
  (c : Chunker.t) :
  NewChunker rd averageSize opts = Some (Some c, None) -> paired c.
Proof.
  intros HN.
  destruct (NewChunker_mask_facts rd averageSize opts c HN)
    as (_ & _ & _ & _ & HbS & HbL).
  destruct (NewChunker_masks rd averageSize opts c HN) as (_ & _ & HSs & HLs).
  constructor.
  - intros b. now apply (NewChunker_tables rd averageSize opts).
  - split; [exact HSs|lia].
  - split; [exact HLs|lia].
Qed.

Lemma mask_of_pair (c : Chunker.t) (ne p : Z) :
  Z.even ne = true -> Z.even p = true ->
  mask_of c ne (p + 1) = mask_of c ne p.
Proof.
  intros He Hp. unfold mask_of.
  apply Z.even_spec in He. destruct He as [a ->].
  apply Z.even_spec in Hp. destruct Hp as [b ->].
  destruct (Z.ltb_spec (2 * b + 1) (2 * a)), (Z.ltb_spec (2 * b) (2 * a));
    try reflexivity; lia.
Qed.

(** The pair loop finds the first byte whose gear hash passes its mask. *)
Lemma scan_pairs_first_boundary (c : Chunker.t) (region : list byte) (from ne : Z)
  (n : nat) :
  paired c -> Z.even ne = true -> 0 <= from ->
  forall i fp,
    from <= i -> Z.even i = true -> i + 2 * Z.of_nat n <= len region ->
    fp = hash_of c region from (i - 1) ->
    match scan_pairs c region ne (pair_positions i n) fp with
    | (Some l, f) =>
      i <= l < i + 2 * Z.of_nat n /\
      (forall j, i <= j < l -> boundary_at c region from ne j = false) /\
      boundary_at c region from ne l = true /\
      f = if Z.even l then U64.shl (hash_of c region from l) 1
          else hash_of c region from l
    | (None, f) =>
      (forall j, i <= j < i + 2 * Z.of_nat n -> boundary_at c region from ne j = false) /\
      f = hash_of c region from (i + 2 * Z.of_nat n - 1)
    end.
Proof.
  intros [Hg [HSs HS] [HLs HL]] Hne Hfrom.
  induction n as [|n IH]; intros i fp Hi Hev Hlen Hfp.
  - cbn [pair_positions seq map scan_pairs]. split; [intros j Hj; lia|].
    rewrite Hfp. f_equal. lia.
  - rewrite pair_positions_succ. cbn [scan_pairs].
    pose proof (hash_of_step c region from i ltac:(lia) ltac:(lia)) as H1.
    pose proof (hash_of_step c region from (i + 1) ltac:(lia) ltac:(lia)) as H2.
    replace (i + 1 - 1) with i in H2 by lia.
    rewrite <- Hfp in H1.
    assert (Hfp1 : (fp * 4 + at_byte (Chunker.gearShifted c) (byte_at region i)) mod 2 ^ 64
                   = U64.shl (hash_of c region from i) 1).
    { rewrite <- add_shl2, Hg, shl_pair, <- H1. reflexivity. }
    rewrite Hfp1.
    assert (Hfp2 : (U64.shl (hash_of c region from i) 1
                    + at_byte (Chunker.gear c) (byte_at region (i + 1))) mod 2 ^ 64
                   = hash_of c region from (i + 1)).
    { rewrite H2. reflexivity. }
    rewrite Hfp2.
    pose proof (gear_hash_range (Chunker.gear c)
                  (firstn (Z.to_nat (i + 1 - from)) (skipn (Z.to_nat from) region))) as Hr.
    fold (hash_of c region from i) in Hr.
    assert (Ht1 : (Z.land (U64.shl (hash_of c region from i) 1)
                     (if i <? ne then Chunker.maskSmallShifted c
                      else Chunker.maskLargeShifted c) =? 0)
                  = boundary_at c region from ne i).
    { unfold boundary_at, mask_of. destruct (i <? ne).
      - rewrite HSs. apply shifted_test; lia.
      - rewrite HLs. apply shifted_test; lia. }
    assert (Ht2 : (Z.land (hash_of c region from (i + 1))
                     (if i <? ne then Chunker.maskSmall c else Chunker.maskLarge c) =? 0)
                  = boundary_at c region from ne (i + 1)).
    { unfold boundary_at. rewrite mask_of_pair by assumption. reflexivity. }
    rewrite Ht1, Ht2.
    assert (Hodd : Z.even (i + 1) = false).
    { rewrite Z.even_add, Hev. reflexivity. }
    destruct (boundary_at c region from ne i) eqn:B1.
    { split; [lia|]. split; [intros j Hj; lia|]. split; [exact B1|].
      now rewrite Hev. }
    destruct (boundary_at c region from ne (i + 1)) eqn:B2.
    { split; [lia|]. split.
      - intros j Hj. replace j with i by lia. exact B1.
      - split; [exact B2|]. now rewrite Hodd. }
    specialize (IH (i + 2) (hash_of c region from (i + 1)) ltac:(lia)).
    assert (Hev2 : Z.even (i + 2) = true) by (rewrite Z.even_add, Hev; reflexivity).
    specialize (IH Hev2 ltac:(lia)).
    replace (i + 2 - 1) with (i + 1) in IH by lia.
    specialize (IH eq_refl).
    destruct (scan_pairs c region ne (pair_positions (i + 2) n)
                (hash_of c region from (i + 1))) as [[l|] f].
    + destruct IH as (Hl & Hno & Hyes & Hf).
      split; [lia|]. split; [|split; assumption].
      intros j Hj.
      destruct (Z.eq_dec j i) as [->|]; [exact B1|].
      destruct (Z.eq_dec j (i + 1)) as [->|]; [exact B2|].
      apply Hno. lia.
    + destruct IH as (Hno & Hf). split.
      * intros j Hj.
        destruct (Z.eq_dec j i) as [->|]; [exact B1|].
        destruct (Z.eq_dec j (i + 1)) as [->|]; [exact B2|].
        apply Hno. lia.
      * rewrite Hf. f_equal. lia.
Qed.

Lemma round_even_even (x : Z) : Z.even (round_even x) = true.
Proof. unfold round_even. apply Z.even_spec. now exists (x / 2). Qed.

(** X2. The pair loop of [cut] computes the gear hash
    [fp = (fp << 1) + gear[b]] of the bytes from the rounded [minSize] on:
    [cut] returns the first position before the rounded max boundary whose
    hash has all the bits of its mask at zero (the small mask before the
    rounded normalize boundary, the large one from there), with that hash
    as fingerprint, shifted left by one bit when the position is even; and
    when there is no such position it returns [maxBoundary] with the hash
    of all the scanned bytes. *)
Theorem cut_first_boundary (rd : io.Reader) (averageSize : Z) (opts : list Option)
  (c : Chunker.t) (region : list byte) :
  NewChunker rd averageSize opts = Some (Some c, None) ->
  Chunker.minSize c < len region ->
  let maxBoundary := Z.min (len region) (Chunker.maxSize c) in
  let from := round_even (Chunker.minSize c) in
  let stop := round_even maxBoundary in
  let ne := round_even (Z.min maxBoundary (Chunker.normalizeSize c)) in
  exists l fp,
    Chunker.cut c region = Some (l, fp) /\
    (forall j, from <= j < Z.min l stop -> boundary_at c region from ne j = false) /\
    ((from <= l < stop /\
      boundary_at c region from ne l = true /\
      fp = if Z.even l then U64.shl (hash_of c region from l) 1
           else hash_of c region from l)
     \/
     (l = maxBoundary /\ fp = hash_of c region from (stop - 1))).
Proof.
  intros HN Hlen maxBoundary from stop ne.
  pose proof (NewChunker_paired rd averageSize opts c HN) as Hpaired.
  destruct (NewChunker_cases rd averageSize opts) as [(err & E & _)|[(E & _)|(c' & E & Hacc & Hc)]];
    rewrite E in HN; inversion HN; subst c'.
  destruct Hc as (Hmn & Hmx & Hns & _).
  destruct Hacc as (_ & _ & Hmin & _ & Hlt & Havg & _).
  rewrite <- Hmn, <- Hmx, <- Hns in *.
  rewrite cut_reference_correct by lia.
  unfold cut_reference. fold maxBoundary. fold ne. fold from. fold stop.
  assert (HM : Chunker.minSize c < maxBoundary <= len region) by (unfold maxBoundary; lia).
  pose proof (round_even_bounds maxBoundary) as HbM. fold stop in HbM.
  pose proof (round_even_bounds (Chunker.minSize c)) as Hbm. fold from in Hbm.
  pose proof (round_even_mono (Chunker.minSize c) maxBoundary ltac:(lia)) as Hmono.
  fold from stop in Hmono.
  assert (Hcount : from + 2 * Z.of_nat (Z.to_nat ((stop - from) / 2)) = stop).
  { unfold from, stop, round_even in *.
    set (a := Chunker.minSize c / 2) in *. set (m := maxBoundary / 2) in *.
    replace ((2 * m - 2 * a) / 2) with (m - a)
      by (replace (2 * m - 2 * a) with ((m - a) * 2) by ring; now rewrite Z.div_mul).
    lia. }
  pose proof (scan_pairs_first_boundary c region from ne (Z.to_nat ((stop - from) / 2))
                Hpaired (round_even_even _) ltac:(lia) from 0 ltac:(lia)
                (round_even_even _) ltac:(lia)
                (eq_sym (hash_of_start c region from))) as H.
  rewrite Hcount in H.
  destruct (scan_pairs c region ne _ 0) as [[l|] f].
  - destruct H as (Hl & Hno & Hyes & Hf).
    exists l, f. split; [reflexivity|]. split.
    + intros j Hj. apply Hno. lia.
    + left. split; [lia|]. split; assumption.
  - destruct H as (Hno & Hf).
    exists maxBoundary, f. split; [reflexivity|]. split.
    + intros j Hj. apply Hno. lia.
    + right. split; [reflexivity|exact Hf].
Qed.

Lemma cut_first_boundary_witness :
  exists l fp,
    Chunker.cut example_chunker (io.pending example_reader) = Some (l, fp) /\
    (forall j,
       round_even (Chunker.minSize example_chunker) <= j
       < Z.min l (round_even (Z.min (len (io.pending example_reader))
                                (Chunker.maxSize example_chunker))) ->
       boundary_at example_chunker (io.pending example_reader)
         (round_even (Chunker.minSize example_chunker))
         (round_even (Z.min (Z.min (len (io.pending example_reader))
                               (Chunker.maxSize example_chunker))
                        (Chunker.normalizeSize example_chunker))) j = false).
Proof.
  destruct (cut_first_boundary example_reader 128 example_options example_chunker
              (io.pending example_reader)
              ltac:(vm_compute; reflexivity) ltac:(vm_compute; reflexivity))
    as (l & fp & E & Hno & _).
  exists l, fp. split; [exact E|exact Hno].
Defined.

(** ** What the cut depends on *)

(** X3. The cut depends only on [min(len, maxSize)] and on the bytes from
    the rounded [minSize] to the rounded max boundary: the bytes before the
    minimum size are skipped and no byte beyond [maxSize] is looked at. *)
Theorem cut_locality (rd : io.Reader) (averageSize : Z) (opts : list Option)
  (c : Chunker.t) (r1 r2 : list byte) :
  NewChunker rd averageSize opts = Some (Some c, None) ->
  Chunker.minSize c < len r1 ->
  Chunker.minSize c < len r2 ->
  Z.min (len r1) (Chunker.maxSize c) = Z.min (len r2) (Chunker.maxSize c) ->
  (forall i,
     round_even (Chunker.minSize c) <= i
     < round_even (Z.min (len r1) (Chunker.maxSize c)) ->
     byte_at r1 i = byte_at r2 i) ->
  Chunker.cut c r1 = Chunker.cut c r2.
Proof.
  intros HN H1 H2 HM Hb.
  destruct (NewChunker_cases rd averageSize opts) as [(err & E & _)|[(E & _)|(c' & E & Hacc & Hc)]];
    rewrite E in HN; inversion HN; subst c'.
  destruct Hc as (Hmn & Hmx & Hns & _).
  destruct Hacc as (_ & _ & Hmin & _ & Hlt & Havg & _).
  rewrite <- Hmn, <- Hmx, <- Hns in *.
  rewrite !cut_reference_correct by lia.
  unfold cut_reference. rewrite <- HM.
  set (M := Z.min (len r1) (Chunker.maxSize c)) in *.
  rewrite (scan_pairs_ext c r1 r2); [reflexivity|].
  intros p Hp. apply in_pair_positions in Hp. destruct Hp as (k & -> & Hk).
  pose proof (round_even_bounds M) as HbM.
  pose proof (round_even_mono (Chunker.minSize c) M ltac:(unfold M; lia)) as Hmono.
  unfold round_even in *.
  set (a := Chunker.minSize c / 2) in *. set (m := M / 2) in *.
  replace ((2 * m - 2 * a) / 2) with (m - a) in Hk
    by (replace (2 * m - 2 * a) with ((m - a) * 2) by ring; now rewrite Z.div_mul).
  split; apply Hb; lia.
Qed.

Lemma cut_locality_witness :
  Chunker.cut example_chunker (zeros 64 ++ [xf8] ++ zeros 135)
  = Chunker.cut example_chunker (repeat x01 64 ++ [xf8] ++ zeros 135).
Proof.
  apply (cut_locality example_reader 128 example_options example_chunker).
  - vm_compute. reflexivity.
  - vm_compute. reflexivity.
  - vm_compute. reflexivity.
  - vm_compute. reflexivity.
  - intros i Hi.
    assert (Hr : 64 <= i < 200) by (revert Hi; vm_compute; intuition congruence).
    unfold byte_at, zeros.
    rewrite (app_nth2 (repeat x00 64)) by (rewrite repeat_length; lia).
    rewrite (app_nth2 (repeat x01 64)) by (rewrite repeat_length; lia).
    rewrite !repeat_length. reflexivity.
Defined.

(** ** The chunks of a stream *)

Lemma chunking_total (c : Chunker.t) pos rest cs :
  chunking c pos rest cs -> total_length cs = len rest.
Proof.
  intros H. induction H as [pos|pos rest l fp cs Hne Hcut Hl _ IH]; [reflexivity|].
  cbn [total_length fold_right Length]. fold (total_length cs).
  rewrite IH, len_skipn by lia. lia.
Qed.

(** X4. The [Length] of every chunk is the length of its [Data], and the
    lengths of the chunks of a stream add up to the length of the stream. *)
Theorem chunk_lengths (rd : io.Reader) (averageSize : Z) (opts : list Option)
  (c : Chunker.t) :
  NewChunker rd averageSize opts = Some (Some c, None) ->
  delivers rd ->
  is_int (options.bufSize (resolve averageSize opts)) ->
  len (io.pending rd) < 2 ^ 63 ->
  exists cs c',
    drain (S (List.length (io.pending rd))) c = Some (cs, None, c') /\
    Forall (fun ch => Length ch = len (Data ch)) cs /\
    total_length cs = len (io.pending rd).
Proof.
  intros HN Hd Hint Hlen.
  destruct (NewChunker_drain rd averageSize opts c HN Hd Hint Hlen)
    as (Hb & cs & c' & E & Hch).
  exists cs, c'. split; [exact E|]. split.
  - eapply chunking_lengths; exact Hch.
  - eapply chunking_total; exact Hch.
Qed.

Lemma chunk_lengths_witness :
  exists cs c',
    drain (S (List.length (io.pending example_reader))) example_chunker
    = Some (cs, None, c') /\
    Forall (fun ch => Length ch = len (Data ch)) cs /\
    total_length cs = len (io.pending example_reader).
Proof.
  apply (chunk_lengths example_reader 128 example_options example_chunker).
  - vm_compute. reflexivity.
  - intros n e H. vm_compute in H. intuition discriminate.
  - unfold is_int. vm_compute. split; [discriminate|reflexivity].
  - vm_compute. reflexivity.
Defined.

Lemma chunk_bounds_witness :
  exists cs c',
    drain (S (List.length (io.pending example_reader))) example_chunker
    = Some (cs, None, c') /\
    bounded (round_even (Chunker.minSize example_chunker))
      (Chunker.maxSize example_chunker) cs /\
    (Chunker.minSize example_chunker mod 2 = 0 ->
     bounded (Chunker.minSize example_chunker) (Chunker.maxSize example_chunker) cs).
Proof.
  apply (chunk_bounds example_reader 128 example_options example_chunker).
  - vm_compute. reflexivity.
  - intros n e H. vm_compute in H. intuition discriminate.
  - unfold is_int. vm_compute. split; [discriminate|reflexivity].
  - vm_compute. reflexivity.
Defined.

Lemma cut_same_parameters (c d : Chunker.t) (data : list byte) :
  same_parameters c d -> Chunker.cut c data = Chunker.cut d data.
Proof.
  intros (E1 & E2 & E3 & E4 & E5 & E6 & E7 & E8 & E9).
  unfold Chunker.cut. rewrite E1, E2, E3, E4, E5, E6, E7, E8, E9. reflexivity.
Qed.

Lemma chunking_same_parameters (c d : Chunker.t) pos rest cs :
  same_parameters c d -> chunking c pos rest cs -> chunking d pos rest cs.
Proof.
  intros Hs H. induction H as [pos|pos rest l fp cs Hne Hcut Hl _ IH].
  - constructor.
  - constructor; try assumption.
    unfold next_cut in *. rewrite <- (cut_same_parameters c d) by exact Hs.
    destruct Hs as (_ & <- & _). exact Hcut.
Qed.

Lemma chunking_shift (c : Chunker.t) (delta : Z) pos rest cs :
  chunking c pos rest cs ->
  chunking c (pos + delta) rest (map (shift_chunk delta) cs).
Proof.
  intros H. induction H as [pos|pos rest l fp cs Hne Hcut Hl _ IH].
  - constructor.
  - cbn [map]. unfold shift_chunk at 1. cbn [Offset Length Data Fingerprint].
    constructor; try assumption.
    replace (pos + delta + l) with (pos + l + delta) by lia. exact IH.
Qed.

Lemma chunking_suffix (c : Chunker.t) (tail : list byte) (pre suf : list Chunk) :
  forall pos (head : list byte),
  chunking c pos (head ++ tail) (pre ++ suf) ->
  List.concat (map Data pre) = head ->
  chunking c (pos + len head) tail suf.
Proof.
  induction pre as [|ch pre IH]; intros pos head H Hc.
  - cbn in Hc. subst head. cbn [app] in H.
    replace (pos + len []) with pos by (unfold len; cbn; lia). exact H.
  - cbn [app] in H.
    remember (head ++ tail) as rest eqn:ER.
    remember (ch :: pre ++ suf) as all eqn:EL.
    destruct H as [pos|pos rest l fp cs Hne Hcut Hl Hrest]; [discriminate|].
    injection EL as Ech Ecs. subst ch cs rest.
    cbn [map List.concat Data] in Hc.
    assert (Hlh : l <= len head).
    { rewrite <- Hc, len_app. unfold len in *.
      rewrite length_firstn. lia. }
    rewrite firstn_prefix in Hc by (unfold len in *; lia).
    assert (Hpre : List.concat (map Data pre) = skipn (Z.to_nat l) head).
    { apply (app_inv_head (firstn (Z.to_nat l) head)).
      now rewrite Hc, firstn_skipn. }
    rewrite skipn_prefix in Hrest by (unfold len in *; lia).
    specialize (IH (pos + l) (skipn (Z.to_nat l) head) Hrest Hpre).
    rewrite len_skipn in IH by lia.
    replace (pos + len head) with (pos + l + (len head - l)) by lia. exact IH.
Qed.

(** X5. After a boundary that two streams have in common, equal remaining
    bytes give equal chunks: when the chunks [pre1] of one stream end where
    the tail [tail] begins, and the chunks [pre2] of another stream end
    where the same tail begins, the chunks that follow are the same but
    for their offsets. *)
Theorem resynchronization (rd1 rd2 : io.Reader) (averageSize : Z) (opts : list Option)
  (c1 c2 c1' c2' : Chunker.t) (head1 head2 tail : list byte)
  (pre1 suf1 pre2 suf2 : list Chunk) :
  NewChunker rd1 averageSize opts = Some (Some c1, None) ->
  NewChunker rd2 averageSize opts = Some (Some c2, None) ->
  io.pending rd1 = head1 ++ tail ->
  io.pending rd2 = head2 ++ tail ->
  delivers rd1 -> delivers rd2 ->
  is_int (options.bufSize (resolve averageSize opts)) ->
  len (io.pending rd1) < 2 ^ 63 ->
  len (io.pending rd2) < 2 ^ 63 ->
  drain (S (List.length (io.pending rd1))) c1 = Some (pre1 ++ suf1, None, c1') ->
  drain (S (List.length (io.pending rd2))) c2 = Some (pre2 ++ suf2, None, c2') ->
  List.concat (map Data pre1) = head1 ->
  List.concat (map Data pre2) = head2 ->
  suf2 = map (shift_chunk (len head2 - len head1)) suf1.
Proof.
  intros HN1 HN2 Hp1 Hp2 Hd1 Hd2 Hint Hl1 Hl2 E1 E2 Hc1 Hc2.
  destruct (NewChunker_drain rd1 averageSize opts c1 HN1 Hd1 Hint Hl1)
    as (_ & cs1 & d1 & E1' & Hch1).
  destruct (NewChunker_drain rd2 averageSize opts c2 HN2 Hd2 Hint Hl2)
    as (_ & cs2 & d2 & E2' & Hch2).
  rewrite E1 in E1'. inversion E1'; subst cs1 d1.
  rewrite E2 in E2'. inversion E2'; subst cs2 d2.
  rewrite Hp1 in Hch1. rewrite Hp2 in Hch2.
  apply chunking_suffix in Hch1; [|exact Hc1].
  apply chunking_suffix in Hch2; [|exact Hc2].
  assert (Hs : same_config c1 c2).
  { rewrite (NewChunker_reader rd1 rd2 averageSize opts c1 c2 HN1 HN2).
    apply set_reader_same_config. }
  apply (chunking_same_config c1 c2 _ _ _ Hs) in Hch1.
  apply (chunking_shift c2 (len head2 - len head1)) in Hch1.
  replace (0 + len head1 + (len head2 - len head1)) with (0 + len head2) in Hch1 by lia.
  symmetry. eapply chunking_functional; eassumption.
Qed.

Lemma resynchronization_witness :
  skipn 2 (drained (drain (S (List.length (io.pending stream2)))
                      (chunker_of (NewChunker stream2 128 [WithMinSize 64]))))
  = map (shift_chunk (len (zeros 64 ++ [xf8] ++ zeros 63) - len (zeros 64)))
      (skipn 1 (drained (drain (S (List.length (io.pending stream1)))
                           (chunker_of (NewChunker stream1 128 [WithMinSize 64]))))).
Proof.
  apply (resynchronization stream1 stream2 128 [WithMinSize 64]
           (chunker_of (NewChunker stream1 128 [WithMinSize 64]))
           (chunker_of (NewChunker stream2 128 [WithMinSize 64]))
           (drained_chunker (drain (S (List.length (io.pending stream1)))
                               (chunker_of (NewChunker stream1 128 [WithMinSize 64]))))
           (drained_chunker (drain (S (List.length (io.pending stream2)))
                               (chunker_of (NewChunker stream2 128 [WithMinSize 64]))))
           (zeros 64) (zeros 64 ++ [xf8] ++ zeros 63) common_tail
           (firstn 1 (drained (drain (S (List.length (io.pending stream1)))
                                 (chunker_of (NewChunker stream1 128 [WithMinSize 64])))))
           _
           (firstn 2 (drained (drain (S (List.length (io.pending stream2)))
                                 (chunker_of (NewChunker stream2 128 [WithMinSize 64])))))
           _).
  - vm_compute. reflexivity.
  - vm_compute. reflexivity.
  - reflexivity.
  - reflexivity.
  - intros n e H. vm_compute in H. intuition discriminate.
  - intros n e H. vm_compute in H. intuition discriminate.
  - unfold is_int. vm_compute. split; [discriminate|reflexivity].
  - vm_compute. reflexivity.
  - vm_compute. reflexivity.
  - vm_compute. reflexivity.
  - vm_compute. reflexivity.
  - vm_compute. reflexivity.
  - vm_compute. reflexivity.
Defined.

(** X6. While the window holds at least [maxSize] bytes [Next] does not
    read: it returns a chunk cut from the window and leaves the source and
    the buffer as they are, whatever the source would do. *)
Theorem Next_reads_nothing_when_buffered (c : Chunker.t) :
  buffered c ->
  Chunker.maxSize c <= Chunker.bufEnd c - Chunker.bufCursor c ->
  exists ch c',
    Chunker.Next c = Some (ch, None, c') /\
    Chunker.reader c' = Chunker.reader c /\
    Chunker.buf c' = Chunker.buf c /\
    Offset ch = Chunker.streamPos c /\
    0 < Length ch <= Chunker.maxSize c /\
    Data ch = firstn (Z.to_nat (Length ch)) (window c).
Proof.
  intros [Hcfg [Hcur Hend] Hfull [Hp0 Hp1]] Hwin.
  pose proof (len_window c Hcur Hend) as HW.
  assert (Hr : len (window c) <= len (remaining c)).
  { unfold remaining. rewrite len_app.
    pose proof (len_nonneg (if Chunker.readerEOF c then []
                            else io.pending (Chunker.reader c))). lia. }
  destruct (Next_buffered c Hcfg Hcur Hend Hwin Hp0 ltac:(lia))
    as (ch & c' & E & Hrd & Hb & _ & _ & _ & Ho & Hl & Hdata).
  exists ch, c'. repeat split; try assumption; try lia.
  pose proof (round_even_bounds (Chunker.minSize c)).
  pose proof (cfg_min c Hcfg). lia.
Qed.

(** X7. The end of the stream is final: once [Next] has returned [io.EOF]
    every further call returns [io.EOF] again and changes nothing, so it
    does not read the source. *)
Theorem end_of_stream_is_final (c c' : Chunker.t) (ch : Chunk) :
  buffered c ->
  Chunker.Next c = Some (ch, Some EOF, c') ->
  Chunker.Next c' = Some (zeroChunk, Some EOF, c').
Proof.
  intros Hb. pose proof Hb as [[Hmin Havg Hmax Hbuf] [Hcur Hend] Hfull Hpos].
  unfold Chunker.Next at 1.
  destruct (Chunker.fillBuffer c) as [[err c1]|] eqn:E; [|discriminate].
  destruct err as [e|].
  { intros H. inversion H; subst. apply fillBuffer_error in E. tauto. }
  destruct (fillBuffer_shape c c1 None Hb E) as (Hs & _ & Hshape).
  destruct (Z.eqb_spec (Chunker.bufEnd c1) 0) as [Hz|Hz].
  2:{ destruct (slice _ _ _) as [data|]; [|discriminate].
      destruct (Chunker.cut _ _) as [[n fp]|]; [|discriminate].
      destruct (slice _ _ _) as [view|]; discriminate. }
  intros H. inversion H; subst c'. clear H.
  destruct Hs as (_ & Hmx & _ & _ & _ & _ & _ & _ & _ & Hlb).
  destruct Hshape as [(-> & _ & Hge)|(Hlt & Hc0 & Hb1 & Heof)]; [lia|].
  destruct Heof as [[Heof _]|[_ Hfullbuf]]; [|lia].
  destruct c1 as [mn mx nz ms ml mss mls g gs rd buf cur en pos eof]. fields.
  subst cur en eof.
  unfold Chunker.Next, Chunker.fillBuffer, GoInt.sub. fields.
  change (GoInt.wrap (0 - 0)) with 0.
  destruct (Z.geb_spec 0 mx) as [Hge|_]; [lia|].
  rewrite (slice_ok buf 0 0) by lia.
  rewrite (slice_ok buf 0 (len buf)) by lia.
  cbn [Z.sub Z.to_nat firstn skipn List.length Nat.min overwrite app Nat.add].
  reflexivity.
Qed.

Ltac concrete_buffered :=
  constructor; [constructor|..]; vm_compute; intuition (try discriminate; try reflexivity).

Lemma Next_reads_nothing_when_buffered_witness :
  exists ch c',
    Chunker.Next (after_Next (chunker_of (NewChunker long_reader 128 example_options)))
    = Some (ch, None, c') /\
    Chunker.reader c'
    = Chunker.reader (after_Next (chunker_of (NewChunker long_reader 128 example_options))) /\
    Chunker.buf c'
    = Chunker.buf (after_Next (chunker_of (NewChunker long_reader 128 example_options))) /\
    Offset ch
    = Chunker.streamPos (after_Next (chunker_of (NewChunker long_reader 128 example_options))) /\
    0 < Length ch
    <= Chunker.maxSize (after_Next (chunker_of (NewChunker long_reader 128 example_options))) /\
    Data ch
    = firstn (Z.to_nat (Length ch))
        (window (after_Next (chunker_of (NewChunker long_reader 128 example_options)))).
Proof.
  apply (Next_reads_nothing_when_buffered
           (after_Next (chunker_of (NewChunker long_reader 128 example_options)))).
  - concrete_buffered.
  - vm_compute. discriminate.
Defined.

Lemma end_of_stream_is_final_witness :
  Chunker.Next (after_Next (chunker_of (NewChunker (io.mkReader [] []) 128 example_options)))
  = Some (zeroChunk, Some EOF,
          after_Next (chunker_of (NewChunker (io.mkReader [] []) 128 example_options))).
Proof.
  apply (end_of_stream_is_final
           (chunker_of (NewChunker (io.mkReader [] []) 128 example_options)) _ zeroChunk).
  - concrete_buffered.
  - vm_compute. reflexivity.
Defined.

(** X8. After [Next] has returned a read error the window is marked as
    the whole buffer: the next call does not read the source and returns a
    chunk of at least [minSize] rounded down to even bytes cut from the
    bytes of the buffer, the bytes read before the failure followed by
    whatever the buffer held.  The chunker is to be [Reset] first. *)
Theorem Next_after_read_error (c c' : Chunker.t) (ch0 : Chunk) (e : error) :
  buffered c ->
  Chunker.Next c = Some (ch0, Some e, c') ->
  e <> EOF ->
  Chunker.streamPos c + Chunker.maxSize c < 2 ^ 63 ->
  Chunker.bufCursor c' = 0 /\ Chunker.bufEnd c' = len (Chunker.buf c') /\
  exists ch c'',
    Chunker.Next c' = Some (ch, None, c'') /\
    Chunker.reader c'' = Chunker.reader c' /\
    Offset ch = Chunker.streamPos c /\
    round_even (Chunker.minSize c) <= Length ch <= Chunker.maxSize c /\
    Data ch = firstn (Z.to_nat (Length ch)) (Chunker.buf c').
Proof.
  intros Hb HN He Hp.
  pose proof Hb as [Hcfg [Hcur Hend] Hfull [Hp0 Hp1]].
  unfold Chunker.Next in HN.
  destruct (Chunker.fillBuffer c) as [[err c1]|] eqn:E; [|discriminate].
  destruct (fillBuffer_shape c c1 err Hb E) as (Hs & Hpos & Hshape).
  destruct err as [e0|].
  2:{ destruct (Chunker.bufEnd c1 =? 0).
      - inversion HN; subst. congruence.
      - destruct (slice _ _ _) as [data|]; [|discriminate].
        destruct (Chunker.cut _ _) as [[n fp]|]; [|discriminate].
        destruct (slice _ _ _) as [view|]; discriminate. }
  inversion HN; subst ch0 e0 c1. clear HN.
  destruct Hshape as [(_ & Hnone & _)|(Hlt & Hc0 & Hb1 & Heof)]; [discriminate|].
  destruct Heof as [[_ Hnone]|[Heof Hfullbuf]]; [discriminate|].
  split; [exact Hc0|]. split; [exact Hfullbuf|].
  pose proof (configured_same_config c c' Hs Hcfg) as Hcfg'.
  pose proof Hs as (Hmn & Hmx & _).
  destruct (Next_buffered c') as (ch & c'' & EN & Hrd & _ & _ & _ & _ & Ho & Hl & Hdata);
    try assumption; try (rewrite ?Hc0, ?Hfullbuf, ?Hpos, <- ?Hmx; lia).
  { rewrite Hc0, Hfullbuf, <- Hmx. pose proof (cfg_buf c' Hcfg'). lia. }
  exists ch, c''. split; [exact EN|]. split; [exact Hrd|].
  split; [now rewrite Ho|]. split; [rewrite Hmn, Hmx; exact Hl|].
  rewrite Hdata. f_equal. unfold window. rewrite Hc0, Hfullbuf, Z.sub_0_r.
  cbn [Z.to_nat skipn]. apply firstn_all2. unfold len. lia.
Qed.

Lemma Next_after_read_error_witness :
  exists ch c'',
    Chunker.Next (after_Next (chunker_of (NewChunker failing_reader 128 example_options)))
    = Some (ch, None, c'') /\
    Chunker.reader c''
    = Chunker.reader (after_Next (chunker_of (NewChunker failing_reader 128 example_options))) /\
    Offset ch = Chunker.streamPos (chunker_of (NewChunker failing_reader 128 example_options)) /\
    round_even (Chunker.minSize (chunker_of (NewChunker failing_reader 128 example_options)))
    <= Length ch
    <= Chunker.maxSize (chunker_of (NewChunker failing_reader 128 example_options)) /\
    Data ch
    = firstn (Z.to_nat (Length ch))
        (Chunker.buf (after_Next (chunker_of (NewChunker failing_reader 128 example_options)))).
Proof.
  refine (proj2 (proj2 (Next_after_read_error
                          (chunker_of (NewChunker failing_reader 128 example_options))
                          (after_Next (chunker_of (NewChunker failing_reader 128 example_options)))
                          zeroChunk (ReadError 7) _ _ _ _))).
  - concrete_buffered.
  - vm_compute. reflexivity.
  - discriminate.
  - vm_compute. reflexivity.
Defined.

(** ** The size of the buffer *)

Ltac proj_options :=
  cbn [options.minSize options.maxSize options.bufSize options.averageSize
       options.normalization options.disableNormalization options.seed].

Lemma resolve_WithBufferSize (averageSize : Z) (opts : list Option) (b1 b2 : Z) :
  let o1 := resolve averageSize (opts ++ [WithBufferSize b1]) in
  let o2 := resolve averageSize (opts ++ [WithBufferSize b2]) in
  options.averageSize o1 = options.averageSize o2 /\
  options.minSize o1 = options.minSize o2 /\
  options.maxSize o1 = options.maxSize o2 /\
  options.seed o1 = options.seed o2 /\
  effective_normalization o1 = effective_normalization o2.
Proof.
  unfold resolve. rewrite !fold_left_app. cbn [fold_left].
  destruct (fold_left _ opts _) as [a mn mx nz dis sd bs].
  unfold WithBufferSize, options.setDefaults, effective_normalization,
    options.set_bufSize, options.set_minSize, options.set_maxSize, options.set_normalization.
  proj_options.
  destruct (mn =? 0); proj_options;
    destruct (mx =? 0); proj_options;
    destruct (b1 =? 0); proj_options;
    destruct (b2 =? 0); proj_options;
    destruct dis; cbn [negb andb]; proj_options;
    try (destruct (nz =? 0); proj_options);
    repeat split; reflexivity.
Qed.

(** X9. The size of the buffer has no part in the chunks: two chunkers
    that differ in [WithBufferSize] only give the same chunks of the same
    bytes. *)
Theorem buffer_size_is_irrelevant (rd1 rd2 : io.Reader) (averageSize : Z)
  (opts : list Option) (b1 b2 : Z) (c1 c2 : Chunker.t) :
  NewChunker rd1 averageSize (opts ++ [WithBufferSize b1]) = Some (Some c1, None) ->
  NewChunker rd2 averageSize (opts ++ [WithBufferSize b2]) = Some (Some c2, None) ->
  io.pending rd1 = io.pending rd2 ->
  delivers rd1 -> delivers rd2 ->
  is_int (options.bufSize (resolve averageSize (opts ++ [WithBufferSize b1]))) ->
  is_int (options.bufSize (resolve averageSize (opts ++ [WithBufferSize b2]))) ->
  len (io.pending rd1) < 2 ^ 63 ->
  exists cs c1' c2',
    drain (S (List.length (io.pending rd1))) c1 = Some (cs, None, c1') /\
    drain (S (List.length (io.pending rd2))) c2 = Some (cs, None, c2').
Proof.
  intros HN1 HN2 Hp Hd1 Hd2 Hi1 Hi2 Hlen.
  destruct (NewChunker_drain rd1 _ _ c1 HN1 Hd1 Hi1 Hlen) as (_ & cs1 & c1' & E1 & Hch1).
  destruct (NewChunker_drain rd2 _ _ c2 HN2 Hd2 Hi2) as (_ & cs2 & c2' & E2 & Hch2);
    [now rewrite <- Hp|].
  assert (Hs : same_parameters c1 c2).
  { destruct (NewChunker_masks rd1 _ _ c1 HN1) as (HS1 & HL1 & HSs1 & HLs1).
    destruct (NewChunker_masks rd2 _ _ c2 HN2) as (HS2 & HL2 & HSs2 & HLs2).
    cbv zeta in *.
    destruct (NewChunker_cases rd1 averageSize (opts ++ [WithBufferSize b1]))
      as [(err & E & _)|[(E & _)|(c & E & _ & Hf1)]]; rewrite E in HN1; inversion HN1; subst c.
    destruct (NewChunker_cases rd2 averageSize (opts ++ [WithBufferSize b2]))
      as [(err & E' & _)|[(E' & _)|(c & E' & _ & Hf2)]]; rewrite E' in HN2; inversion HN2; subst c.
    destruct Hf1 as (Hmn1 & Hmx1 & Hns1 & Hg1 & Hgs1 & _).
    destruct Hf2 as (Hmn2 & Hmx2 & Hns2 & Hg2 & Hgs2 & _).
    destruct (resolve_WithBufferSize averageSize opts b1 b2) as (Ea & Em & Ex & Es & En).
    cbv zeta in *.
    rewrite Ea, En in HS1, HL1. rewrite HS1 in HS2. rewrite HL1 in HL2.
    inversion HS2 as [HS]. inversion HL2 as [HL].
    unfold same_parameters.
    rewrite Hmn1, Hmn2, Hmx1, Hmx2, Hns1, Hns2, Hg1, Hg2, Hgs1, Hgs2,
      HSs1, HSs2, HLs1, HLs2, HS, HL, Ea, Em, Ex, Es.
    repeat split; reflexivity. }
  rewrite <- Hp in Hch2.
  rewrite (chunking_functional c2 0 (io.pending rd1) cs1
             (chunking_same_parameters c1 c2 _ _ _ Hs Hch1) cs2 Hch2) in E1.
  now exists cs2, c1', c2'.
Qed.

Lemma buffer_size_is_irrelevant_witness :
  exists cs c1' c2',
    drain (S (List.length (io.pending example_reader)))
      (chunker_of (NewChunker example_reader 128 (example_options ++ [WithBufferSize 600])))
    = Some (cs, None, c1') /\
    drain (S (List.length (io.pending example_reader')))
      (chunker_of (NewChunker example_reader' 128 (example_options ++ [WithBufferSize 4096])))
    = Some (cs, None, c2').
Proof.
  apply (buffer_size_is_irrelevant example_reader example_reader' 128 example_options 600 4096).
  - vm_compute. reflexivity.
  - vm_compute. reflexivity.
  - reflexivity.
  - intros n e H. vm_compute in H. intuition discriminate.
  - intros n e H. vm_compute in H. intuition discriminate.
  - unfold is_int. vm_compute. split; [discriminate|reflexivity].
  - unfold is_int. vm_compute. split; [discriminate|reflexivity].
  - vm_compute. reflexivity.
Defined.

(** ** Options, defaults and the errors of construction *)

Lemma resolve_nil (averageSize : Z) :
  resolve averageSize []
  = options.mk averageSize (GoInt.div averageSize 4) (GoInt.mul averageSize 4) 2 false 0
      (GoInt.mul (GoInt.mul averageSize 4) 2).
Proof. reflexivity. Qed.

(** X10. Without options [NewChunker] accepts exactly the powers of two
    from 256 to 8 MiB as average size, and the chunker has
    [minSize = averageSize / 4], [maxSize = averageSize * 4], a buffer of
    [averageSize * 8] bytes and the masks of normalization level 2. *)
Theorem default_configuration (rd : io.Reader) (averageSize : Z) :
  ((exists c, NewChunker rd averageSize [] = Some (Some c, None)) <->
   (exists k, 8 <= k <= 23 /\ averageSize = 2 ^ k)) /\
  (forall c, NewChunker rd averageSize [] = Some (Some c, None) ->
     Chunker.minSize c = averageSize / 4 /\
     Chunker.maxSize c = averageSize * 4 /\
     Chunker.normalizeSize c = averageSize /\
     len (Chunker.buf c) = averageSize * 8 /\
     masks_at (Z.log2 averageSize + 2) = Some (Chunker.maskSmall c) /\
     masks_at (Z.log2 averageSize - 2) = Some (Chunker.maskLarge c)).
Proof.
  assert (Hacc : accepted (resolve averageSize []) ->
                 256 <= averageSize <= 2 ^ 23 /\
                 exists k, 8 <= k <= 23 /\ averageSize = 2 ^ k).
  { rewrite resolve_nil. unfold accepted, effective_normalization.
    cbn [options.averageSize options.minSize options.maxSize options.bufSize
         options.normalization options.disableNormalization].
    intros (Ha & (k & Hk & Hp) & Hmin & _ & _ & _ & _ & _ & _ & Hs).
    unfold GoInt.div in Hmin. rewrite Z.quot_div_nonneg in Hmin by lia.
    pose proof (Z.div_mod averageSize 4 ltac:(lia)).
    pose proof (Z.mod_pos_bound averageSize 4 ltac:(lia)).
    rewrite wrap_id in Hmin by lia.
    assert (Hk8 : 8 <= k).
    { destruct (Z_lt_le_dec k 8) as [Hlt|]; [|assumption].
      pose proof (Z.pow_le_mono_r 2 k 7 ltac:(lia) ltac:(lia)).
      change (2 ^ 7) with 128 in *. lia. }
    rewrite Hp, Z.log2_pow2 in Hs by lia.
    assert (Hk23 : k <= 23) by lia.
    split; [|now exists k].
    pose proof (Z.pow_le_mono_r 2 k 23 ltac:(lia) ltac:(lia)). lia. }
  assert (Hconv : (exists k, 8 <= k <= 23 /\ averageSize = 2 ^ k) ->
                  accepted (resolve averageSize [])).
  { intros (k & Hk & Hp).
    assert (Hr : 2 ^ 8 <= averageSize <= 2 ^ 23).
    { rewrite Hp. split; apply Z.pow_le_mono_r; lia. }
    change (2 ^ 8) with 256 in Hr. change (2 ^ 23) with 8388608 in Hr.
    pose proof (Z.div_mod averageSize 4 ltac:(lia)).
    pose proof (Z.mod_pos_bound averageSize 4 ltac:(lia)).
    rewrite resolve_nil. unfold accepted, effective_normalization.
    cbn [options.averageSize options.minSize options.maxSize options.bufSize
         options.normalization options.disableNormalization].
    unfold GoInt.div, GoInt.mul. rewrite Z.quot_div_nonneg by lia.
    rewrite (wrap_id (averageSize / 4))
      by (change (2 ^ 63) with 9223372036854775808; lia).
    rewrite (wrap_id (averageSize * 4))
      by (change (2 ^ 63) with 9223372036854775808; lia).
    rewrite (wrap_id (averageSize * 4 * 2))
      by (change (2 ^ 63) with 9223372036854775808; lia).
    change (2 ^ 30) with 1073741824.
    assert (Hlog : Z.log2 averageSize = k) by (rewrite Hp; apply Z.log2_pow2; lia).
    rewrite Hlog.
    repeat split; try lia.
    exists k. split; [lia|exact Hp]. }
  destruct (NewChunker_cases rd averageSize [])
    as [(err & E & Hn)|[(E & Ha & Hal)|(c' & E & Ha & Hc)]].
  - split.
    + split.
      * intros (c & H). rewrite E in H. discriminate.
      * intros H. exfalso. apply Hn, Hconv, H.
    + intros c H. rewrite E in H. discriminate.
  - exfalso. destruct (Hacc Ha) as (Hr & _).
    change (2 ^ 23) with 8388608 in Hr.
    rewrite resolve_nil in Hal. cbn [options.bufSize] in Hal.
    unfold GoInt.mul in Hal.
    rewrite (wrap_id (averageSize * 4)) in Hal
      by (change (2 ^ 63) with 9223372036854775808; lia).
    rewrite (wrap_id (averageSize * 4 * 2)) in Hal
      by (change (2 ^ 63) with 9223372036854775808; lia).
    change maxAlloc with 281474976710656 in Hal. lia.
  - destruct (Hacc Ha) as (Hr & Hk).
    split.
    + split; [intros _; exact Hk|intros _; now exists c'].
    + intros c H. rewrite E in H. inversion H; subst c'.
      destruct Hc as (Hmn & Hmx & Hns & _ & _ & _ & Hbuf & _).
      destruct (NewChunker_masks rd averageSize [] c E) as (HS & HL & _).
      cbv zeta in HS, HL.
      rewrite resolve_nil in *. unfold effective_normalization in *.
      cbn [options.averageSize options.minSize options.maxSize options.bufSize
           options.normalization options.disableNormalization] in *.
      pose proof (Z.div_mod averageSize 4 ltac:(lia)).
      pose proof (Z.mod_pos_bound averageSize 4 ltac:(lia)).
      unfold GoInt.div, GoInt.mul in *. rewrite Z.quot_div_nonneg in * by lia.
      change (2 ^ 23) with 8388608 in Hr.
      rewrite (wrap_id (averageSize / 4)) in *
        by (change (2 ^ 63) with 9223372036854775808; lia).
      rewrite (wrap_id (averageSize * 4)) in *
        by (change (2 ^ 63) with 9223372036854775808; lia).
      rewrite (wrap_id (averageSize * 4 * 2)) in *
        by (change (2 ^ 63) with 9223372036854775808; lia).
      repeat split; try assumption.
      rewrite Hbuf. unfold len. rewrite repeat_length. lia.
Qed.

Lemma validate_not_mask_error (o : options.t) :
  options.validate o
  <> Some (errors_New "AverageSize/Normalization combination exceeds mask table bounds").
Proof.
  unfold options.validate.
  repeat match goal with
         | |- context [if ?b then _ else _] => destruct b
         end; discriminate.
Qed.

(** X11. [NewChunker] returns the error of the mask table bounds exactly
    when the validation of the sizes passes and
    [log2(averageSize) + normalization > 25] or
    [log2(averageSize) - normalization < 5]: a high normalization level
    narrows the accepted average sizes. *)
Theorem mask_table_bounds_error (rd : io.Reader) (averageSize : Z) (opts : list Option) :
  let o := resolve averageSize opts in
  NewChunker rd averageSize opts
  = Some (None, Some (errors_New
                        "AverageSize/Normalization combination exceeds mask table bounds"))
  <->
  options.validate o = None /\
  (25 < Z.log2 (options.averageSize o) + effective_normalization o \/
   Z.log2 (options.averageSize o) - effective_normalization o < 5).
Proof.
  intros o. unfold NewChunker. fold o.
  destruct (options.validate o) as [err|] eqn:Ev.
  { split.
    - intros H. inversion H; subst err. exfalso. exact (validate_not_mask_error o Ev).
    - intros [H _]. discriminate. }
  pose proof (proj1 (validate_None o) Ev) as (Ha & Hp & _ & _ & _ & _ & Hn & _).
  rewrite (TrailingZeros_log2 (options.averageSize o)) by (try exact Hp; lia).
  fold (effective_normalization o).
  assert (Hlog : 6 <= Z.log2 (options.averageSize o) <= 30).
  { split.
    - change 6 with (Z.log2 64). apply Z.log2_le_mono. lia.
    - change 30 with (Z.log2 (2 ^ 30)). apply Z.log2_le_mono. lia. }
  assert (Heff : 0 <= effective_normalization o <= 3).
  { unfold effective_normalization.
    destruct (options.disableNormalization o); [lia|]. now apply Hn. }
  unfold GoInt.add, GoInt.sub. rewrite !wrap_id by lia.
  rewrite Z.gtb_ltb.
  destruct (if negb _ then _ else _) as [sg sgs].
  destruct (Z.ltb_spec 25 (Z.log2 (options.averageSize o) + effective_normalization o))
    as [Hs|Hs]; [cbn [orb]; split; [intros _; split; [reflexivity|lia]|reflexivity]|].
  destruct (Z.ltb_spec (Z.log2 (options.averageSize o) - effective_normalization o) 5)
    as [Hl|Hl]; [cbn [orb]; split; [intros _; split; [reflexivity|lia]|reflexivity]|].
  cbn [orb].
  destruct (masks_at_some (Z.log2 (options.averageSize o) + effective_normalization o))
    as [mS ->]; [lia|].
  destruct (masks_at_some (Z.log2 (options.averageSize o) - effective_normalization o))
    as [mL ->]; [lia|].
  destruct (make _) as [b|]; (split; [discriminate|lia]).
Qed.

Lemma fold_settings (ss : list setting) : forall o0 : options.t,
  let o := fold_left (fun o opt => opt o) (map option_of ss) o0 in
  options.averageSize o = options.averageSize o0 /\
  options.minSize o
  = match last_setting minSize_of ss with Some v => v | None => options.minSize o0 end /\
  options.maxSize o
  = match last_setting maxSize_of ss with Some v => v | None => options.maxSize o0 end /\
  options.normalization o
  = match last_setting level_of ss with Some v => v | None => options.normalization o0 end /\
  options.disableNormalization o
  = match last_setting level_of ss with
    | Some v => v =? 0
    | None => options.disableNormalization o0
    end /\
  options.seed o
  = match last_setting seed_of ss with Some v => v | None => options.seed o0 end /\
  options.bufSize o
  = match last_setting bufSize_of ss with Some v => v | None => options.bufSize o0 end.
Proof.
  induction ss as [|s ss IH]; intros o0; [cbn; tauto|].
  cbn [map fold_left last_setting]. cbv zeta.
  destruct (IH (option_of s o0)) as (Ha & Hmn & Hmx & Hnz & Hdis & Hsd & Hbs).
  rewrite Ha, Hmn, Hmx, Hnz, Hdis, Hsd, Hbs.
  destruct o0 as [a mn mx nz dis sd bs].
  destruct (last_setting minSize_of ss), (last_setting maxSize_of ss),
    (last_setting level_of ss), (last_setting seed_of ss), (last_setting bufSize_of ss);
    destruct s; cbn; tauto.
Qed.

Lemma setDefaults_fields (a mn mx nz : Z) (dis : bool) (sd bs : Z) :
  let o := options.setDefaults (options.mk a mn mx nz dis sd bs) in
  options.averageSize o = a /\
  options.minSize o = (if mn =? 0 then GoInt.div a 4 else mn) /\
  options.maxSize o = (if mx =? 0 then GoInt.mul a 4 else mx) /\
  options.bufSize o = (if bs =? 0 then GoInt.mul (options.maxSize o) 2 else bs) /\
  options.seed o = sd /\
  options.normalization o = (if negb dis && (nz =? 0) then 2 else nz) /\
  options.disableNormalization o = dis.
Proof.
  unfold options.setDefaults, options.set_bufSize, options.set_minSize,
    options.set_maxSize, options.set_normalization.
  cbv zeta. proj_options.
  destruct (mn =? 0); proj_options; destruct (mx =? 0); proj_options;
    destruct (bs =? 0); proj_options;
    destruct (negb dis && (nz =? 0)); proj_options; repeat split; reflexivity.
Qed.

(** X12. The options are applied in order and the last option of each
    kind wins.  The level of the last [WithNormalization] is the
    effective level, 0 included: the level 0 disables the normalization
    and does not select the default level 2, which holds when there is no
    such option.  The size of the last [WithMinSize], [WithMaxSize] or
    [WithBufferSize] is the size unless it is 0: the size 0, as no option
    of the kind, selects the default [averageSize / 4], [averageSize * 4]
    or [maxSize * 2]. *)
Theorem zero_option_values (averageSize : Z) (ss : list setting) :
  let o := resolve averageSize (map option_of ss) in
  options.averageSize o = averageSize /\
  effective_normalization o
  = match last_setting level_of ss with Some level => level | None => 2 end /\
  options.minSize o = size_or (last_setting minSize_of ss) (GoInt.div averageSize 4) /\
  options.maxSize o = size_or (last_setting maxSize_of ss) (GoInt.mul averageSize 4) /\
  options.bufSize o
  = size_or (last_setting bufSize_of ss) (GoInt.mul (options.maxSize o) 2) /\
  options.seed o = match last_setting seed_of ss with Some seed => seed | None => 0 end.
Proof.
  unfold resolve.
  destruct (fold_settings ss (options.mk averageSize 0 0 0 false 0 0))
    as (Ha & Hmn & Hmx & Hnz & Hdis & Hsd & Hbs).
  cbv zeta in *.
  destruct (fold_left _ _ _) as [a mn mx nz dis sd bs].
  proj_options.
  cbn [options.minSize options.maxSize options.bufSize options.averageSize
       options.normalization options.disableNormalization options.seed]
    in Ha, Hmn, Hmx, Hnz, Hdis, Hsd, Hbs.
  destruct (setDefaults_fields a mn mx nz dis sd bs)
    as (Fa & Fmn & Fmx & Fbs & Fsd & Fnz & Fdis).
  cbv zeta in *. unfold effective_normalization.
  rewrite Fa, Fmn, Fmx, Fbs, Fsd, Fnz, Fdis, Fmx.
  subst a mn mx nz dis sd bs. unfold size_or.
  split; [reflexivity|]. split.
  { destruct (last_setting level_of ss) as [level|]; [|reflexivity].
    destruct (Z.eqb_spec level 0) as [E|Hne]; [symmetry; exact E|reflexivity]. }
  split.
  { destruct (last_setting minSize_of ss) as [v|]; reflexivity. }
  split.
  { destruct (last_setting maxSize_of ss) as [v|]; reflexivity. }
  split.
  { destruct (last_setting bufSize_of ss) as [v|]; reflexivity. }
  destruct (last_setting seed_of ss) as [v|]; reflexivity.
Qed.

(** ** Appending to a stream *)

Lemma chunking_append (c : Chunker.t) (more : list byte) pos rest csA :
  configured c ->
  chunking c pos rest csA ->
  forall csB, chunking c pos (rest ++ more) csB ->
  exists common restA restB,
    csA = common ++ restA /\ csB = common ++ restB /\
    total_length restA < Chunker.maxSize c.
Proof.
  intros Hcfg H. pose proof Hcfg as [Hmin Havg Hmax Hbuf].
  induction H as [pos|pos rest l fp cs Hne Hcut Hl Hrest IH]; intros csB HB.
  - exists [], [], csB. cbn. repeat split; try reflexivity. lia.
  - destruct (Z_lt_le_dec (len rest) (Chunker.maxSize c)) as [Hshort|Hlong].
    + exists [], (mkChunk pos l (firstn (Z.to_nat l) rest) fp :: cs), csB.
      repeat split; try reflexivity.
      rewrite (chunking_total c pos rest); [exact Hshort|].
      now constructor.
    + remember (rest ++ more) as all eqn:Eall.
      destruct HB as [pos|pos all l' fp' cs' Hne' Hcut' Hl' Hrest'].
      { destruct rest; [congruence|discriminate]. }
      subst all.
      assert (Hsame : next_cut c (rest ++ more) = next_cut c rest).
      { unfold next_cut. rewrite firstn_prefix by (unfold len in *; lia). reflexivity. }
      rewrite Hsame, Hcut in Hcut'. inversion Hcut'; subst l' fp'.
      rewrite skipn_prefix in Hrest' by (unfold len in *; lia).
      destruct (IH cs' Hrest') as (common & restA & restB & EA & EB & Ht).
      exists (mkChunk pos l (firstn (Z.to_nat l) rest) fp :: common), restA, restB.
      rewrite firstn_prefix by (unfold len in *; lia).
      cbn [app]. rewrite <- EA, <- EB. repeat split; try reflexivity. exact Ht.
Qed.

(** X13. Appending bytes to a stream changes only the chunks of its last
    [maxSize] bytes: the chunks of the stream and of the longer stream
    have a common beginning, and the chunks of the stream that are not in
    it have fewer than [maxSize] bytes together. *)
Theorem append_stability (rd1 rd2 : io.Reader) (averageSize : Z) (opts : list Option)
  (c1 c2 : Chunker.t) (more : list byte) :
  NewChunker rd1 averageSize opts = Some (Some c1, None) ->
  NewChunker rd2 averageSize opts = Some (Some c2, None) ->
  io.pending rd2 = io.pending rd1 ++ more ->
  delivers rd1 -> delivers rd2 ->
  is_int (options.bufSize (resolve averageSize opts)) ->
  len (io.pending rd2) < 2 ^ 63 ->
  exists common rest1 rest2 c1' c2',
    drain (S (List.length (io.pending rd1))) c1 = Some (common ++ rest1, None, c1') /\
    drain (S (List.length (io.pending rd2))) c2 = Some (common ++ rest2, None, c2') /\
    total_length rest1 < Chunker.maxSize c1.
Proof.
  intros HN1 HN2 Hp Hd1 Hd2 Hint Hlen.
  assert (Hlen1 : len (io.pending rd1) < 2 ^ 63).
  { rewrite Hp, len_app in Hlen. pose proof (len_nonneg more). lia. }
  destruct (NewChunker_drain rd1 averageSize opts c1 HN1 Hd1 Hint Hlen1)
    as (Hb1 & cs1 & c1' & E1 & Hch1).
  destruct (NewChunker_drain rd2 averageSize opts c2 HN2 Hd2 Hint Hlen)
    as (_ & cs2 & c2' & E2 & Hch2).
  assert (Hs : same_config c2 c1).
  { apply same_config_sym.
    rewrite (NewChunker_reader rd1 rd2 averageSize opts c1 c2 HN1 HN2).
    apply set_reader_same_config. }
  apply (chunking_same_config c2 c1 _ _ _ Hs) in Hch2. rewrite Hp in Hch2.
  destruct (chunking_append c1 more 0 _ cs1 (buf_cfg c1 Hb1) Hch1 cs2 Hch2)
    as (common & rest1 & rest2 & EA & EB & Ht).
  exists common, rest1, rest2, c1', c2'. subst cs1 cs2. repeat split; assumption.
Qed.

Lemma append_stability_witness :
  exists common rest1 rest2 c1' c2',
    drain (S (List.length (io.pending long_reader)))
      (chunker_of (NewChunker long_reader 128 example_options))
    = Some (common ++ rest1, None, c1') /\
    drain (S (List.length (io.pending (io.mkReader (zeros 2000 ++ [xf8; x01]) []))))
      (chunker_of (NewChunker (io.mkReader (zeros 2000 ++ [xf8; x01]) []) 128
                     example_options))
    = Some (common ++ rest2, None, c2') /\
    total_length rest1
    < Chunker.maxSize (chunker_of (NewChunker long_reader 128 example_options)).
Proof.
  apply (append_stability long_reader (io.mkReader (zeros 2000 ++ [xf8; x01]) []) 128
           example_options _ _ [xf8; x01]).
  - vm_compute. reflexivity.
  - vm_compute. reflexivity.
  - reflexivity.
  - intros n e H. vm_compute in H. intuition discriminate.
  - intros n e H. vm_compute in H. intuition discriminate.
  - unfold is_int. vm_compute. split; [discriminate|reflexivity].
  - vm_compute. reflexivity.
Defined.
